(** * mk2pvrouter: frame reader, record parser and dispatcher

    A shallow embedding of [components/mk2pvrouter/mk2pvrouter.cpp] and
    [mk2pvrouter.h].

    Conventions of the embedding.
    - A [char] is its byte value, an integer of [Z]; wrap-around of the
      fixed-width integers of the source ([uint8_t], [uint32_t]) is written
      out with [mod].  Whether [char] is signed makes no difference to the
      source: [memchr] and [strncpy] work on bytes, the checksum is summed
      modulo 256, and the values a [char] is compared with (a checksum
      between 0x20 and 0x5F) are below 128.
    - A pointer into [buf_] is its offset from the start of [buf_].  The
      memory seen from [buf_] is a total function [Z -> Z]: offsets
      [0 .. MAX_BUF_SIZE-1] are the array, offsets below the fill length are
      the current frame, offsets from the fill length on are whatever earlier
      frames left there (or whatever follows the array).  The theorems about
      the parser hold for every content of that part.
    - What the component does to its surroundings is recorded, in order, in
      the [trace] of the router: stores into [buf_], the byte ranges
      examined by the record scan and read by the checksum verifier, log
      lines, calls of [publish_value_] and calls of a listener's
      [publish_val].
    - The UART is the queue [uart_rx] of received bytes: [available()] is its
      length and [read()] takes its first byte. *)

From Stdlib Require Import ZArith List Lia Bool Permutation.
Import ListNotations.
Open Scope Z_scope.

(** ** Constants *)

Definition START_FRAME : Z := 0x2.
Definition END_FRAME : Z := 0x3.
Definition LINE_FEED : Z := 0xa.
Definition CARRIAGE_RETURN : Z := 0xd.
Definition TAB : Z := 0x9.
Definition MAX_ITERATIONS : Z := 128.

Definition MAX_TAG_SIZE : Z := 16.
Definition MAX_VAL_SIZE : Z := 16.
Definition MAX_BUF_SIZE : Z := 1048.

(** ** Data *)

(** A [std::string], as the list of its bytes. *)
Definition str := list Z.

Fixpoint str_eqb (a b : str) : bool :=
  match a, b with
  | [], [] => true
  | x :: a', y :: b' => (x =? y) && str_eqb a' b'
  | _, _ => false
  end.

Inductive State := OFF | ON | START_FRAME_RECEIVED | END_FRAME_RECEIVED.

(** The lines the component logs. *)
Inductive log_msg :=
| CRC_MISMATCH (calculated_crc raw_crc : Z)
| INTERNAL_BUFFER_FULL
| NO_GROUP_FOUND
| INVALID_TAG
| INVALID_VALUE (tag : str).

Inductive event :=
| EvStore (i b : Z)             (* buf_[i] = b *)
| EvScan (lo hi : Z)            (* the record scan examined buf_[lo .. hi-1] *)
| EvVerify (grp grp_end : Z)    (* check_crc_ called on [grp, grp_end) *)
| EvCrcRead (lo hi : Z)         (* the verifier read buf_[lo .. hi-1] *)
| EvLogW (m : log_msg)          (* ESP_LOGW *)
| EvLogE (m : log_msg)          (* ESP_LOGE *)
| EvPublish (tag val : str)     (* publish_value_(tag, val) *)
| EvDeliver (listener : nat) (val : str).
                                (* mk2pvrouter_listeners_[listener]->publish_val(val) *)

(** The class [Mk2PVRouter], with the UART queue and the trace.  A listener
    is represented by its [tag]; the vector keeps registration order. *)
Record Mk2PVRouter := mkRouter {
  mk2pvrouter_listeners_ : list str;
  baud_rate_ : Z;
  checksum_area_end_ : Z;
  buf_ : Z -> Z;
  buf_index_ : Z;
  tag_ : list Z;
  val_ : list Z;
  state_ : State;
  uart_rx : list Z;
  trace : list event
}.

Definition set_listeners (v : list str) (r : Mk2PVRouter) : Mk2PVRouter :=
  mkRouter v (baud_rate_ r) (checksum_area_end_ r) (buf_ r) (buf_index_ r)
           (tag_ r) (val_ r) (state_ r) (uart_rx r) (trace r).

Definition set_buf (v : Z -> Z) (r : Mk2PVRouter) : Mk2PVRouter :=
  mkRouter (mk2pvrouter_listeners_ r) (baud_rate_ r) (checksum_area_end_ r) v
           (buf_index_ r) (tag_ r) (val_ r) (state_ r) (uart_rx r) (trace r).

Definition set_buf_index (v : Z) (r : Mk2PVRouter) : Mk2PVRouter :=
  mkRouter (mk2pvrouter_listeners_ r) (baud_rate_ r) (checksum_area_end_ r)
           (buf_ r) v (tag_ r) (val_ r) (state_ r) (uart_rx r) (trace r).

Definition set_tag (v : list Z) (r : Mk2PVRouter) : Mk2PVRouter :=
  mkRouter (mk2pvrouter_listeners_ r) (baud_rate_ r) (checksum_area_end_ r)
           (buf_ r) (buf_index_ r) v (val_ r) (state_ r) (uart_rx r) (trace r).

Definition set_val (v : list Z) (r : Mk2PVRouter) : Mk2PVRouter :=
  mkRouter (mk2pvrouter_listeners_ r) (baud_rate_ r) (checksum_area_end_ r)
           (buf_ r) (buf_index_ r) (tag_ r) v (state_ r) (uart_rx r) (trace r).

Definition set_state (v : State) (r : Mk2PVRouter) : Mk2PVRouter :=
  mkRouter (mk2pvrouter_listeners_ r) (baud_rate_ r) (checksum_area_end_ r)
           (buf_ r) (buf_index_ r) (tag_ r) (val_ r) v (uart_rx r) (trace r).

Definition set_uart_rx (v : list Z) (r : Mk2PVRouter) : Mk2PVRouter :=
  mkRouter (mk2pvrouter_listeners_ r) (baud_rate_ r) (checksum_area_end_ r)
           (buf_ r) (buf_index_ r) (tag_ r) (val_ r) (state_ r) v (trace r).

(** Events are appended: the trace reads in the order things happened. *)
Definition emit (e : event) (r : Mk2PVRouter) : Mk2PVRouter :=
  mkRouter (mk2pvrouter_listeners_ r) (baud_rate_ r) (checksum_area_end_ r)
           (buf_ r) (buf_index_ r) (tag_ r) (val_ r) (state_ r) (uart_rx r)
           (trace r ++ [e]).

(** ** The C library functions the source calls *)

(** [memchr(s, c, n)]: the first of the [n] bytes from [s] that equals [c].
    [n] is the value of the [size_t] argument; the differences of pointers
    that the source passes are never negative. *)
Fixpoint memchr_from (mem : Z -> Z) (c : Z) (s : Z) (n : nat) : option Z :=
  match n with
  | O => None
  | S n' => if mem s =? c then Some s else memchr_from mem c (s + 1) n'
  end.

Definition memchr (mem : Z -> Z) (s c n : Z) : option Z :=
  memchr_from mem c s (Z.to_nat n).

(** The bytes [memchr] examines: it reads from [s] on and stops at the
    first match; without a match it has read all [n]. *)
Definition memchr_examined_end (s n : Z) (found : option Z) : Z :=
  match found with
  | Some p => p + 1
  | None => s + Z.max 0 n
  end.

(** [strncpy(dest, src, n)] writes exactly [n] bytes: the bytes of [src] up
    to its first NUL, then NUL bytes. *)
Fixpoint strncpy_bytes (mem : Z -> Z) (src : Z) (n : nat) : list Z :=
  match n with
  | O => []
  | S n' =>
      if mem src =? 0 then repeat 0 n
      else mem src :: strncpy_bytes mem (src + 1) n'
  end.

(** Overwrite the first bytes of an array (the array is at least as long at
    every call of the source). *)
Definition overwrite (dest src : list Z) : list Z :=
  src ++ skipn (length src) dest.

Definition strncpy (dest : list Z) (mem : Z -> Z) (src n : Z) : list Z :=
  overwrite dest (strncpy_bytes mem src (Z.to_nat n)).

(** [a[i] = v] on an array. *)
Fixpoint poke (i : nat) (v : Z) (a : list Z) : list Z :=
  match a, i with
  | [], _ => []
  | _ :: a', O => v :: a'
  | x :: a', S i' => x :: poke i' v a'
  end.

(** [std::string(a)] for a [char] array [a]: the bytes before the first NUL. *)
Fixpoint c_str (a : list Z) : str :=
  match a with
  | [] => []
  | c :: a' => if c =? 0 then [] else c :: c_str a'
  end.

(** ** get_field *)

(** Returns the [int] result and the destination array after the call.
    [buf_start <= buf_end] at both calls of the source. *)
Definition get_field (mem : Z -> Z) (dest : list Z)
           (buf_start buf_end max_len : Z) : Z * list Z :=
  match memchr mem buf_start TAB (buf_end - buf_start) with
  | None => (0, dest)
  | Some field_end =>
      let len := field_end - buf_start in
      if len >=? max_len then (len, dest)
      else (len, poke (Z.to_nat len) 0 (strncpy dest mem buf_start len))
  end.

(** ** calculate_crc_ and check_crc_ *)

(** The [for] loop of [calculate_crc_]: [crc_tmp += grp[i]] on a [uint8_t]. *)
Fixpoint crc_sum (mem : Z -> Z) (grp i : Z) (count : nat) (crc_tmp : Z) : Z :=
  match count with
  | O => crc_tmp
  | S count' =>
      crc_sum mem grp (i + 1) count' ((crc_tmp + mem (grp + i)) mod 256)
  end.

Definition calculate_crc_ (r : Mk2PVRouter) (grp grp_len : Z) : Z :=
  let crc_tmp :=
    crc_sum (buf_ r) grp 0 (Z.to_nat (grp_len - checksum_area_end_ r)) 0 in
  let crc_tmp := Z.land crc_tmp 0x3F in
  (crc_tmp + 0x20) mod 256.

Definition check_crc_ (r : Mk2PVRouter) (grp grp_end : Z) : bool * Mk2PVRouter :=
  let grp_len := grp_end - grp in
  let r := emit (EvVerify grp grp_end) r in
  let raw_crc := buf_ r (grp + (grp_len - 1)) in
  let r := emit (EvCrcRead (grp + (grp_len - 1)) (grp + grp_len)) r in
  let calculated_crc := calculate_crc_ r grp grp_len in
  let r := emit (EvCrcRead grp
                   (grp + Z.max 0 (grp_len - checksum_area_end_ r))) r in
  if negb (raw_crc =? calculated_crc) then
    (false, emit (EvLogE (CRC_MISMATCH calculated_crc raw_crc)) r)
  else (true, r).

(** ** read_chars_until_ *)

(** The [while] loop, by recursion on the bytes the UART has.  [j] is the
    [uint8_t] counter; [j++ < 128] compares the old value. *)
Fixpoint read_chars_loop (drop : bool) (c : Z) (rx : list Z) (j : Z)
         (r : Mk2PVRouter) : bool * Mk2PVRouter :=
  match rx with
  | [] => (false, set_uart_rx [] r)
  | received :: rx' =>
      if j <? 128 then
        let j := (j + 1) mod 256 in
        let r := set_uart_rx rx' r in
        if received =? c then (true, r)
        else if drop then read_chars_loop drop c rx' j r
        else if buf_index_ r >=? MAX_BUF_SIZE - 1 then
          (false, set_state OFF (emit (EvLogW INTERNAL_BUFFER_FULL) r))
        else
          let i := buf_index_ r in
          let r := set_buf (fun a => if a =? i then received else buf_ r a) r in
          let r := emit (EvStore i received) r in
          let r := set_buf_index ((i + 1) mod 2 ^ 32) r in
          read_chars_loop drop c rx' j r
      else (false, set_uart_rx rx r)
  end.

Definition read_chars_until_ (drop : bool) (c : Z) (r : Mk2PVRouter)
  : bool * Mk2PVRouter :=
  read_chars_loop drop c (uart_rx r) 0 r.

(** ** publish_value_ and the registry *)

Fixpoint publish_loop (tag val : str) (elements : list str) (i : nat)
         (r : Mk2PVRouter) : Mk2PVRouter :=
  match elements with
  | [] => r
  | element_tag :: rest =>
      if negb (str_eqb tag element_tag) then publish_loop tag val rest (S i) r
      else publish_loop tag val rest (S i) (emit (EvDeliver i val) r)
  end.

Definition publish_value_ (tag val : str) (r : Mk2PVRouter) : Mk2PVRouter :=
  publish_loop tag val (mk2pvrouter_listeners_ r) 0 (emit (EvPublish tag val) r).

Definition register_mk2pvrouter_listener (listener_tag : str) (r : Mk2PVRouter)
  : Mk2PVRouter :=
  set_listeners (mk2pvrouter_listeners_ r ++ [listener_tag]) r.

(** ** Constructor, setup, update *)

(** The constructor and the member initialisers; the arrays start with
    whatever the memory holds. *)
Definition Mk2PVRouter_new (buf0 : Z -> Z) (tag0 val0 : list Z)
           (rx : list Z) : Mk2PVRouter :=
  mkRouter [] 9600 1 buf0 0 tag0 val0 OFF rx [].

Definition setup (r : Mk2PVRouter) : Mk2PVRouter := set_state OFF r.

Definition update (r : Mk2PVRouter) : Mk2PVRouter :=
  match state_ r with
  | OFF => set_state ON (set_buf_index 0 r)
  | _ => r
  end.

(** ** loop *)

(** One round of the [while] loop of the END_FRAME_RECEIVED case is the loop
    condition ([parse_round]) and then the body ([parse_group]).  [Leave]
    is the end of the loop (condition false, or [break]); [Again] is the next
    round ([continue], or the end of the body) with the cursor it starts
    from. *)
Inductive round :=
| Leave (r : Mk2PVRouter)
| Again (r : Mk2PVRouter) (buf_finger : Z).

(** The body, from the search for the carriage return on; [buf_finger]
    points to the first char of the group after 0xa. *)
Definition parse_group (r : Mk2PVRouter) (buf_finger : Z) : round :=
  let buf_end := buf_index_ r in
  (* Group len *)
  let grp_end := memchr (buf_ r) buf_finger CARRIAGE_RETURN
                        (buf_end - buf_finger) in
  let r := emit (EvScan buf_finger
                   (memchr_examined_end buf_finger
                      (buf_end - buf_finger) grp_end)) r in
  match grp_end with
  | None => Leave (emit (EvLogE NO_GROUP_FOUND) r)
  | Some grp_end =>
      let '(ok, r) := check_crc_ r buf_finger grp_end in
      if negb ok then Again r buf_finger
      else
        (* Get tag *)
        let '(field_len, t) :=
          get_field (buf_ r) (tag_ r) buf_finger grp_end MAX_TAG_SIZE in
        let r := set_tag t r in
        if (field_len =? 0) || (field_len >=? MAX_TAG_SIZE) then
          Again (emit (EvLogE INVALID_TAG) r) buf_finger
        else
          (* Advance buf_finger to after the tag and the separator. *)
          let buf_finger := buf_finger + (field_len + 1) in
          let '(field_len, v) :=
            get_field (buf_ r) (val_ r) buf_finger grp_end MAX_VAL_SIZE in
          let r := set_val v r in
          if (field_len =? 0) || (field_len >=? MAX_VAL_SIZE) then
            Again (emit (EvLogE (INVALID_VALUE (c_str (tag_ r)))) r)
                  buf_finger
          else
            (* Advance buf_finger to end of group *)
            let buf_finger := buf_finger + (field_len + 1 + 1 + 1) in
            Again (publish_value_ (c_str (tag_ r)) (c_str (val_ r)) r)
                  buf_finger
  end.

(** The loop condition:
    [(buf_finger = memchr(buf_finger, LINE_FEED, buf_index_ - 1)) &&
     ((buf_finger - buf_) < buf_index_)].
    [buf_index_ - 1] is computed on [uint32_t]; the comparison is between a
    non-negative offset and an unsigned value. *)
Definition parse_round (r : Mk2PVRouter) (buf_finger : Z) : round :=
  let n := (buf_index_ r - 1) mod 2 ^ 32 in
  let lf := memchr (buf_ r) buf_finger LINE_FEED n in
  let r := emit (EvScan buf_finger (memchr_examined_end buf_finger n lf)) r in
  match lf with
  | None => Leave r
  | Some buf_finger =>
      if negb (buf_finger <? buf_index_ r) then Leave r
      else parse_group r (buf_finger + 1)
  end.

(** The loop.  Each round costs one unit of [fuel]; [None] means the fuel
    ran out, which from [loop] it never does ([parse_frame_total]). *)
Fixpoint parse_frame (fuel : nat) (r : Mk2PVRouter) (buf_finger : Z)
  : option Mk2PVRouter :=
  match fuel with
  | O => None
  | S fuel' =>
      match parse_round r buf_finger with
      | Leave r' => Some r'
      | Again r' buf_finger' => parse_frame fuel' r' buf_finger'
      end
  end.

(** Every round moves the cursor forward and the loop stops once it reaches
    [buf_index_]: one more round than the fill length is always enough. *)
Definition parse_fuel (r : Mk2PVRouter) : nat := S (Z.to_nat (buf_index_ r)).

Definition loop (r : Mk2PVRouter) : Mk2PVRouter :=
  match state_ r with
  | OFF => r
  | ON =>
      let '(found, r) := read_chars_until_ true START_FRAME r in
      if found then set_state START_FRAME_RECEIVED r else r
  | START_FRAME_RECEIVED =>
      let '(found, r) := read_chars_until_ false END_FRAME r in
      if found then set_state END_FRAME_RECEIVED r else r
  | END_FRAME_RECEIVED =>
      match parse_frame (parse_fuel r) r 0 with
      | Some r => set_state OFF r
      | None => r
      end
  end.

(** ** Reading the trace *)

Definition published (t : list event) : list (str * str) :=
  flat_map (fun e => match e with EvPublish tg v => [(tg, v)] | _ => [] end) t.

Definition delivered (t : list event) : list (nat * str) :=
  flat_map (fun e => match e with EvDeliver i v => [(i, v)] | _ => [] end) t.

Definition stores (t : list event) : list (Z * Z) :=
  flat_map (fun e => match e with EvStore i b => [(i, b)] | _ => [] end) t.

Definition scans (t : list event) : list (Z * Z) :=
  flat_map (fun e => match e with EvScan lo hi => [(lo, hi)] | _ => [] end) t.

Definition verified (t : list event) : list (Z * Z) :=
  flat_map (fun e => match e with EvVerify g e' => [(g, e')] | _ => [] end) t.

Definition crc_reads (t : list event) : list (Z * Z) :=
  flat_map (fun e => match e with EvCrcRead lo hi => [(lo, hi)] | _ => [] end) t.

Definition warnings (t : list event) : list log_msg :=
  flat_map (fun e => match e with EvLogW m => [m] | _ => [] end) t.

Definition errors (t : list event) : list log_msg :=
  flat_map (fun e => match e with EvLogE m => [m] | _ => [] end) t.

(** Memory holding the bytes [l] from offset 0 on, and [0] elsewhere. *)
Definition mem_of (l : list Z) : Z -> Z :=
  fun a => if a <? 0 then 0 else nth (Z.to_nat a) l 0.

(** ** Notions used to state the properties *)

(** The [n] bytes of memory from offset [s]. *)
Definition bytes (mem : Z -> Z) (s : Z) (n : nat) : list Z :=
  map (fun j => mem (s + Z.of_nat j)) (seq 0 n).

Definition zsum (l : list Z) : Z := fold_right Z.add 0 l.

(** Memory [mem] holds the bytes [l] from offset [s] on. *)
Definition holds (mem : Z -> Z) (s : Z) (l : list Z) : Prop :=
  forall i, (i < length l)%nat -> mem (s + Z.of_nat i) = nth i l 0.

(** Position of the first [c] in [l]. *)
Fixpoint index_of (c : Z) (l : list Z) : option nat :=
  match l with
  | [] => None
  | x :: l' => if x =? c then Some O else option_map S (index_of c l')
  end.

(** *** A record, read as a list of bytes

    The record between a line feed and the next carriage return, decoded
    without pointers: checksum over all bytes but the last
    [checksum_area_end], first field up to the first tab, second field up to
    the next tab. *)
Definition record_checksum (k : Z) (body : list Z) : Z :=
  zsum (firstn (Z.to_nat (Z.of_nat (length body) - k)) body) mod 64 + 0x20.

Definition record_crc_ok (k : Z) (body : list Z) : bool :=
  match body with
  | [] => false
  | _ => last body 0 =? record_checksum k body
  end.

Definition field_len_ok (len : nat) (max_len : Z) : bool :=
  negb (Z.of_nat len =? 0) && (Z.of_nat len <? max_len).

Definition decode_record (k : Z) (body : list Z) : list (str * str) :=
  if record_crc_ok k body then
    match index_of TAB body with
    | Some tag_len =>
        if field_len_ok tag_len MAX_TAG_SIZE then
          let rest := skipn (S tag_len) body in
          match index_of TAB rest with
          | Some val_len =>
              if field_len_ok val_len MAX_VAL_SIZE then
                [(c_str (firstn tag_len body), c_str (firstn val_len rest))]
              else []
          | None => []
          end
        else []
    | None => []
    end
  else [].

(** *** Frames *)

(** A record on the wire: line feed, body, carriage return. *)
Definition record_bytes (body : list Z) : list Z :=
  LINE_FEED :: body ++ [CARRIAGE_RETURN].

(** A frame buffer: leading bytes [gap], then records, each followed by the
    bytes up to the next record. *)
Fixpoint layout (gap : list Z) (recs : list (list Z * list Z)) : list Z :=
  gap ++ match recs with
         | [] => []
         | (body, gap') :: recs' => record_bytes body ++ layout gap' recs'
         end.

(** The body of a record with the three fields of the protocol. *)
Definition record_body (tag val : str) (crc : Z) : list Z :=
  tag ++ TAB :: val ++ [TAB; crc].

(** What [publish_value_] has to do for one measurement: the listeners with
    that very tag, in registration order. *)
Definition matching_listeners (tag : str) (listeners : list str) : list nat :=
  filter (fun i => str_eqb tag (nth i listeners [])) (seq 0 (length listeners)).

Definition deliveries (listeners : list str) (m : str * str) : list (nat * str) :=
  map (fun i => (i, snd m)) (matching_listeners (fst m) listeners).

(** The indices [i, i+1, ...] of the elements with tag [tag]. *)
Fixpoint matching_from (tag : str) (i : nat) (elements : list str) : list nat :=
  match elements with
  | [] => []
  | t :: rest =>
      if str_eqb tag t then i :: matching_from tag (S i) rest
      else matching_from tag (S i) rest
  end.

(** *** What a parse leaves alone *)

(** [r'] differs from [r] at most in [tag_], [val_] and the trace. *)
Definition same_frame (r r' : Mk2PVRouter) : Prop :=
  mk2pvrouter_listeners_ r' = mk2pvrouter_listeners_ r
  /\ baud_rate_ r' = baud_rate_ r
  /\ checksum_area_end_ r' = checksum_area_end_ r
  /\ buf_ r' = buf_ r
  /\ buf_index_ r' = buf_index_ r
  /\ state_ r' = state_ r
  /\ uart_rx r' = uart_rx r.

(** The events [evs] publish the measurements [pubs], deliver each of them
    to its listeners, and store and warn nothing. *)
Definition publishes (listeners : list str) (evs : list event)
           (pubs : list (str * str)) : Prop :=
  published evs = pubs
  /\ delivered evs = flat_map (deliveries listeners) pubs
  /\ stores evs = []
  /\ warnings evs = [].

(** [r'] is [r] after a stretch of parsing that published [pubs]. *)
Definition grows (r r' : Mk2PVRouter) (pubs : list (str * str)) : Prop :=
  same_frame r r'
  /\ exists evs, trace r' = trace r ++ evs
                 /\ publishes (mk2pvrouter_listeners_ r) evs pubs.

(** An event that is neither a publication, a delivery, a store nor a
    warning. *)
Definition quiet (e : event) : bool :=
  match e with
  | EvScan _ _ | EvVerify _ _ | EvCrcRead _ _ | EvLogE _ => true
  | _ => false
  end.

(** The end of a frame buffer: nothing, or a line feed that no carriage
    return follows. *)
Definition dangling (tail : list Z) : Prop :=
  tail = [] \/ exists rest, tail = LINE_FEED :: rest /\ ~ In CARRIAGE_RETURN rest.

(** The bytes of a record and the bytes between records respect the
    delimiters. *)
Definition delimited (rec : list Z * list Z) : Prop :=
  ~ In LINE_FEED (fst rec) /\ ~ In CARRIAGE_RETURN (fst rec)
  /\ ~ In LINE_FEED (snd rec).

(** A frame buffer made of records back to back. *)
Definition frame_of (bodies : list (list Z)) : list Z :=
  flat_map record_bytes bodies.

(** The router has received the end-of-frame marker and [frame] is what the
    reader accumulated: the bytes below the fill length.  Nothing is said
    about the bytes from the fill length on. *)
Definition frame_received (r : Mk2PVRouter) (frame : list Z) : Prop :=
  state_ r = END_FRAME_RECEIVED
  /\ holds (buf_ r) 0 frame
  /\ buf_index_ r = Z.of_nat (length frame)
  /\ buf_index_ r < MAX_BUF_SIZE
  /\ 0 <= checksum_area_end_ r
  /\ length (tag_ r) = Z.to_nat MAX_TAG_SIZE
  /\ length (val_ r) = Z.to_nat MAX_VAL_SIZE.

(** A record body is free of the record delimiters. *)
Definition body_delimited (body : list Z) : Prop :=
  ~ In LINE_FEED body /\ ~ In CARRIAGE_RETURN body.

(** A field as the protocol sends it: text without NUL and without the
    delimiters. *)
Definition text_field (s : str) : Prop :=
  ~ In 0 s /\ ~ In TAB s /\ ~ In LINE_FEED s /\ ~ In CARRIAGE_RETURN s.

(** A record on the wire with its three fields, well formed. *)
Definition wire_record : Type := str * str * Z.

Definition wire_body (w : wire_record) : list Z :=
  let '(tag, val, crc) := w in record_body tag val crc.

Definition well_formed (w : wire_record) : Prop :=
  let '(tag, val, crc) := w in
  text_field tag /\ text_field val
  /\ crc <> LINE_FEED /\ crc <> CARRIAGE_RETURN.

(** Valid checksum, tag and value non-empty and shorter than the maximum. *)
Definition valid_record (k : Z) (w : wire_record) : bool :=
  let '(tag, val, crc) := w in
  record_crc_ok k (record_body tag val crc)
  && field_len_ok (length tag) MAX_TAG_SIZE
  && field_len_ok (length val) MAX_VAL_SIZE.

Definition measurement_of (w : wire_record) : str * str :=
  let '(tag, val, _) := w in (tag, val).

(** The three record-local failures. *)
Definition checksum_mismatch (k : Z) (body : list Z) : Prop :=
  record_crc_ok k body = false.

Definition missing_delimiter (body : list Z) : Prop :=
  index_of TAB body = None
  \/ exists tag_len, index_of TAB body = Some tag_len
                     /\ index_of TAB (skipn (S tag_len) body) = None.

Definition field_too_long (body : list Z) : Prop :=
  (exists tag_len, index_of TAB body = Some tag_len
                   /\ MAX_TAG_SIZE <= Z.of_nat tag_len)
  \/ exists tag_len val_len,
       index_of TAB body = Some tag_len
       /\ index_of TAB (skipn (S tag_len) body) = Some val_len
       /\ MAX_VAL_SIZE <= Z.of_nat val_len.

(** An empty tag or an empty value. *)
Definition empty_field (body : list Z) : Prop :=
  index_of TAB body = Some O
  \/ exists tag_len, index_of TAB body = Some tag_len
                     /\ index_of TAB (skipn (S tag_len) body) = Some O.

(** [n] calls of [loop] in a row. *)
Fixpoint loops (n : nat) (r : Mk2PVRouter) : Mk2PVRouter :=
  match n with
  | O => r
  | S n' => loops n' (loop r)
  end.

(** *** Concrete routers *)

(** A router that has just received the end-of-frame marker: [frame] below
    the fill length, [stale] bytes of earlier frames behind it. *)
Definition router_with_frame (listeners : list str) (frame stale : list Z)
  : Mk2PVRouter :=
  set_state END_FRAME_RECEIVED
    (set_buf_index (Z.of_nat (length frame))
       (set_listeners listeners
          (Mk2PVRouter_new (mem_of (frame ++ stale))
             (repeat 0 16) (repeat 0 16) []))).

(** "TAG1", "VAL1", "TAG2", "VAL2" and the checksums of the two records. *)
Definition TAG1 : str := [84; 65; 71; 49].
Definition VAL1 : str := [86; 65; 76; 49].
Definition TAG2 : str := [84; 65; 71; 50].
Definition VAL2 : str := [86; 65; 76; 50].
Definition CRC1 : Z := 83.
Definition CRC2 : Z := 85.

Definition demo_listeners : list str := [TAG2; TAG1; [116; 97; 103; 49]; TAG1].

Definition demo_records : list wire_record :=
  [(TAG1, VAL1, CRC1); (TAG2, VAL2, CRC2)].

(** The two records, with a stale record of an earlier frame behind. *)
Definition demo_router : Mk2PVRouter :=
  router_with_frame demo_listeners
    (frame_of (map wire_body demo_records))
    (record_bytes (record_body TAG1 VAL2 84)).

(** A record with a wrong checksum, a valid record, then a line feed that
    no carriage return follows. *)
Definition broken_bodies : list (list Z) :=
  [record_body TAG1 VAL1 84; record_body TAG2 VAL2 CRC2].

Definition broken_router : Mk2PVRouter :=
  router_with_frame demo_listeners
    (frame_of broken_bodies ++ LINE_FEED :: record_body TAG1 VAL1 CRC1)
    [].

(** A record with an empty tag, a record with an empty value, a valid
    record. *)
Definition empty_field_bodies : list (list Z) :=
  [ [9; 86; 9; 72]; [84; 9; 9; 70]; record_body TAG2 VAL2 CRC2 ].

Definition empty_field_router : Mk2PVRouter :=
  router_with_frame demo_listeners (frame_of empty_field_bodies) [].

(** A record with a wrong checksum between two valid records. *)
Definition skipped_router : Mk2PVRouter :=
  router_with_frame demo_listeners
    (frame_of ([record_body TAG1 VAL1 CRC1]
                 ++ record_body TAG1 VAL1 84 :: [record_body TAG2 VAL2 CRC2]))
    [].

(** A frame with nothing but a line feed that no carriage return follows. *)
Definition dangling_router : Mk2PVRouter :=
  router_with_frame demo_listeners [88; 10; 65; 66] [].

(** *** Whole runs

    The component as the host drives it: construction, registration of the
    listeners, [setup], then [update] and [loop] calls, with the stream
    pending on the UART.  The memory starts zeroed. *)
Definition power_on (listeners : list str) (rx : list Z) : Mk2PVRouter :=
  setup (fold_left (fun r t => register_mk2pvrouter_listener t r) listeners
           (Mk2PVRouter_new (fun _ => 0) (repeat 0 16) (repeat 0 16) rx)).

(** Start marker, the two records, end marker. *)
Definition two_records_stream : list Z :=
  [START_FRAME] ++ frame_of (map wire_body demo_records) ++ [END_FRAME].

(** After the trigger and two calls of [loop] the frame is in the buffer. *)
Definition two_records_received : Mk2PVRouter :=
  loops 2 (update (power_on demo_listeners two_records_stream)).

(** The same stream followed by an empty frame: start marker, end marker.
    Three calls of [loop] handle the first frame, the next trigger and two
    calls receive the second. *)
Definition empty_frame_received : Mk2PVRouter :=
  loops 2 (update (loops 3 (update (power_on demo_listeners
                                      (two_records_stream
                                         ++ [START_FRAME; END_FRAME]))))).

(** A frame with an empty record: line feed, carriage return. *)
Definition empty_record_received : Mk2PVRouter :=
  loops 2 (update (power_on demo_listeners
                     [START_FRAME; LINE_FEED; CARRIAGE_RETURN; END_FRAME])).

(** *** What a call of the frame reader does *)

(** The stores that append the bytes [bs] from index [i] on. *)
Fixpoint store_events (i : Z) (bs : list Z) : list (Z * Z) :=
  match bs with
  | [] => []
  | b :: bs' => (i, b) :: store_events (i + 1) bs'
  end.

(** The reader only stores into the buffer and warns. *)
Definition reader_event (e : event) : bool :=
  match e with
  | EvStore _ _ | EvLogW _ => true
  | _ => false
  end.

(** The reader leaves the listeners, the configuration and the field arrays
    alone. *)
Definition same_config (r r' : Mk2PVRouter) : Prop :=
  mk2pvrouter_listeners_ r' = mk2pvrouter_listeners_ r
  /\ baud_rate_ r' = baud_rate_ r
  /\ checksum_area_end_ r' = checksum_area_end_ r
  /\ tag_ r' = tag_ r
  /\ val_ r' = val_ r.

(** The bytes [bs] were appended to the buffer (or dropped, in drop mode). *)
Definition appended (drop : bool) (bs : list Z) (r r' : Mk2PVRouter)
           (evs : list event) : Prop :=
  stores evs = (if drop then [] else store_events (buf_index_ r) bs)
  /\ buf_index_ r'
     = (if drop then buf_index_ r else buf_index_ r + Z.of_nat (length bs))
  /\ (drop = false -> bs <> [] ->
      buf_index_ r + Z.of_nat (length bs) <= MAX_BUF_SIZE - 1).

(** The three ways a call of [read_chars_until_] ends. *)
Definition read_found (drop : bool) (c : Z) (r r' : Mk2PVRouter)
           (consumed : list Z) (evs : list event) : Prop :=
  exists before,
    consumed = before ++ [c] /\ ~ In c before
    /\ state_ r' = state_ r /\ warnings evs = []
    /\ appended drop before r r' evs.

Definition read_exhausted (drop : bool) (c : Z) (budget : Z)
           (r r' : Mk2PVRouter) (consumed : list Z) (evs : list event) : Prop :=
  ~ In c consumed
  /\ state_ r' = state_ r /\ warnings evs = []
  /\ (Z.of_nat (length consumed) = budget \/ uart_rx r' = [])
  /\ appended drop consumed r r' evs.

Definition read_overflow (drop : bool) (c : Z) (r r' : Mk2PVRouter)
           (consumed : list Z) (evs : list event) : Prop :=
  drop = false
  /\ exists before x,
       consumed = before ++ [x] /\ ~ In c consumed
       /\ state_ r' = OFF /\ warnings evs = [INTERNAL_BUFFER_FULL]
       /\ appended false before r r' evs
       /\ MAX_BUF_SIZE - 1 <= buf_index_ r'.

(** *** Runs of the component *)

(** What the host does with the component, and the UART receiving bytes. *)
Inductive step : Mk2PVRouter -> Mk2PVRouter -> Prop :=
| step_setup r : step r (setup r)
| step_update r : step r (update r)
| step_loop r : step r (loop r)
| step_register listener_tag r :
    step r (register_mk2pvrouter_listener listener_tag r)
| step_receive received r :
    step r (set_uart_rx (uart_rx r ++ received) r).

Inductive reachable : Mk2PVRouter -> Prop :=
| reachable_new buf0 tag0 val0 rx :
    reachable (Mk2PVRouter_new buf0 tag0 val0 rx)
| reachable_step r r' : reachable r -> step r r' -> reachable r'.

(** A store into [buf_] inside the array. *)
Definition store_in_bounds (s : Z * Z) : Prop := 0 <= fst s < MAX_BUF_SIZE.

(** A router waiting for the end-of-frame marker with bytes pending. *)
Definition reader_router (fill : Z) (rx : list Z) : Mk2PVRouter :=
  set_state START_FRAME_RECEIVED
    (set_buf_index fill (Mk2PVRouter_new (mem_of []) (repeat 0 16) (repeat 0 16) rx)).

(** *** Bytes behind the fill length *)

(** The trace without the ranges the record scan examined. *)
Definition observe (t : list event) : list event :=
  filter (fun e => match e with EvScan _ _ => false | _ => true end) t.

(** Two routers that differ at most in the bytes of [buf_] from the fill
    length on, and in the ranges examined so far. *)
Definition alike (r1 r2 : Mk2PVRouter) : Prop :=
  mk2pvrouter_listeners_ r1 = mk2pvrouter_listeners_ r2
  /\ baud_rate_ r1 = baud_rate_ r2
  /\ checksum_area_end_ r1 = checksum_area_end_ r2
  /\ buf_index_ r1 = buf_index_ r2
  /\ tag_ r1 = tag_ r2
  /\ val_ r1 = val_ r2
  /\ state_ r1 = state_ r2
  /\ uart_rx r1 = uart_rx r2
  /\ (forall i, 0 <= i < buf_index_ r1 -> buf_ r1 i = buf_ r2 i)
  /\ observe (trace r1) = observe (trace r2).

(** *** Schedules

    The host calls [loop] and [update] in any order while the UART receives
    the stream in pieces. *)
Inductive action :=
| Receive (received : list Z)
| Loop
| Update.

Definition act (a : action) (r : Mk2PVRouter) : Mk2PVRouter :=
  match a with
  | Receive received => set_uart_rx (uart_rx r ++ received) r
  | Loop => loop r
  | Update => update r
  end.

Fixpoint run (sched : list action) (r : Mk2PVRouter) : Mk2PVRouter :=
  match sched with
  | [] => r
  | a :: sched' => run sched' (act a r)
  end.

(** The bytes a schedule delivers, in order. *)
Definition arrivals (sched : list action) : list Z :=
  flat_map (fun a => match a with Receive received => received | _ => [] end)
           sched.

(** The router is on its way through a frame that does not fit: in state ON
    in front of the start marker, or in state START_FRAME_RECEIVED with more
    bytes to come before any end marker than the buffer has room for.
    [future] is what the UART has yet to receive. *)
Definition receiving (body rest : list Z) (r : Mk2PVRouter)
           (future : list Z) : Prop :=
  0 <= buf_index_ r <= MAX_BUF_SIZE - 1
  /\ ((state_ r = ON
       /\ exists noise,
            uart_rx r ++ future = noise ++ START_FRAME :: body ++ rest
            /\ ~ In START_FRAME noise)
      \/ (state_ r = START_FRAME_RECEIVED
          /\ exists body',
               uart_rx r ++ future = body' ++ rest
               /\ ~ In END_FRAME body'
               /\ MAX_BUF_SIZE - 1 < buf_index_ r + Z.of_nat (length body'))).

(** From [r0] to [r'] the component only read bytes; no warning. *)
Definition only_read (r0 r' : Mk2PVRouter) : Prop :=
  exists evs, trace r' = trace r0 ++ evs
              /\ Forall (fun e => reader_event e = true) evs
              /\ warnings evs = [].

(** From [r0] to [r'] the component only read bytes, until the buffer was
    full: one warning, state OFF. *)
Definition aborted (r0 r' : Mk2PVRouter) : Prop :=
  state_ r' = OFF
  /\ exists evs, trace r' = trace r0 ++ evs
                 /\ Forall (fun e => reader_event e = true) evs
                 /\ warnings evs = [INTERNAL_BUFFER_FULL].

(** A router after the periodic trigger and a schedule that delivers, in
    three pieces, two bytes of noise, a start marker, 1100 bytes without an
    end marker, and an end marker. *)
Definition overflow_router : Mk2PVRouter := update (power_on demo_listeners []).

Definition overflow_schedule : list action :=
  [Receive [7; 8; START_FRAME]; Loop; Receive (repeat 65 600); Loop; Update;
   Loop; Receive (repeat 65 500 ++ [END_FRAME]); Loop].

(** ** Notions for the further properties *)

(** The memory after the stores [ss], made in that order. *)
Fixpoint replay (ss : list (Z * Z)) (mem : Z -> Z) : Z -> Z :=
  match ss with
  | [] => mem
  | (i, b) :: ss' => replay ss' (fun a => if a =? i then b else mem a)
  end.

(** The transitions of the state machine: what one call of [loop] may do to
    [state_]. *)
Definition loop_transition (s s' : State) : Prop :=
  match s with
  | OFF => s' = OFF
  | ON => s' = ON \/ s' = START_FRAME_RECEIVED
  | START_FRAME_RECEIVED =>
      s' = START_FRAME_RECEIVED \/ s' = END_FRAME_RECEIVED \/ s' = OFF
  | END_FRAME_RECEIVED => s' = OFF
  end.

(** Any number of calls of the host and arrivals on the UART. *)
Inductive steps : Mk2PVRouter -> Mk2PVRouter -> Prop :=
| steps_refl r : steps r r
| steps_step r r' r'' : steps r r' -> step r' r'' -> steps r r''.

(** A published string: a C string shorter than [max], without the field
    separator and without the record terminator. *)
Definition field_text (max : Z) (s : str) : Prop :=
  Z.of_nat (length s) < max
  /\ ~ In 0 s /\ ~ In TAB s /\ ~ In CARRIAGE_RETURN s.

Definition measurement_text (m : str * str) : Prop :=
  field_text MAX_TAG_SIZE (fst m) /\ field_text MAX_VAL_SIZE (snd m).

(** The field arrays have their size and every measurement published so far
    is made of two field texts. *)
Definition fields_kept (r : Mk2PVRouter) : Prop :=
  MAX_TAG_SIZE <= Z.of_nat (length (tag_ r))
  /\ MAX_VAL_SIZE <= Z.of_nat (length (val_ r))
  /\ Forall measurement_text (published (trace r)).

(** *** Polling cycles

    One cycle on the wire: bytes in front of the start marker, then the
    frame with its records between the two markers. *)
Definition cycle : Type := list Z * list wire_record.

Definition cycle_frame (c : cycle) : list Z := frame_of (map wire_body (snd c)).

Definition cycle_stream (c : cycle) : list Z :=
  fst c ++ START_FRAME :: cycle_frame c ++ [END_FRAME].

Definition cycle_ok (c : cycle) : Prop :=
  ~ In START_FRAME (fst c)
  /\ Forall well_formed (snd c)
  /\ ~ In END_FRAME (cycle_frame c)
  /\ Z.of_nat (length (cycle_frame c)) <= MAX_BUF_SIZE - 1.

(** What a cycle has to publish: its valid records, in order. *)
Definition cycle_measurements (k : Z) (c : cycle) : list (str * str) :=
  map measurement_of (filter (valid_record k) (snd c)).

(** The host's calls for polling cycles of [ns] calls of [loop] each, every
    cycle started by [update]. *)
Definition polling (ns : list nat) : list action :=
  flat_map (fun n => Update :: repeat Loop n) ns.

(** Noise, the two records, and the same frame again with a corrupted second
    record. *)
Definition demo_cycles : list cycle :=
  [([7; 8], demo_records); ([], [(TAG1, VAL1, CRC1); (TAG2, VAL2, 86)])].

(** *** A frame that arrives in pieces

    The router is on its way through the frame [frame]: in state ON in front
    of the start marker, or in state START_FRAME_RECEIVED with the first
    part of the frame in the buffer.  [future] is what the UART has yet to
    receive. *)
Definition assembling (frame rest : list Z) (r : Mk2PVRouter)
           (future : list Z) : Prop :=
  (state_ r = ON /\ buf_index_ r = 0
   /\ exists noise,
        uart_rx r ++ future = noise ++ START_FRAME :: frame ++ END_FRAME :: rest
        /\ ~ In START_FRAME noise)
  \/ (state_ r = START_FRAME_RECEIVED
      /\ exists stored todo,
           frame = stored ++ todo
           /\ holds (buf_ r) 0 stored
           /\ buf_index_ r = Z.of_nat (length stored)
           /\ uart_rx r ++ future = todo ++ END_FRAME :: rest).

(** The frame is in the buffer, the end marker read. *)
Definition assembled (frame rest : list Z) (r : Mk2PVRouter)
           (future : list Z) : Prop :=
  state_ r = END_FRAME_RECEIVED
  /\ holds (buf_ r) 0 frame
  /\ buf_index_ r = Z.of_nat (length frame)
  /\ uart_rx r ++ future = rest.

(** From [r0] to [r] the component only read, and left the listeners, the
    configuration and the field arrays alone. *)
Definition kept (r0 r : Mk2PVRouter) : Prop :=
  same_config r0 r /\ only_read r0 r.

(** The two records arrive in three pieces, the first call of [loop] finds
    nothing to read. *)
Definition pieces_schedule : list action :=
  [Loop; Receive [7; START_FRAME; LINE_FEED; 84; 65]; Loop; Update;
   Receive (skipn 3 (frame_of (map wire_body demo_records))); Loop;
   Receive [END_FRAME; 9]].

(** *** The record scan, read as a function on the list of buffer bytes

    How far the cursor moves from the start of a record: not at all when the
    checksum or the tag is refused, behind the tag when the value is
    refused, behind tag, value, checksum and terminator when the record is
    published. *)
Definition record_advance (k : Z) (body : list Z) : nat :=
  if record_crc_ok k body then
    match index_of TAB body with
    | Some tag_len =>
        if field_len_ok tag_len MAX_TAG_SIZE then
          match index_of TAB (skipn (S tag_len) body) with
          | Some val_len =>
              if field_len_ok val_len MAX_VAL_SIZE then
                (S tag_len + val_len + 3)%nat
              else S tag_len
          | None => S tag_len
          end
        else O
    | None => O
    end
  else O.

(** The scan from cursor [f]: the next line feed, the bytes up to the next
    carriage return as a record, and on from where the cursor is left. *)
Fixpoint decode_frame (fuel : nat) (k : Z) (frame : list Z) (f : nat)
  : list (str * str) :=
  match fuel with
  | O => []
  | S fuel' =>
      match index_of LINE_FEED (skipn f frame) with
      | None => []
      | Some gap_len =>
          let s := (f + gap_len + 1)%nat in
          match index_of CARRIAGE_RETURN (skipn s frame) with
          | None => []
          | Some body_len =>
              let body := firstn body_len (skipn s frame) in
              decode_record k body
                ++ decode_frame fuel' k frame (s + record_advance k body)
          end
      end
  end.

(** A frame buffer with line feeds inside a record and bytes behind the
    checksum: one refused record, then one that is published. *)
Definition ragged_frame : list Z :=
  [LINE_FEED; 88; LINE_FEED] ++ record_body TAG1 VAL1 CRC1
    ++ [CARRIAGE_RETURN; 89].

(** *** How far the record scan reads

    A search that starts at the cursor [fst s], at most at the fill length,
    and examines the bytes up to [snd s]: fewer than the fill length. *)
Definition scan_in (fill : Z) (s : Z * Z) : Prop :=
  0 <= fst s <= snd s /\ fst s <= fill /\ snd s <= fst s + (fill - 1).

(** A read of the verifier inside the frame. *)
Definition crc_read_in (fill : Z) (c : Z * Z) : Prop :=
  0 <= fst c <= snd c /\ snd c <= fill.

Definition read_in (fill : Z) (e : event) : Prop :=
  match e with
  | EvScan lo hi => scan_in fill (lo, hi)
  | EvCrcRead lo hi => crc_read_in fill (lo, hi)
  | _ => True
  end.

(** From [r0] to [r] every search and every read of the verifier was as
    above. *)
Definition reads_within (fill : Z) (r0 r : Mk2PVRouter) : Prop :=
  exists evs, trace r = trace r0 ++ evs /\ Forall (read_in fill) evs.

(** * Properties *)

(** ** Reading the trace *)

Section TraceLemmas.

Lemma published_app t1 t2 : published (t1 ++ t2) = published t1 ++ published t2.
Proof. apply flat_map_app. Qed.

Lemma delivered_app t1 t2 : delivered (t1 ++ t2) = delivered t1 ++ delivered t2.
Proof. apply flat_map_app. Qed.

Lemma stores_app t1 t2 : stores (t1 ++ t2) = stores t1 ++ stores t2.
Proof. apply flat_map_app. Qed.

Lemma scans_app t1 t2 : scans (t1 ++ t2) = scans t1 ++ scans t2.
Proof. apply flat_map_app. Qed.

Lemma verified_app t1 t2 : verified (t1 ++ t2) = verified t1 ++ verified t2.
Proof. apply flat_map_app. Qed.

Lemma crc_reads_app t1 t2 : crc_reads (t1 ++ t2) = crc_reads t1 ++ crc_reads t2.
Proof. apply flat_map_app. Qed.

Lemma warnings_app t1 t2 : warnings (t1 ++ t2) = warnings t1 ++ warnings t2.
Proof. apply flat_map_app. Qed.

Lemma errors_app t1 t2 : errors (t1 ++ t2) = errors t1 ++ errors t2.
Proof. apply flat_map_app. Qed.

End TraceLemmas.

Create Rewrite HintDb trace.
#[local] Hint Rewrite published_app delivered_app stores_app scans_app
  verified_app crc_reads_app warnings_app errors_app app_nil_r : trace.

(** ** memchr *)

Lemma memchr_from_Some mem c n : forall s p,
  memchr_from mem c s n = Some p ->
  s <= p < s + Z.of_nat n /\ mem p = c /\ (forall i, s <= i < p -> mem i <> c).
Proof.
  induction n as [|n IH]; intros s p H; simpl in H; [discriminate|].
  destruct (mem s =? c) eqn:E.
  - inversion H; subst p. apply Z.eqb_eq in E. repeat split; lia.
  - apply IH in H. destruct H as (Hr & Hp & Hb). apply Z.eqb_neq in E.
    repeat split; try lia; try assumption.
    intros i Hi. destruct (Z.eq_dec i s) as [->|Hne]; [assumption|].
    apply Hb; lia.
Qed.

Lemma memchr_from_None mem c n : forall s,
  memchr_from mem c s n = None ->
  forall i, s <= i < s + Z.of_nat n -> mem i <> c.
Proof.
  induction n as [|n IH]; intros s H i Hi; simpl in H; [lia|].
  destruct (mem s =? c) eqn:E; [discriminate|].
  apply Z.eqb_neq in E.
  destruct (Z.eq_dec i s) as [->|Hne]; [assumption|].
  apply (IH (s + 1)); [assumption|lia].
Qed.

Lemma memchr_from_first mem c n : forall s p,
  s <= p < s + Z.of_nat n -> mem p = c ->
  (forall i, s <= i < p -> mem i <> c) ->
  memchr_from mem c s n = Some p.
Proof.
  induction n as [|n IH]; intros s p Hr Hp Hb; [lia|]. simpl.
  destruct (mem s =? c) eqn:E.
  - apply Z.eqb_eq in E. destruct (Z.eq_dec p s) as [->|Hne]; [reflexivity|].
    exfalso. apply (Hb s); [lia|assumption].
  - apply Z.eqb_neq in E. apply IH; try assumption.
    + destruct (Z.eq_dec p s) as [->|Hne]; [contradiction|lia].
    + intros i Hi; apply Hb; lia.
Qed.

Lemma memchr_Some mem s c n p :
  memchr mem s c n = Some p ->
  s <= p < s + n /\ mem p = c /\ (forall i, s <= i < p -> mem i <> c).
Proof.
  unfold memchr; intros H. apply memchr_from_Some in H.
  destruct H as (Hr & Hp & Hb). repeat split; try assumption; lia.
Qed.

Lemma memchr_None mem s c n :
  memchr mem s c n = None -> forall i, s <= i < s + n -> mem i <> c.
Proof.
  unfold memchr; intros H i Hi. apply (memchr_from_None _ _ _ _ H). lia.
Qed.

Lemma memchr_first mem s c n p :
  s <= p < s + n -> mem p = c -> (forall i, s <= i < p -> mem i <> c) ->
  memchr mem s c n = Some p.
Proof.
  unfold memchr; intros Hr Hp Hb. apply memchr_from_first; try assumption. lia.
Qed.

Lemma memchr_absent mem s c n :
  (forall i, s <= i < s + n -> mem i <> c) -> memchr mem s c n = None.
Proof.
  intros H. destruct (memchr mem s c n) as [p|] eqn:E; [|reflexivity].
  apply memchr_Some in E. destruct E as (Hr & Hp & _).
  exfalso. apply (H p); assumption.
Qed.

(** ** The checksum *)

Lemma bytes_length mem s n : length (bytes mem s n) = n.
Proof. unfold bytes. rewrite length_map, length_seq. reflexivity. Qed.

Lemma bytes_S mem s n :
  bytes mem s (S n) = mem s :: bytes mem (s + 1) n.
Proof.
  unfold bytes. simpl. rewrite Z.add_0_r. f_equal.
  rewrite <- seq_shift, map_map. apply map_ext. intros j. f_equal. lia.
Qed.

Lemma crc_sum_spec mem grp count : forall i acc,
  crc_sum mem grp i count acc mod 256
  = (acc + zsum (bytes mem (grp + i) count)) mod 256.
Proof.
  induction count as [|count IH]; intros i acc.
  - simpl. rewrite Z.add_0_r. reflexivity.
  - simpl crc_sum. rewrite IH, bytes_S. simpl zsum.
    replace (grp + (i + 1)) with (grp + i + 1) by lia.
    rewrite Zplus_mod, Zmod_mod, <- Zplus_mod. f_equal. lia.
Qed.

Lemma crc_sum_range mem grp count : forall i acc,
  0 <= acc < 256 -> 0 <= crc_sum mem grp i count acc < 256.
Proof.
  induction count as [|count IH]; intros i acc H; simpl; [assumption|].
  apply IH. apply Z.mod_pos_bound. lia.
Qed.

Lemma calculate_crc_spec r grp grp_len :
  calculate_crc_ r grp grp_len
  = zsum (bytes (buf_ r) grp (Z.to_nat (grp_len - checksum_area_end_ r)))
      mod 64 + 0x20.
Proof.
  unfold calculate_crc_.
  set (n := Z.to_nat (grp_len - checksum_area_end_ r)).
  change 0x3F with (Z.ones 6). rewrite Z.land_ones by lia.
  pose proof (crc_sum_range (buf_ r) grp n 0 0 ltac:(lia)) as Hr.
  pose proof (crc_sum_spec (buf_ r) grp n 0 0) as Hs.
  rewrite (Z.mod_small _ 256) in Hs by assumption.
  rewrite Hs. rewrite Z.add_0_r. simpl (0 + _).
  change (2 ^ 6) with 64.
  rewrite Z.mod_mod_divide by (exists 4; lia).
  pose proof (Z.mod_pos_bound
                (zsum (bytes (buf_ r) grp n)) 64 ltac:(lia)).
  rewrite Z.mod_small by lia. reflexivity.
Qed.

Lemma calculate_crc_range r grp grp_len :
  0x20 <= calculate_crc_ r grp grp_len < 0x60.
Proof.
  rewrite calculate_crc_spec.
  pose proof (Z.mod_pos_bound
    (zsum (bytes (buf_ r) grp (Z.to_nat (grp_len - checksum_area_end_ r))))
    64 ltac:(lia)).
  lia.
Qed.

Lemma calculate_crc_emit e r grp n :
  calculate_crc_ (emit e r) grp n = calculate_crc_ r grp n.
Proof. reflexivity. Qed.

Lemma check_crc_fst r grp grp_end :
  fst (check_crc_ r grp grp_end)
  = (buf_ r (grp + (grp_end - grp - 1)) =? calculate_crc_ r grp (grp_end - grp)).
Proof.
  unfold check_crc_. cbn [buf_ emit checksum_area_end_].
  rewrite calculate_crc_emit.
  destruct (buf_ r (grp + (grp_end - grp - 1)) =? _); reflexivity.
Qed.

(** ** Memory that holds a list of bytes *)

Lemma holds_mem_of l : holds (mem_of l) 0 l.
Proof.
  intros i Hi. unfold mem_of.
  destruct (0 + Z.of_nat i <? 0) eqn:E; [apply Z.ltb_lt in E; lia|].
  rewrite Z.add_0_l, Nat2Z.id. reflexivity.
Qed.

Lemma holds_app mem s l1 l2 :
  holds mem s (l1 ++ l2) <->
  holds mem s l1 /\ holds mem (s + Z.of_nat (length l1)) l2.
Proof.
  unfold holds; split.
  - intros H; split; intros i Hi.
    + rewrite H by (rewrite length_app; lia). apply app_nth1; assumption.
    + replace (s + Z.of_nat (length l1) + Z.of_nat i)
        with (s + Z.of_nat (length l1 + i)) by lia.
      rewrite H by (rewrite length_app; lia).
      rewrite app_nth2 by lia. f_equal. lia.
  - intros [H1 H2] i Hi. rewrite length_app in Hi.
    destruct (Nat.lt_ge_cases i (length l1)) as [Hlt|Hge].
    + rewrite app_nth1 by assumption. apply H1; assumption.
    + rewrite app_nth2 by assumption.
      rewrite <- H2 by lia. f_equal. lia.
Qed.

Lemma holds_cons mem s x l :
  holds mem s (x :: l) <-> mem s = x /\ holds mem (s + 1) l.
Proof.
  change (x :: l) with ([x] ++ l). rewrite holds_app. simpl length.
  split; intros [H1 H2]; split; try assumption.
  - specialize (H1 O ltac:(simpl; lia)). simpl in H1.
    rewrite Z.add_0_r in H1. assumption.
  - intros i Hi. destruct i; [|simpl in Hi; lia].
    simpl. rewrite Z.add_0_r. assumption.
Qed.

Lemma holds_at mem s l i :
  holds mem s l -> 0 <= i < Z.of_nat (length l) ->
  mem (s + i) = nth (Z.to_nat i) l 0.
Proof.
  intros H Hi. rewrite <- (H (Z.to_nat i)) by lia. f_equal. lia.
Qed.

Lemma holds_In mem s l i :
  holds mem s l -> 0 <= i < Z.of_nat (length l) -> In (mem (s + i)) l.
Proof.
  intros H Hi. rewrite (holds_at _ _ _ _ H Hi). apply nth_In. lia.
Qed.

Lemma holds_bytes mem s l : holds mem s l -> bytes mem s (length l) = l.
Proof.
  revert s. induction l as [|x l IH]; intros s H; [reflexivity|].
  simpl length. rewrite bytes_S. apply holds_cons in H. destruct H as [H1 H2].
  rewrite H1, IH by assumption. reflexivity.
Qed.

Lemma holds_firstn mem s l n : holds mem s l -> holds mem s (firstn n l).
Proof.
  intros H. rewrite <- (firstn_skipn n l) in H.
  apply holds_app in H. apply H.
Qed.

Lemma holds_bytes_firstn mem s l n :
  holds mem s l -> (n <= length l)%nat -> bytes mem s n = firstn n l.
Proof.
  intros H Hn. rewrite <- (holds_bytes mem s (firstn n l)).
  - rewrite length_firstn, Nat.min_l by assumption. reflexivity.
  - apply holds_firstn; assumption.
Qed.

(** ** C2 *)

(** C2.  For a span [grp, grp + n) of at least one byte and any
    checksum-area-end offset, [calculate_crc_] is the sum of the first
    [n - checksum_area_end_] bytes modulo 64, plus 0x20, and [check_crc_]
    succeeds exactly when the last byte of the span is that value.  Round
    trip: with an offset of at least one (the constructor sets 1), a record
    content followed by the checksum computed for it passes the verifier. *)
Theorem checksum_round_trip :
  (forall (r : Mk2PVRouter) (grp n : Z),
      1 <= n ->
      calculate_crc_ r grp n
      = zsum (bytes (buf_ r) grp (Z.to_nat (n - checksum_area_end_ r)))
          mod 64 + 0x20
      /\ (fst (check_crc_ r grp (grp + n)) = true
          <-> buf_ r (grp + n - 1) = calculate_crc_ r grp n))
  /\ (forall (r : Mk2PVRouter) (content : list Z) (x : Z),
         1 <= checksum_area_end_ r ->
         let n := Z.of_nat (length content) + 1 in
         let crc := calculate_crc_ (set_buf (mem_of (content ++ [x])) r) 0 n in
         fst (check_crc_ (set_buf (mem_of (content ++ [crc])) r) 0 n) = true).
Proof.
  split.
  - intros r grp n Hn. split; [apply calculate_crc_spec|].
    rewrite check_crc_fst.
    replace (grp + n - grp) with n by lia.
    replace (grp + (n - 1)) with (grp + n - 1) by lia.
    apply Z.eqb_eq.
  - intros r content x Hk n crc.
    assert (Hcrc : crc = calculate_crc_ (set_buf (mem_of (content ++ [x])) r) 0 n)
      by reflexivity.
    clearbody crc.
    rewrite check_crc_fst. apply Z.eqb_eq.
    replace (0 + (n - 0 - 1)) with (0 + Z.of_nat (length content)) by lia.
    replace (n - 0) with n by lia.
    cbn [buf_ set_buf].
    pose proof (holds_mem_of (content ++ [crc])) as Hc.
    pose proof (holds_mem_of (content ++ [x])) as Hx.
    rewrite (holds_at _ _ _ _ Hc) by (rewrite length_app; simpl; lia).
    rewrite Nat2Z.id, nth_middle.
    rewrite Hcrc at 1. rewrite !calculate_crc_spec. cbn [buf_ set_buf checksum_area_end_].
    do 2 f_equal. f_equal.
    set (m := Z.to_nat (n - checksum_area_end_ r)).
    assert (Hm : (m <= length content)%nat) by (unfold m; lia).
    rewrite (holds_bytes_firstn _ _ _ m Hc) by (rewrite length_app; simpl; lia).
    rewrite (holds_bytes_firstn _ _ _ m Hx) by (rewrite length_app; simpl; lia).
    rewrite !firstn_app.
    replace (m - length content)%nat with O by lia. reflexivity.
Qed.

Lemma checksum_round_trip_witness :
  calculate_crc_ (Mk2PVRouter_new (mem_of [65; 9; 66; 9; 53]) [] [] []) 0 5 = 53
  /\ fst (check_crc_ (Mk2PVRouter_new (mem_of [65; 9; 66; 9; 53]) [] [] []) 0 5)
     = true.
Proof.
  destruct checksum_round_trip as [Hspec Hround].
  split.
  - rewrite (proj1 (Hspec (Mk2PVRouter_new (mem_of [65; 9; 66; 9; 53]) [] [] [])
                          0 5 ltac:(lia))).
    reflexivity.
  - apply (Hround (Mk2PVRouter_new (mem_of [65; 9; 66; 9; 0]) [] [] [])
                  [65; 9; 66; 9] 0).
    simpl. lia.
Defined.

(** ** Arrays and C strings *)

Lemma poke_length i v a : length (poke i v a) = length a.
Proof.
  revert i; induction a as [|x a IH]; intros [|i]; simpl; try reflexivity.
  rewrite IH; reflexivity.
Qed.

Lemma poke_app_here l v x t : poke (length l) v (l ++ x :: t) = l ++ v :: t.
Proof. induction l as [|y l IH]; simpl; [reflexivity|]. rewrite IH; reflexivity. Qed.

Lemma poke_overwrite cp v dest :
  (length cp < length dest)%nat ->
  poke (length cp) v (overwrite dest cp) = cp ++ v :: skipn (S (length cp)) dest.
Proof.
  intros H. unfold overwrite.
  destruct (skipn (length cp) dest) as [|x t] eqn:E.
  - apply (f_equal (@length Z)) in E. rewrite length_skipn in E. simpl in E. lia.
  - rewrite poke_app_here. do 2 f_equal.
    change (S (length cp)) with (1 + length cp)%nat.
    rewrite <- skipn_skipn, E. reflexivity.
Qed.

Lemma strncpy_bytes_length mem n : forall s, length (strncpy_bytes mem s n) = n.
Proof.
  induction n as [|n IH]; intros s; [reflexivity|].
  simpl strncpy_bytes. destruct (mem s =? 0).
  - simpl. rewrite repeat_length. reflexivity.
  - simpl. rewrite IH. reflexivity.
Qed.

Lemma c_str_app_nul l t : c_str (l ++ 0 :: t) = c_str l.
Proof.
  induction l as [|x l IH]; simpl; [reflexivity|].
  destruct (x =? 0); [reflexivity|]. rewrite IH; reflexivity.
Qed.

Lemma c_str_no_nul l : ~ In 0 l -> c_str l = l.
Proof.
  induction l as [|x l IH]; intros H; simpl; [reflexivity|].
  destruct (x =? 0) eqn:E.
  - apply Z.eqb_eq in E. exfalso. apply H. left. assumption.
  - rewrite IH; [reflexivity|]. intros Hin. apply H. right. assumption.
Qed.

(** What [strncpy] writes: the source up to its first NUL, then NULs. *)
Lemma strncpy_bytes_spec mem n : forall s,
  strncpy_bytes mem s n
  = c_str (bytes mem s n)
      ++ repeat 0 (n - length (c_str (bytes mem s n))).
Proof.
  induction n as [|n IH]; intros s; [reflexivity|].
  rewrite bytes_S. simpl strncpy_bytes. simpl c_str.
  destruct (mem s =? 0).
  - reflexivity.
  - rewrite IH. reflexivity.
Qed.

Lemma strncpy_bytes_no_nul mem s n :
  ~ In 0 (bytes mem s n) -> strncpy_bytes mem s n = bytes mem s n.
Proof.
  intros H. rewrite strncpy_bytes_spec, c_str_no_nul by assumption.
  rewrite bytes_length, Nat.sub_diag, app_nil_r. reflexivity.
Qed.

Lemma c_str_strncpy_bytes mem s n t :
  c_str (strncpy_bytes mem s n ++ 0 :: t) = c_str (bytes mem s n).
Proof.
  rewrite c_str_app_nul, strncpy_bytes_spec.
  set (f := bytes mem s n). clearbody f.
  induction f as [|x f IH]; simpl.
  - destruct (n - 0)%nat; reflexivity.
  - destruct (x =? 0) eqn:E.
    + simpl. destruct (n - 0)%nat; reflexivity.
    + simpl. rewrite E.
      f_equal.
      assert (G : forall k, c_str (c_str f ++ repeat 0 k) = c_str f).
      { clear. intros k. induction f as [|y f IH]; simpl.
        - destruct k; reflexivity.
        - destruct (y =? 0) eqn:E; simpl.
          + destruct k; reflexivity.
          + rewrite E, IH. reflexivity. }
      apply G.
Qed.

(** ** get_field *)

Lemma get_field_no_tab mem dest s e m :
  memchr mem s TAB (e - s) = None -> get_field mem dest s e m = (0, dest).
Proof. unfold get_field. intros ->. reflexivity. Qed.

Lemma get_field_too_long mem dest s e m p :
  memchr mem s TAB (e - s) = Some p -> m <= p - s ->
  get_field mem dest s e m = (p - s, dest).
Proof.
  unfold get_field. intros -> H.
  destruct (p - s >=? m) eqn:E; [reflexivity|].
  rewrite Z.geb_leb in E. apply Z.leb_gt in E. lia.
Qed.

Lemma get_field_fits mem dest s e m p :
  memchr mem s TAB (e - s) = Some p ->
  0 <= p - s < m -> m <= Z.of_nat (length dest) ->
  get_field mem dest s e m
  = (p - s, strncpy_bytes mem s (Z.to_nat (p - s))
              ++ 0 :: skipn (S (Z.to_nat (p - s))) dest).
Proof.
  unfold get_field. intros -> Hp Hm.
  destruct (p - s >=? m) eqn:E.
  - rewrite Z.geb_leb in E. apply Z.leb_le in E. lia.
  - f_equal. unfold strncpy.
    pose proof (strncpy_bytes_length mem (Z.to_nat (p - s)) s) as Hl.
    rewrite <- Hl at 1. rewrite poke_overwrite by lia.
    rewrite Hl. reflexivity.
Qed.

(** ** C6 *)

(** C6, as the code has it.  On a region [s, e) with maximum length [m]:
    without a tab byte [get_field] returns 0 and leaves the destination as it
    was; with the first tab at distance [len >= m] it returns [len] and leaves
    the destination as it was; with [len < m] (and a destination of at least
    [m] bytes) it returns [len] and writes exactly [len + 1] bytes: the bytes
    of the field up to its first NUL byte, NUL bytes for the rest of the
    first [len] positions, and a terminator at index [len].  When the field
    has no NUL byte that is an exact copy of its [len] bytes followed by the
    terminator.  With [len = m - 1] the field is accepted, with [len = m]
    it is rejected and the destination untouched. *)
Theorem get_field_contract :
  forall (mem : Z -> Z) (dest : list Z) (s e m : Z),
    s <= e ->
    ((forall i, s <= i < e -> mem i <> TAB) ->
     get_field mem dest s e m = (0, dest))
    /\ (forall len,
           0 <= len < e - s ->
           mem (s + len) = TAB ->
           (forall i, s <= i < s + len -> mem i <> TAB) ->
           (m <= len -> get_field mem dest s e m = (len, dest))
           /\ (len < m <= Z.of_nat (length dest) ->
               let field := bytes mem s (Z.to_nat len) in
               let text := c_str field in
               get_field mem dest s e m
               = (len, text ++ repeat 0 (Z.to_nat len - length text)
                            ++ 0 :: skipn (S (Z.to_nat len)) dest)
               /\ (~ In 0 field ->
                   get_field mem dest s e m
                   = (len, field ++ 0 :: skipn (S (Z.to_nat len)) dest)))).
Proof.
  intros mem dest s e m Hse. split.
  - intros Hno. apply get_field_no_tab. apply memchr_absent.
    intros i Hi. apply Hno. lia.
  - intros len Hlen Htab Hfirst.
    assert (Hfound : memchr mem s TAB (e - s) = Some (s + len)).
    { apply memchr_first; try assumption. lia. }
    split.
    + intros Hm. rewrite (get_field_too_long _ _ _ _ _ _ Hfound) by lia.
      f_equal. lia.
    + intros Hm field text.
      assert (Hget : get_field mem dest s e m
                     = (len, strncpy_bytes mem s (Z.to_nat len)
                               ++ 0 :: skipn (S (Z.to_nat len)) dest)).
      { rewrite (get_field_fits _ _ _ _ _ _ Hfound) by lia.
        replace (s + len - s) with len by lia. reflexivity. }
      split.
      * rewrite Hget, strncpy_bytes_spec, <- app_assoc. reflexivity.
      * intros Hnul. rewrite Hget, strncpy_bytes_no_nul by assumption.
        reflexivity.
Qed.

(** At the boundary: a field of 15 bytes is copied into a destination of 16
    bytes, a field of 16 bytes is rejected and the destination kept. *)
Lemma get_field_contract_witness :
  get_field (mem_of (repeat 65 15 ++ [9])) (repeat 7 16) 0 16 16
  = (15, repeat 65 15 ++ [0])
  /\ get_field (mem_of (repeat 65 16 ++ [9])) (repeat 7 16) 0 17 16
     = (16, repeat 7 16).
Proof.
  split.
  - destruct (get_field_contract (mem_of (repeat 65 15 ++ [9])) (repeat 7 16)
                0 16 16 ltac:(lia)) as [_ H].
    destruct (H 15) as [_ H15].
    + lia.
    + reflexivity.
    + intros i Hi.
      assert (Hc : i = 0 \/ i = 1 \/ i = 2 \/ i = 3 \/ i = 4 \/ i = 5 \/ i = 6
                   \/ i = 7 \/ i = 8 \/ i = 9 \/ i = 10 \/ i = 11 \/ i = 12
                   \/ i = 13 \/ i = 14) by lia.
      repeat (destruct Hc as [->|Hc]; [discriminate|]). subst i. discriminate.
    + destruct H15 as [_ Hcopy]; [simpl; lia|].
      rewrite Hcopy; [reflexivity|].
      simpl. intros Hin.
      repeat (destruct Hin as [Hin|Hin]; [discriminate|]). exact Hin.
  - destruct (get_field_contract (mem_of (repeat 65 16 ++ [9])) (repeat 7 16)
                0 17 16 ltac:(lia)) as [_ H].
    destruct (H 16) as [Hrej _].
    + lia.
    + reflexivity.
    + intros i Hi.
      assert (Hc : i = 0 \/ i = 1 \/ i = 2 \/ i = 3 \/ i = 4 \/ i = 5 \/ i = 6
                   \/ i = 7 \/ i = 8 \/ i = 9 \/ i = 10 \/ i = 11 \/ i = 12
                   \/ i = 13 \/ i = 14 \/ i = 15) by lia.
      repeat (destruct Hc as [->|Hc]; [discriminate|]). subst i. discriminate.
    + apply Hrej. lia.
Defined.

(** C6 as stated does not hold: a field with a NUL byte before its tab is
    not copied byte for byte.  The region holds [A NUL B TAB]; the first tab
    is at distance 3, below the maximum 16, yet the first three destination
    bytes are [A NUL NUL], not the field [A NUL B]. *)
Lemma get_field_copy_counterexample :
  memchr (mem_of [65; 0; 66; 9]) 0 TAB 4 = Some 3
  /\ get_field (mem_of [65; 0; 66; 9]) (repeat 7 16) 0 4 16
     = (3, [65; 0; 0; 0] ++ repeat 7 12)
  /\ firstn 3 (snd (get_field (mem_of [65; 0; 66; 9]) (repeat 7 16) 0 4 16))
     <> bytes (mem_of [65; 0; 66; 9]) 0 3.
Proof.
  split; [reflexivity|]. split; [reflexivity|]. discriminate.
Qed.

(** ** Dispatch *)


Lemma matching_from_filter tag elements : forall i,
  matching_from tag i elements
  = map (fun j => (i + j)%nat) (matching_listeners tag elements).
Proof.
  unfold matching_listeners.
  induction elements as [|t rest IH]; intros i; [reflexivity|].
  simpl matching_from. simpl length. rewrite <- cons_seq. simpl filter.
  rewrite <- seq_shift, filter_map_swap. simpl nth.
  rewrite IH.
  destruct (str_eqb tag t); simpl; rewrite ?Nat.add_0_r, !map_map;
    [apply (f_equal (cons i))|]; apply map_ext; intros j; lia.
Qed.

Lemma publish_loop_frame tag val elements : forall i r,
  same_frame r (publish_loop tag val elements i r)
  /\ tag_ (publish_loop tag val elements i r) = tag_ r
  /\ val_ (publish_loop tag val elements i r) = val_ r
  /\ trace (publish_loop tag val elements i r)
     = trace r ++ map (fun j => EvDeliver j val) (matching_from tag i elements).
Proof.
  induction elements as [|t rest IH]; intros i r; simpl.
  - rewrite app_nil_r. unfold same_frame. repeat split.
  - destruct (str_eqb tag t); simpl.
    + destruct (IH (S i) (emit (EvDeliver i val) r)) as (Hf & Ht & Hv & Htr).
      rewrite Ht, Hv, Htr. simpl. rewrite <- app_assoc. simpl.
      repeat split; apply Hf.
    + apply IH.
Qed.

Lemma delivered_map_deliver val l :
  delivered (map (fun j => EvDeliver j val) l) = map (fun j => (j, val)) l.
Proof. induction l as [|j l IH]; simpl; [reflexivity|]. rewrite IH; reflexivity. Qed.

Lemma published_map_deliver val l :
  published (map (fun j => EvDeliver j val) l) = [].
Proof. induction l as [|j l IH]; simpl; [reflexivity|]. assumption. Qed.

Lemma stores_map_deliver val l :
  stores (map (fun j => EvDeliver j val) l) = [].
Proof. induction l as [|j l IH]; simpl; [reflexivity|]. assumption. Qed.

Lemma warnings_map_deliver val l :
  warnings (map (fun j => EvDeliver j val) l) = [].
Proof. induction l as [|j l IH]; simpl; [reflexivity|]. assumption. Qed.

Lemma publish_value_trace tag val r :
  trace (publish_value_ tag val r)
  = trace r ++ EvPublish tag val
      :: map (fun j => EvDeliver j val)
             (matching_listeners tag (mk2pvrouter_listeners_ r)).
Proof.
  unfold publish_value_.
  destruct (publish_loop_frame tag val (mk2pvrouter_listeners_ r) 0
              (emit (EvPublish tag val) r)) as (_ & _ & _ & Htr).
  rewrite Htr. simpl. rewrite <- app_assoc. simpl.
  rewrite matching_from_filter. simpl. rewrite map_id. reflexivity.
Qed.

(** ** Stretches of parsing *)

Lemma same_frame_refl r : same_frame r r.
Proof. unfold same_frame. repeat split. Qed.

Lemma same_frame_trans r1 r2 r3 :
  same_frame r1 r2 -> same_frame r2 r3 -> same_frame r1 r3.
Proof.
  unfold same_frame. intros (A1 & A2 & A3 & A4 & A5 & A6 & A7)
                            (B1 & B2 & B3 & B4 & B5 & B6 & B7).
  repeat split; congruence.
Qed.

Lemma publishes_nil ls : publishes ls [] [].
Proof. unfold publishes. repeat split. Qed.

Lemma publishes_app ls e1 e2 p1 p2 :
  publishes ls e1 p1 -> publishes ls e2 p2 -> publishes ls (e1 ++ e2) (p1 ++ p2).
Proof.
  unfold publishes. intros (A1 & A2 & A3 & A4) (B1 & B2 & B3 & B4).
  autorewrite with trace. rewrite flat_map_app.
  rewrite A1, A2, A3, A4, B1, B2, B3, B4. repeat split.
Qed.

Lemma publishes_quiet ls e : quiet e = true -> publishes ls [e] [].
Proof. destruct e; simpl; try discriminate; intros _; apply publishes_nil. Qed.

Lemma grows_trans r1 r2 r3 p1 p2 :
  grows r1 r2 p1 -> grows r2 r3 p2 -> grows r1 r3 (p1 ++ p2).
Proof.
  intros [F1 (e1 & T1 & P1)] [F2 (e2 & T2 & P2)].
  split; [eapply same_frame_trans; eassumption|].
  exists (e1 ++ e2). split.
  - rewrite T2, T1, app_assoc. reflexivity.
  - apply publishes_app; [assumption|].
    destruct F1 as (L & _). rewrite <- L. assumption.
Qed.

Lemma grows_emit e r : quiet e = true -> grows r (emit e r) [].
Proof.
  intros H. split; [unfold same_frame; repeat split|].
  exists [e]. split; [reflexivity|apply publishes_quiet; assumption].
Qed.

Lemma grows_set_tag t r : grows r (set_tag t r) [].
Proof.
  split; [unfold same_frame; repeat split|].
  exists []. simpl. rewrite app_nil_r. split; [reflexivity|apply publishes_nil].
Qed.

Lemma grows_set_val v r : grows r (set_val v r) [].
Proof.
  split; [unfold same_frame; repeat split|].
  exists []. simpl. rewrite app_nil_r. split; [reflexivity|apply publishes_nil].
Qed.

Lemma grows_publish tag val r :
  grows r (publish_value_ tag val r) [(tag, val)].
Proof.
  split.
  - unfold publish_value_.
    destruct (publish_loop_frame tag val (mk2pvrouter_listeners_ r) 0
                (emit (EvPublish tag val) r)) as (Hf & _).
    eapply same_frame_trans; [|exact Hf]. unfold same_frame. repeat split.
  - eexists. split; [apply publish_value_trace|].
    unfold publishes. simpl.
    rewrite published_map_deliver, delivered_map_deliver,
      stores_map_deliver, warnings_map_deliver, app_nil_r.
    repeat split.
Qed.

Lemma check_crc_grows r grp grp_end :
  grows r (snd (check_crc_ r grp grp_end)) []
  /\ tag_ (snd (check_crc_ r grp grp_end)) = tag_ r
  /\ val_ (snd (check_crc_ r grp grp_end)) = val_ r.
Proof.
  unfold check_crc_.
  set (r1 := emit (EvVerify grp grp_end) r).
  set (r2 := emit (EvCrcRead _ _) r1).
  set (r3 := emit (EvCrcRead _ _) r2).
  assert (G3 : grows r r3 []).
  { change (@nil (str * str)) with (([] ++ []) ++ @nil (str * str)).
    eapply grows_trans; [eapply grows_trans|]; apply grows_emit; reflexivity. }
  destruct (negb _); simpl.
  - split; [|split; reflexivity].
    change (@nil (str * str)) with ([] ++ @nil (str * str)).
    eapply grows_trans; [exact G3|]. apply grows_emit; reflexivity.
  - split; [exact G3|split; reflexivity].
Qed.

(** ** The record scan: what every round does *)

Lemma get_field_nonneg mem dest s e m : 0 <= fst (get_field mem dest s e m).
Proof.
  unfold get_field. destruct (memchr mem s TAB (e - s)) as [p|] eqn:E.
  - apply memchr_Some in E. destruct (p - s >=? m); simpl; lia.
  - simpl. lia.
Qed.

Lemma parse_round_grows r f :
  match parse_round r f with
  | Leave r' => exists pubs, grows r r' pubs
  | Again r' f' => (exists pubs, grows r r' pubs) /\ f < f' /\ f < buf_index_ r
  end.
Proof.
  unfold parse_round, parse_group.
  set (n := (buf_index_ r - 1) mod 2 ^ 32).
  destruct (memchr (buf_ r) f LINE_FEED n) as [lf|] eqn:Elf.
  2:{ exists []. apply grows_emit. reflexivity. }
  set (r1 := emit _ r).
  assert (G1 : grows r r1 []) by (apply grows_emit; reflexivity).
  cbn [buf_index_ emit buf_ r1].
  destruct (lf <? buf_index_ r) eqn:Eguard; cbn [negb].
  2:{ exists []. exact G1. }
  apply Z.ltb_lt in Eguard. apply memchr_Some in Elf.
  destruct (memchr (buf_ r) (lf + 1) CARRIAGE_RETURN (buf_index_ r - (lf + 1)))
    as [grp_end|] eqn:Ecr.
  2:{ exists ([] ++ [] ++ []).
      eapply grows_trans; [exact G1|].
      eapply grows_trans; apply grows_emit; reflexivity. }
  set (r2 := emit _ _).
  assert (G2 : grows r r2 []).
  { change (@nil (str * str)) with ([] ++ @nil (str * str)).
    eapply grows_trans; [exact G1|]. apply grows_emit; reflexivity. }
  destruct (check_crc_grows r2 (lf + 1) grp_end) as (G3 & Ht3 & Hv3).
  destruct (check_crc_ r2 (lf + 1) grp_end) as [ok r3]. cbn [snd] in *.
  assert (G3' : grows r r3 []).
  { change (@nil (str * str)) with ([] ++ @nil (str * str)).
    eapply grows_trans; eassumption. }
  destruct ok; cbn [negb].
  2:{ split; [exists []; exact G3'|]. lia. }
  pose proof (get_field_nonneg (buf_ r3) (tag_ r3) (lf + 1) grp_end MAX_TAG_SIZE)
    as Hn1.
  destruct (get_field (buf_ r3) (tag_ r3) (lf + 1) grp_end MAX_TAG_SIZE)
    as [len1 t]. cbn [fst] in Hn1.
  assert (G4 : grows r (set_tag t r3) []).
  { change (@nil (str * str)) with ([] ++ @nil (str * str)).
    eapply grows_trans; [exact G3'|]. apply grows_set_tag. }
  destruct ((len1 =? 0) || (len1 >=? MAX_TAG_SIZE)).
  { split; [|lia]. exists ([] ++ []).
    eapply grows_trans; [exact G4|]. apply grows_emit; reflexivity. }
  set (r4 := set_tag t r3) in *.
  pose proof (get_field_nonneg (buf_ r4) (val_ r4) (lf + 1 + (len1 + 1)) grp_end
                MAX_VAL_SIZE) as Hn2.
  destruct (get_field (buf_ r4) (val_ r4) (lf + 1 + (len1 + 1)) grp_end
              MAX_VAL_SIZE) as [len2 v]. cbn [fst] in Hn2.
  assert (G5 : grows r (set_val v r4) []).
  { change (@nil (str * str)) with ([] ++ @nil (str * str)).
    eapply grows_trans; [exact G4|]. apply grows_set_val. }
  destruct ((len2 =? 0) || (len2 >=? MAX_VAL_SIZE)).
  { split; [|lia]. exists ([] ++ []).
    eapply grows_trans; [exact G5|]. apply grows_emit; reflexivity. }
  split; [|lia]. eexists.
  eapply grows_trans; [exact G5|]. apply grows_publish.
Qed.

(** The loop ends: from cursor [f], more rounds than there are bytes from
    [f] to the fill length are never needed. *)
Lemma parse_frame_grows fuel : forall r f,
  (Z.to_nat (buf_index_ r - f) < fuel)%nat ->
  exists r' pubs, parse_frame fuel r f = Some r' /\ grows r r' pubs.
Proof.
  induction fuel as [|fuel IH]; intros r f Hfuel; [lia|].
  simpl. pose proof (parse_round_grows r f) as Hround.
  destruct (parse_round r f) as [r'|r' f'].
  - destruct Hround as [pubs G]. exists r', pubs. split; [reflexivity|assumption].
  - destruct Hround as ((p1 & G1) & Hf & Hlt).
    assert (Hidx : buf_index_ r' = buf_index_ r) by apply G1.
    destruct (IH r' f') as (r'' & p2 & Hp & G2); [rewrite Hidx; lia|].
    exists r'', (p1 ++ p2). split; [assumption|].
    eapply grows_trans; eassumption.
Qed.

Lemma parse_frame_total r :
  exists r' pubs, parse_frame (parse_fuel r) r 0 = Some r' /\ grows r r' pubs.
Proof. apply parse_frame_grows. unfold parse_fuel. lia. Qed.

(** ** Records in memory and records as lists *)

Lemma index_of_Some c l : forall i,
  index_of c l = Some i ->
  (i < length l)%nat /\ nth i l 0 = c /\ ~ In c (firstn i l).
Proof.
  induction l as [|x l IH]; intros i H; simpl in H; [discriminate|].
  destruct (x =? c) eqn:E.
  - inversion H; subst i. apply Z.eqb_eq in E. simpl. repeat split; [lia|assumption|tauto].
  - destruct (index_of c l) as [j|] eqn:Ej; [|discriminate].
    inversion H; subst i. destruct (IH j eq_refl) as (H1 & H2 & H3).
    apply Z.eqb_neq in E. simpl. repeat split; [lia|assumption|].
    intros [Hx|Hin]; [congruence|contradiction].
Qed.

Lemma index_of_None c l : index_of c l = None -> ~ In c l.
Proof.
  induction l as [|x l IH]; intros H; simpl in *; [tauto|].
  destruct (x =? c) eqn:E; [discriminate|].
  destruct (index_of c l); [discriminate|].
  apply Z.eqb_neq in E. intros [Hx|Hin]; [congruence|]. apply IH; auto.
Qed.

Lemma index_of_app c a b : ~ In c a ->
  index_of c (a ++ c :: b) = Some (length a).
Proof.
  induction a as [|x a IH]; intros H; simpl.
  - rewrite Z.eqb_refl. reflexivity.
  - destruct (x =? c) eqn:E.
    + apply Z.eqb_eq in E. exfalso. apply H. left. assumption.
    + rewrite IH; [reflexivity|]. intros Hin. apply H. right. assumption.
Qed.

Lemma holds_not_in mem s l c i :
  holds mem s l -> ~ In c l -> s <= i < s + Z.of_nat (length l) -> mem i <> c.
Proof.
  intros H Hc Hi Heq. apply Hc. rewrite <- Heq.
  replace i with (s + (i - s)) by lia. apply holds_In; [assumption|lia].
Qed.

Lemma holds_skipn mem s l d :
  holds mem s l -> (d <= length l)%nat -> holds mem (s + Z.of_nat d) (skipn d l).
Proof.
  intros H Hd. rewrite <- (firstn_skipn d l) in H. apply holds_app in H.
  destruct H as [_ H]. rewrite length_firstn, Nat.min_l in H by assumption.
  exact H.
Qed.

Lemma memchr_index_of mem s c l :
  holds mem s l ->
  memchr mem s c (Z.of_nat (length l))
  = option_map (fun i => s + Z.of_nat i) (index_of c l).
Proof.
  intros H. destruct (index_of c l) as [i|] eqn:E; simpl.
  - apply index_of_Some in E. destruct E as (Hi & Hn & Hf).
    apply memchr_first.
    + lia.
    + rewrite (H i Hi). assumption.
    + intros j Hj. apply (holds_not_in mem s (firstn i l)); try assumption.
      * apply holds_firstn; assumption.
      * rewrite length_firstn. lia.
  - apply index_of_None in E. apply memchr_absent.
    intros j Hj. apply (holds_not_in mem s l); assumption.
Qed.

Lemma last_nth_pred (l : list Z) d : last l d = nth (length l - 1) l d.
Proof.
  induction l as [|x l IH]; [reflexivity|].
  destruct l as [|y l]; [reflexivity|].
  change (last (x :: y :: l) d) with (last (y :: l) d). rewrite IH.
  simpl length. replace (S (S (length l)) - 1)%nat with (S (length l)) by lia.
  simpl. rewrite Nat.sub_0_r. reflexivity.
Qed.

Lemma record_crc_ok_nonempty k body :
  body <> [] -> record_crc_ok k body = (last body 0 =? record_checksum k body).
Proof. destruct body; [congruence|reflexivity]. Qed.

(** The verifier on a record in memory agrees with the list reading.  An
    empty record makes it read the byte before the span, the line feed. *)
Lemma check_crc_record r s body :
  0 <= checksum_area_end_ r ->
  holds (buf_ r) s body ->
  buf_ r (s - 1) = LINE_FEED ->
  fst (check_crc_ r s (s + Z.of_nat (length body)))
  = record_crc_ok (checksum_area_end_ r) body.
Proof.
  intros Hk H Hlf. rewrite check_crc_fst.
  replace (s + Z.of_nat (length body) - s) with (Z.of_nat (length body)) by lia.
  destruct (Nat.eq_dec (length body) 0) as [Hz|Hnz].
  - destruct body; [|discriminate]. simpl length. simpl Z.of_nat.
    replace (s + (0 - 1)) with (s - 1) by lia.
    rewrite Hlf. pose proof (calculate_crc_range r s 0) as Hr.
    unfold record_crc_ok. apply Z.eqb_neq. unfold LINE_FEED. lia.
  - rewrite record_crc_ok_nonempty by (intros ->; apply Hnz; reflexivity).
    rewrite calculate_crc_spec. unfold record_checksum.
    rewrite (holds_bytes_firstn _ _ _ _ H) by lia.
    rewrite (holds_at _ _ _ _ H) by lia.
    rewrite last_nth_pred. do 2 f_equal. lia.
Qed.

Lemma record_crc_ok_last k body :
  record_crc_ok k body = true ->
  body <> [] /\ 0x20 <= nth (length body - 1) body 0 < 0x60.
Proof.
  intros H. assert (Hne : body <> []) by (intros ->; discriminate).
  rewrite record_crc_ok_nonempty in H by assumption.
  apply Z.eqb_eq in H. rewrite last_nth_pred in H.
  split; [assumption|]. rewrite H. unfold record_checksum.
  pose proof (Z.mod_pos_bound
    (zsum (firstn (Z.to_nat (Z.of_nat (length body) - k)) body)) 64 ltac:(lia)).
  lia.
Qed.

(** [get_field] on a region that holds the list [l]. *)
Lemma get_field_holds mem dest s l m :
  holds mem s l -> m <= Z.of_nat (length dest) ->
  exists dest',
    get_field mem dest s (s + Z.of_nat (length l)) m
    = (match index_of TAB l with Some i => Z.of_nat i | None => 0 end, dest')
    /\ length dest' = length dest
    /\ (forall i, index_of TAB l = Some i -> Z.of_nat i < m ->
                  c_str dest' = c_str (firstn i l)).
Proof.
  intros H Hm.
  pose proof (memchr_index_of mem s TAB l H) as Hfind.
  replace (Z.of_nat (length l)) with (s + Z.of_nat (length l) - s) in Hfind by lia.
  destruct (index_of TAB l) as [i|] eqn:E; simpl in Hfind.
  - destruct (Z_lt_ge_dec (Z.of_nat i) m) as [Hlt|Hge].
    + eexists. split; [|split].
      * rewrite (get_field_fits _ _ _ _ _ _ Hfind) by lia.
        replace (s + Z.of_nat i - s) with (Z.of_nat i) by lia.
        rewrite Nat2Z.id. reflexivity.
      * rewrite length_app. cbn [length].
        rewrite strncpy_bytes_length, length_skipn. lia.
      * intros j Hj _. inversion Hj; subst j.
        rewrite c_str_strncpy_bytes. f_equal.
        apply holds_bytes_firstn; [assumption|].
        apply index_of_Some in E. lia.
    + exists dest. split; [|split].
      * rewrite (get_field_too_long _ _ _ _ _ _ Hfind) by lia.
        f_equal. lia.
      * reflexivity.
      * intros j Hj Hjm. inversion Hj; subst j. lia.
  - exists dest. split; [|split].
    + apply get_field_no_tab. assumption.
    + reflexivity.
    + intros j Hj. discriminate.
Qed.

Lemma record_bytes_length body :
  length (record_bytes body) = S (S (length body)).
Proof. unfold record_bytes. simpl. rewrite length_app. simpl. lia. Qed.

Lemma decode_record_bad_crc k body :
  record_crc_ok k body = false -> decode_record k body = [].
Proof. unfold decode_record. intros ->. reflexivity. Qed.

Lemma field_len_test len m :
  (Z.of_nat len =? 0) || (Z.of_nat len >=? m) = negb (field_len_ok len m).
Proof.
  unfold field_len_ok. rewrite Z.geb_leb, Z.ltb_antisym.
  destruct (Z.of_nat len =? 0); destruct (m <=? Z.of_nat len); reflexivity.
Qed.

Ltac round_done :=
  split; [reflexivity|split; [lia|split; [|split]]].

(** One round on a record: the loop goes on, from a cursor inside or just
    behind the record, and has published what the record decodes to. *)
Lemma parse_round_record r f gap body :
  0 <= f ->
  0 <= checksum_area_end_ r ->
  buf_index_ r < 2 ^ 32 ->
  holds (buf_ r) f (gap ++ record_bytes body) ->
  f + Z.of_nat (length (gap ++ record_bytes body)) <= buf_index_ r ->
  ~ In LINE_FEED gap ->
  ~ In CARRIAGE_RETURN body ->
  MAX_TAG_SIZE <= Z.of_nat (length (tag_ r)) ->
  MAX_VAL_SIZE <= Z.of_nat (length (val_ r)) ->
  exists r' d,
    parse_round r f = Again r' (f + Z.of_nat (length gap) + 1 + Z.of_nat d)
    /\ (d <= length body + 1)%nat
    /\ grows r r' (decode_record (checksum_area_end_ r) body)
    /\ length (tag_ r') = length (tag_ r)
    /\ length (val_ r') = length (val_ r).
Proof.
  intros Hf Hk Hfill Hmem Hlen Hgap Hbody Htag Hval.
  rewrite length_app, record_bytes_length in Hlen.
  apply holds_app in Hmem. destruct Hmem as [Hmgap Hmrec].
  unfold record_bytes in Hmrec. apply holds_cons in Hmrec.
  destruct Hmrec as [Hq Hmrec]. apply holds_app in Hmrec.
  destruct Hmrec as [Hmbody Hmcr]. apply holds_cons in Hmcr.
  destruct Hmcr as [He _].
  set (q := f + Z.of_nat (length gap)) in *.
  set (e := q + 1 + Z.of_nat (length body)) in *.
  assert (Hn : (buf_index_ r - 1) mod 2 ^ 32 = buf_index_ r - 1)
    by (apply Z.mod_small; lia).
  assert (Hlf : memchr (buf_ r) f LINE_FEED ((buf_index_ r - 1) mod 2 ^ 32)
                = Some q).
  { rewrite Hn. apply memchr_first; [lia|assumption|].
    intros i Hi. apply (holds_not_in _ f gap); try assumption; lia. }
  assert (Hcr : memchr (buf_ r) (q + 1) CARRIAGE_RETURN (buf_index_ r - (q + 1))
                = Some e).
  { apply memchr_first; [lia|assumption|].
    intros i Hi. apply (holds_not_in _ (q + 1) body); try assumption; lia. }
  unfold parse_round, parse_group. cbv zeta. rewrite Hlf.
  cbn [buf_index_ buf_ emit].
  assert (Hguard : (q <? buf_index_ r) = true) by (apply Z.ltb_lt; lia).
  rewrite Hguard. cbn [negb]. rewrite Hcr.
  match goal with
  | |- context [check_crc_ ?a (q + 1) e] => set (r2 := a)
  end.
  assert (G2 : grows r r2 []).
  { change (@nil (str * str)) with ([] ++ @nil (str * str)).
    eapply grows_trans; apply grows_emit; reflexivity. }
  destruct (check_crc_grows r2 (q + 1) e) as (G3 & Ht3 & Hv3).
  pose proof (check_crc_record r2 (q + 1) body Hk Hmbody) as Hok.
  replace (q + 1 - 1) with q in Hok by lia. specialize (Hok Hq).
  fold e in Hok.
  destruct (check_crc_ r2 (q + 1) e) as [ok r3]. cbn [fst snd] in *.
  assert (G3' : grows r r3 []).
  { change (@nil (str * str)) with ([] ++ @nil (str * str)).
    eapply grows_trans; eassumption. }
  assert (Hbuf3 : buf_ r3 = buf_ r) by apply G3'.
  assert (Hk3 : checksum_area_end_ r2 = checksum_area_end_ r) by reflexivity.
  rewrite Hk3 in Hok.
  destruct ok; cbn [negb].
  2:{ exists r3, O. rewrite Z.add_0_r.
      rewrite decode_record_bad_crc by (symmetry; assumption).
      round_done; [exact G3'|rewrite Ht3|rewrite Hv3]; reflexivity. }
  (* the tag *)
  destruct (get_field_holds (buf_ r) (tag_ r3) (q + 1) body MAX_TAG_SIZE
              Hmbody ltac:(rewrite Ht3; exact Htag)) as (t & Hget1 & Hlt & Hct).
  fold e in Hget1. rewrite Hbuf3, Hget1.
  assert (G4 : grows r (set_tag t r3) []).
  { change (@nil (str * str)) with ([] ++ @nil (str * str)).
    eapply grows_trans; [exact G3'|]. apply grows_set_tag. }
  unfold decode_record. rewrite <- Hok.
  destruct (index_of TAB body) as [tl|] eqn:Etl.
  2:{ cbn [Z.eqb orb]. exists (emit (EvLogE INVALID_TAG) (set_tag t r3)), O.
      rewrite Z.add_0_r. round_done.
      - change (@nil (str * str)) with ([] ++ @nil (str * str)).
        eapply grows_trans; [exact G4|]. apply grows_emit; reflexivity.
      - cbn [tag_ emit set_tag]. rewrite Hlt, Ht3. reflexivity.
      - cbn [val_ emit set_tag]. rewrite Hv3. reflexivity. }
  assert (Hsame1 : (Z.of_nat tl =? 0) || (Z.of_nat tl >=? MAX_TAG_SIZE)
                   = negb (field_len_ok tl MAX_TAG_SIZE)).
  { apply field_len_test. }
  rewrite Hsame1.
  destruct (field_len_ok tl MAX_TAG_SIZE) eqn:Eok1; cbn [negb].
  2:{ exists (emit (EvLogE INVALID_TAG) (set_tag t r3)), O.
      rewrite Z.add_0_r. round_done.
      - change (@nil (str * str)) with ([] ++ @nil (str * str)).
        eapply grows_trans; [exact G4|]. apply grows_emit; reflexivity.
      - cbn [tag_ emit set_tag]. rewrite Hlt, Ht3. reflexivity.
      - cbn [val_ emit set_tag]. rewrite Hv3. reflexivity. }
  (* the value *)
  pose proof (index_of_Some _ _ _ Etl) as (Htl & Htab1 & _).
  set (rest := skipn (S tl) body).
  assert (Hmrest : holds (buf_ r) (q + 1 + (Z.of_nat tl + 1)) rest).
  { replace (q + 1 + (Z.of_nat tl + 1)) with (q + 1 + Z.of_nat (S tl)) by lia.
    apply holds_skipn; [assumption|lia]. }
  assert (Hrestlen : length rest = (length body - S tl)%nat)
    by (unfold rest; apply length_skipn).
  cbn [buf_ val_ set_tag tag_].
  destruct (get_field_holds (buf_ r) (val_ r3) (q + 1 + (Z.of_nat tl + 1)) rest
              MAX_VAL_SIZE Hmrest ltac:(rewrite Hv3; exact Hval))
    as (v & Hget2 & Hlv & Hcv).
  replace (q + 1 + (Z.of_nat tl + 1) + Z.of_nat (length rest)) with e in Hget2
    by (unfold e; lia).
  rewrite Hbuf3, Hget2.
  assert (G5 : grows r (set_val v (set_tag t r3)) []).
  { change (@nil (str * str)) with ([] ++ @nil (str * str)).
    eapply grows_trans; [exact G4|]. apply grows_set_val. }
  destruct (index_of TAB rest) as [vl|] eqn:Evl.
  2:{ cbn [Z.eqb orb].
      eexists (emit _ (set_val v (set_tag t r3))), (S tl).
      replace (q + 1 + Z.of_nat (S tl)) with (q + 1 + (Z.of_nat tl + 1)) by lia.
      round_done.
      - change (@nil (str * str)) with ([] ++ @nil (str * str)).
        eapply grows_trans; [exact G5|]. apply grows_emit; reflexivity.
      - cbn [tag_ emit set_tag set_val]. rewrite Hlt, Ht3. reflexivity.
      - cbn [val_ emit set_tag set_val]. rewrite Hlv, Hv3. reflexivity. }
  assert (Hsame2 : (Z.of_nat vl =? 0) || (Z.of_nat vl >=? MAX_VAL_SIZE)
                   = negb (field_len_ok vl MAX_VAL_SIZE)).
  { apply field_len_test. }
  rewrite Hsame2.
  destruct (field_len_ok vl MAX_VAL_SIZE) eqn:Eok2; cbn [negb].
  2:{ eexists (emit _ (set_val v (set_tag t r3))), (S tl).
      replace (q + 1 + Z.of_nat (S tl)) with (q + 1 + (Z.of_nat tl + 1)) by lia.
      round_done.
      - change (@nil (str * str)) with ([] ++ @nil (str * str)).
        eapply grows_trans; [exact G5|]. apply grows_emit; reflexivity.
      - cbn [tag_ emit set_tag set_val]. rewrite Hlt, Ht3. reflexivity.
      - cbn [val_ emit set_tag set_val]. rewrite Hlv, Hv3. reflexivity. }
  (* both fields are fine: the record is published *)
  pose proof (index_of_Some _ _ _ Evl) as (Hvl & Htab2 & _).
  assert (Hroom : (tl + vl + 3 <= length body)%nat).
  { destruct (record_crc_ok_last _ _ (eq_sym Hok)) as [_ Hlast].
    destruct (Nat.eq_dec (S tl + vl) (length body - 1)) as [Heq|Hne]; [|lia].
    exfalso. unfold rest in Htab2. rewrite nth_skipn in Htab2.
    rewrite Heq in Htab2. rewrite Htab2 in Hlast. unfold TAB in Hlast. lia. }
  cbn [tag_ val_ set_val set_tag].
  eexists (publish_value_ (c_str t) (c_str v) (set_val v (set_tag t r3))),
          (S tl + vl + 3)%nat.
  replace (q + 1 + Z.of_nat (S tl + vl + 3))
    with (q + 1 + (Z.of_nat tl + 1) + (Z.of_nat vl + 1 + 1 + 1)) by lia.
  assert (Ect : c_str t = c_str (firstn tl body)).
  { apply Hct; [reflexivity|].
    unfold field_len_ok in Eok1. apply andb_true_iff in Eok1.
    destruct Eok1 as [_ Eok1]. apply Z.ltb_lt in Eok1. exact Eok1. }
  assert (Ecv : c_str v = c_str (firstn vl rest)).
  { apply Hcv; [reflexivity|].
    unfold field_len_ok in Eok2. apply andb_true_iff in Eok2.
    destruct Eok2 as [_ Eok2]. apply Z.ltb_lt in Eok2. exact Eok2. }
  destruct (publish_loop_frame (c_str t) (c_str v)
              (mk2pvrouter_listeners_ (set_val v (set_tag t r3))) 0
              (emit (EvPublish (c_str t) (c_str v)) (set_val v (set_tag t r3))))
    as (_ & Htp & Hvp & _).
  round_done.
  - rewrite <- Ect, <- Ecv.
    change [(c_str t, c_str v)] with ([] ++ [(c_str t, c_str v)]).
    eapply grows_trans; [exact G5|]. apply grows_publish.
  - unfold publish_value_.
rewrite Htp. cbn [tag_ emit set_tag set_val]. rewrite Hlt, Ht3. reflexivity.
  - unfold publish_value_.
    rewrite Hvp. cbn [val_ emit set_tag set_val]. rewrite Hlv, Hv3. reflexivity.
Qed.

(** ** The record scan on a frame *)

Lemma parse_round_tail r f gap tail :
  holds (buf_ r) f (gap ++ tail) ->
  f + Z.of_nat (length (gap ++ tail)) = buf_index_ r ->
  ~ In LINE_FEED gap ->
  dangling tail ->
  exists r', parse_round r f = Leave r' /\ grows r r' [].
Proof.
  intros Hmem Hlen Hgap Htail. rewrite length_app in Hlen.
  apply holds_app in Hmem. destruct Hmem as [Hmgap Hmtail].
  unfold parse_round, parse_group. cbv zeta.
  destruct (memchr (buf_ r) f LINE_FEED ((buf_index_ r - 1) mod 2 ^ 32))
    as [lf|] eqn:Elf.
  2:{ eexists. split; [reflexivity|]. apply grows_emit; reflexivity. }
  cbn [buf_index_ buf_ emit].
  destruct (lf <? buf_index_ r) eqn:Eguard; cbn [negb].
  2:{ eexists. split; [reflexivity|]. apply grows_emit; reflexivity. }
  apply Z.ltb_lt in Eguard. apply memchr_Some in Elf.
  destruct Elf as (Hrange & Hlf & Hfirst).
  assert (Hge : f + Z.of_nat (length gap) <= lf).
  { destruct (Z_lt_ge_dec lf (f + Z.of_nat (length gap))) as [Hlt|Hge]; [|lia].
    exfalso.
    apply (holds_not_in (buf_ r) f gap LINE_FEED lf); try assumption; lia. }
  destruct Htail as [->|(rest & -> & Hrest)]; [simpl in Hlen; lia|].
  apply holds_cons in Hmtail. destruct Hmtail as [Hq Hmrest].
  assert (Heq : lf = f + Z.of_nat (length gap)).
  { destruct (Z.eq_dec lf (f + Z.of_nat (length gap))) as [E|E]; [exact E|].
    exfalso. apply (Hfirst (f + Z.of_nat (length gap))); [lia|assumption]. }
  subst lf. simpl length in Hlen.
  rewrite (memchr_absent (buf_ r) (f + Z.of_nat (length gap) + 1)
             CARRIAGE_RETURN).
  - eexists. split; [reflexivity|].
    change (@nil (str * str)) with ([] ++ [] ++ @nil (str * str)).
    eapply grows_trans; [|eapply grows_trans]; apply grows_emit; reflexivity.
  - intros i Hi.
    apply (holds_not_in _ (f + Z.of_nat (length gap) + 1) rest);
      try assumption; lia.
Qed.

Lemma layout_app_gap a gap recs : layout (a ++ gap) recs = a ++ layout gap recs.
Proof. destruct recs as [|[body g] recs]; simpl; rewrite <- app_assoc; reflexivity. Qed.

Lemma layout_cons gap body g recs :
  layout gap ((body, g) :: recs) = (gap ++ record_bytes body) ++ layout g recs.
Proof.
  cbn [layout]. rewrite <- app_assoc. reflexivity.
Qed.

Lemma in_skipn (x : Z) d l : In x (skipn d l) -> In x l.
Proof.
  intros H. rewrite <- (firstn_skipn d l). apply in_or_app. right. exact H.
Qed.

(** The parse of a frame buffer laid out as records: every record
    contributes what it decodes to, and nothing else is published. *)
Lemma parse_frame_layout recs : forall gap fuel r f tail,
  0 <= f ->
  0 <= checksum_area_end_ r ->
  buf_index_ r < 2 ^ 32 ->
  holds (buf_ r) f (layout gap recs ++ tail) ->
  f + Z.of_nat (length (layout gap recs ++ tail)) = buf_index_ r ->
  ~ In LINE_FEED gap ->
  Forall delimited recs ->
  dangling tail ->
  MAX_TAG_SIZE <= Z.of_nat (length (tag_ r)) ->
  MAX_VAL_SIZE <= Z.of_nat (length (val_ r)) ->
  (Z.to_nat (buf_index_ r - f) < fuel)%nat ->
  exists r',
    parse_frame fuel r f = Some r'
    /\ grows r r' (flat_map (decode_record (checksum_area_end_ r)) (map fst recs)).
Proof.
  induction recs as [|[body g] recs IH];
    intros gap fuel r f tail Hf Hk Hfill Hmem Hlen Hgap Hrecs Htail Htag Hval Hfuel.
  - destruct fuel as [|fuel]; [lia|]. simpl layout in *.
    rewrite app_nil_r in *.
    destruct (parse_round_tail r f gap tail Hmem Hlen Hgap Htail) as (r' & Hr & G).
    exists r'. simpl. rewrite Hr. split; [reflexivity|exact G].
  - destruct fuel as [|fuel]; [lia|].
    inversion Hrecs as [|x xs Hd Hrecs']; subst x xs.
    destruct Hd as (Hblf & Hbcr & Hglf). cbn [fst snd] in *.
    rewrite layout_cons in Hmem, Hlen.
    rewrite <- app_assoc in Hmem, Hlen.
    pose proof Hmem as Hmem0.
    apply holds_app in Hmem. destruct Hmem as [Hmhead Hmnext].
    rewrite length_app in Hlen.
    destruct (parse_round_record r f gap body Hf Hk Hfill Hmhead
                ltac:(lia) Hgap Hbcr Htag Hval)
      as (r1 & d & Hround & Hd & G1 & Hlt & Hlv).
    assert (F1 : same_frame r r1) by apply G1.
    destruct F1 as (_ & _ & Fk & Fbuf & Fidx & _).
    rewrite length_app, record_bytes_length in Hlen.
    (* what memory holds from the new cursor on *)
    set (f' := f + Z.of_nat (length gap) + 1 + Z.of_nat d) in *.
    set (sfx := skipn d (body ++ [CARRIAGE_RETURN])).
    assert (Hmem' : holds (buf_ r) f' (layout (sfx ++ g) recs ++ tail)).
    { rewrite layout_app_gap, <- app_assoc.
      rewrite <- app_assoc in Hmem0. apply holds_app in Hmem0.
      destruct Hmem0 as [_ Hm]. unfold record_bytes in Hm.
      change ((LINE_FEED :: body ++ [CARRIAGE_RETURN]) ++ layout g recs ++ tail)
        with (LINE_FEED :: (body ++ [CARRIAGE_RETURN]) ++ layout g recs ++ tail)
        in Hm.
      apply holds_cons in Hm. destruct Hm as [_ Hm].
      apply (holds_skipn _ _ _ d) in Hm.
      2:{ rewrite !length_app. simpl. lia. }
      rewrite skipn_app in Hm.
      replace (d - length (body ++ [CARRIAGE_RETURN]))%nat with O in Hm
        by (rewrite length_app; simpl; lia).
      simpl skipn in Hm at 2.
      replace (f + Z.of_nat (length gap) + 1 + Z.of_nat d) with f' in Hm
        by reflexivity.
      exact Hm. }
    assert (Hsfxlen : length sfx = (length body + 1 - d)%nat).
    { unfold sfx. rewrite length_skipn, length_app. simpl. lia. }
    destruct (IH (sfx ++ g) fuel r1 f' tail) as (r' & Hp & G2).
    + unfold f'. lia.
    + rewrite Fk. exact Hk.
    + rewrite Fidx. exact Hfill.
    + rewrite Fbuf. exact Hmem'.
    + rewrite Fidx, <- Hlen. rewrite layout_app_gap, <- app_assoc.
      rewrite !length_app, Hsfxlen. unfold f'. lia.
    + intros Hin. apply in_app_or in Hin. destruct Hin as [Hin|Hin].
      * apply in_skipn in Hin. apply in_app_or in Hin.
        destruct Hin as [Hin|[Hin|[]]]; [contradiction|discriminate].
      * contradiction.
    + exact Hrecs'.
    + exact Htail.
    + rewrite Hlt. exact Htag.
    + rewrite Hlv. exact Hval.
    + rewrite Fidx. unfold f'. lia.
    + exists r'. split.
      * simpl parse_frame. rewrite Hround. exact Hp.
      * simpl map. simpl flat_map. rewrite Fk in G2.
        eapply grows_trans; eassumption.
Qed.

(** ** loop on a received frame *)

Lemma frame_of_layout bodies :
  frame_of bodies = layout [] (map (fun b => (b, [])) bodies).
Proof.
  induction bodies as [|b bodies IH]; [reflexivity|].
  unfold frame_of in *. simpl flat_map. simpl map. cbn [layout].
  rewrite IH. reflexivity.
Qed.

Lemma loop_frame r bodies tail :
  frame_received r (frame_of bodies ++ tail) ->
  Forall body_delimited bodies ->
  dangling tail ->
  exists r',
    loop r = set_state OFF r'
    /\ grows r r' (flat_map (decode_record (checksum_area_end_ r)) bodies).
Proof.
  intros (Hst & Hmem & Hidx & Hcap & Hk & Htag & Hval) Hbodies Htail.
  rewrite frame_of_layout in Hmem, Hidx.
  destruct (parse_frame_layout (map (fun b => (b, [])) bodies) [] (parse_fuel r)
              r 0 tail) as (r' & Hp & G); try assumption; try lia.
  - unfold MAX_BUF_SIZE in Hcap. lia.
  - intros [].
  - apply Forall_forall. intros [b g] Hin. apply in_map_iff in Hin.
    destruct Hin as (b' & Heq & Hin). inversion Heq; subst b' g.
    rewrite Forall_forall in Hbodies. destruct (Hbodies b Hin) as [H1 H2].
    unfold delimited. simpl. tauto.
  - unfold parse_fuel. lia.
  - exists r'. rewrite map_map in G. simpl in G. rewrite map_id in G.
    split; [|exact G]. unfold loop. rewrite Hst, Hp. reflexivity.
Qed.

(** After the step: state OFF, and the trace extended by the events that
    publish and deliver. *)
Lemma loop_frame_trace r bodies tail :
  frame_received r (frame_of bodies ++ tail) ->
  Forall body_delimited bodies ->
  dangling tail ->
  state_ (loop r) = OFF
  /\ published (trace (loop r))
     = published (trace r)
         ++ flat_map (decode_record (checksum_area_end_ r)) bodies
  /\ delivered (trace (loop r))
     = delivered (trace r)
         ++ flat_map (deliveries (mk2pvrouter_listeners_ r))
              (flat_map (decode_record (checksum_area_end_ r)) bodies).
Proof.
  intros Hr Hb Ht. destruct (loop_frame r bodies tail Hr Hb Ht) as (r' & -> & G).
  destruct G as [_ (evs & Htr & Hp & Hd & _)].
  cbn [state_ trace set_state]. rewrite Htr. autorewrite with trace.
  rewrite Hp, Hd. repeat split.
Qed.

(** ** Decoding well-formed records *)

Lemma firstn_app_exact (a b : list Z) : firstn (length a) (a ++ b) = a.
Proof.
  rewrite firstn_app, Nat.sub_diag, firstn_all. simpl. apply app_nil_r.
Qed.

Lemma skipn_app_exact (a : list Z) x b : skipn (S (length a)) (a ++ x :: b) = b.
Proof.
  induction a as [|y a IH]; [reflexivity|]. simpl length. simpl app.
  change (skipn (S (S (length a))) (y :: a ++ x :: b))
    with (skipn (S (length a)) (a ++ x :: b)).
  exact IH.
Qed.

Lemma decode_well_formed k w :
  well_formed w ->
  decode_record k (wire_body w)
  = if valid_record k w then [measurement_of w] else [].
Proof.
  destruct w as [[tag val] crc].
  intros ((Ht0 & Httab & _) & (Hv0 & Hvtab & _) & _).
  unfold decode_record, valid_record, wire_body, measurement_of, record_body.
  destruct (record_crc_ok k (tag ++ TAB :: val ++ [TAB; crc])); [|reflexivity].
  rewrite index_of_app by assumption.
  simpl andb.
  destruct (field_len_ok (length tag) MAX_TAG_SIZE); [|reflexivity].
  rewrite skipn_app_exact.
  rewrite index_of_app by assumption.
  simpl andb.
  destruct (field_len_ok (length val) MAX_VAL_SIZE); [|reflexivity].
  rewrite !firstn_app_exact, !c_str_no_nul by assumption. reflexivity.
Qed.

Lemma well_formed_delimited w : well_formed w -> body_delimited (wire_body w).
Proof.
  destruct w as [[tag val] crc].
  intros ((_ & _ & Htlf & Htcr) & (_ & _ & Hvlf & Hvcr) & Hclf & Hccr).
  unfold body_delimited, wire_body, record_body.
  split; intros Hin; apply in_app_or in Hin; destruct Hin as [Hin|Hin];
    try contradiction; simpl in Hin; destruct Hin as [Hin|Hin];
    try discriminate; apply in_app_or in Hin; destruct Hin as [Hin|Hin];
    try contradiction; simpl in Hin;
    destruct Hin as [Hin|[Hin|[]]]; try discriminate; congruence.
Qed.

Lemma decode_well_formed_all k ws :
  Forall well_formed ws ->
  flat_map (decode_record k) (map wire_body ws)
  = map measurement_of (filter (valid_record k) ws).
Proof.
  induction ws as [|w ws IH]; intros H; [reflexivity|].
  inversion H as [|x xs Hw Hws]; subst x xs.
  simpl. rewrite decode_well_formed, IH by assumption.
  destruct (valid_record k w); reflexivity.
Qed.

Lemma loop_skips_record r pre body post tail :
  frame_received r (frame_of (pre ++ body :: post) ++ tail) ->
  Forall body_delimited (pre ++ body :: post) ->
  dangling tail ->
  decode_record (checksum_area_end_ r) body = [] ->
  state_ (loop r) = OFF
  /\ published (trace (loop r))
     = published (trace r)
         ++ flat_map (decode_record (checksum_area_end_ r)) pre
         ++ flat_map (decode_record (checksum_area_end_ r)) post
  /\ delivered (trace (loop r))
     = delivered (trace r)
         ++ flat_map (deliveries (mk2pvrouter_listeners_ r))
              (flat_map (decode_record (checksum_area_end_ r)) pre
                 ++ flat_map (decode_record (checksum_area_end_ r)) post).
Proof.
  intros Hr Hb Ht Hskip.
  destruct (loop_frame_trace r _ tail Hr Hb Ht) as (Hs & Hp & Hd).
  rewrite flat_map_app in Hp, Hd. simpl flat_map in Hp, Hd.
  rewrite Hskip in Hp, Hd. simpl app in Hp, Hd.
  repeat split; assumption.
Qed.

Lemma Forall_without (P : list Z -> Prop) pre body post :
  Forall P (pre ++ body :: post) -> Forall P (pre ++ post).
Proof.
  intros H. apply Forall_app in H. destruct H as [H1 H2].
  inversion H2; subst. apply Forall_app. split; assumption.
Qed.

(** A frame with a record that decodes to nothing publishes and delivers
    what the frame without that record does. *)
Lemma loop_without_record r r' pre body post tail :
  frame_received r (frame_of (pre ++ body :: post) ++ tail) ->
  frame_received r' (frame_of (pre ++ post)) ->
  checksum_area_end_ r' = checksum_area_end_ r ->
  mk2pvrouter_listeners_ r' = mk2pvrouter_listeners_ r ->
  published (trace r') = published (trace r) ->
  delivered (trace r') = delivered (trace r) ->
  Forall body_delimited (pre ++ body :: post) ->
  dangling tail ->
  decode_record (checksum_area_end_ r) body = [] ->
  published (trace (loop r)) = published (trace (loop r'))
  /\ delivered (trace (loop r)) = delivered (trace (loop r')).
Proof.
  intros Hr Hr' Hk Hl Hp0 Hd0 Hb Ht Hskip.
  destruct (loop_skips_record r pre body post tail Hr Hb Ht Hskip)
    as (_ & Hp & Hd).
  rewrite <- (app_nil_r (frame_of (pre ++ post))) in Hr'.
  destruct (loop_frame_trace r' (pre ++ post) [] Hr')
    as (_ & Hp' & Hd').
  - eapply Forall_without. exact Hb.
  - left. reflexivity.
  - rewrite Hp, Hp', Hd, Hd', Hk, Hl, Hp0, Hd0, !flat_map_app.
    split; reflexivity.
Qed.

(** A frame that ends in a line feed without carriage return publishes and
    delivers what the frame without that end does. *)
Lemma loop_without_tail r r' bodies tail :
  frame_received r (frame_of bodies ++ tail) ->
  frame_received r' (frame_of bodies) ->
  checksum_area_end_ r' = checksum_area_end_ r ->
  mk2pvrouter_listeners_ r' = mk2pvrouter_listeners_ r ->
  published (trace r') = published (trace r) ->
  delivered (trace r') = delivered (trace r) ->
  Forall body_delimited bodies ->
  dangling tail ->
  published (trace (loop r)) = published (trace (loop r'))
  /\ delivered (trace (loop r)) = delivered (trace (loop r')).
Proof.
  intros Hr Hr' Hk Hl Hp0 Hd0 Hb Ht.
  destruct (loop_frame_trace r bodies tail Hr Hb Ht) as (_ & Hp & Hd).
  rewrite <- (app_nil_r (frame_of bodies)) in Hr'.
  destruct (loop_frame_trace r' bodies [] Hr' Hb) as (_ & Hp' & Hd').
  - left. reflexivity.
  - rewrite Hp, Hp', Hd, Hd', Hk, Hl, Hp0, Hd0. split; reflexivity.
Qed.

Lemma failure_decodes_nothing k body :
  checksum_mismatch k body \/ missing_delimiter body \/ field_too_long body ->
  decode_record k body = [].
Proof.
  unfold decode_record.
  intros [H|[[H|(tl & H1 & H2)]|[(tl & H1 & H2)|(tl & vl & H1 & H2 & H3)]]].
  - unfold checksum_mismatch in H. rewrite H. reflexivity.
  - rewrite H. destruct (record_crc_ok k body); reflexivity.
  - rewrite H1, H2.
    destruct (record_crc_ok k body); [|reflexivity].
    destruct (field_len_ok tl MAX_TAG_SIZE); reflexivity.
  - rewrite H1.
    assert (E : field_len_ok tl MAX_TAG_SIZE = false).
    { unfold field_len_ok. apply andb_false_iff. right. apply Z.ltb_ge. lia. }
    rewrite E. destruct (record_crc_ok k body); reflexivity.
  - rewrite H1, H2.
    assert (E : field_len_ok vl MAX_VAL_SIZE = false).
    { unfold field_len_ok. apply andb_false_iff. right. apply Z.ltb_ge. lia. }
    rewrite E. destruct (record_crc_ok k body); [|reflexivity].
    destruct (field_len_ok tl MAX_TAG_SIZE); reflexivity.
Qed.

Lemma empty_field_decodes_nothing k body :
  empty_field body -> decode_record k body = [].
Proof.
  unfold decode_record. intros [H|(tl & H1 & H2)].
  - rewrite H. destruct (record_crc_ok k body); reflexivity.
  - rewrite H1, H2. destruct (record_crc_ok k body); [|reflexivity].
    destruct (field_len_ok tl MAX_TAG_SIZE); reflexivity.
Qed.

Lemma grows_published r r' pubs :
  grows r r' pubs ->
  published (trace r') = published (trace r) ++ pubs
  /\ delivered (trace r')
     = delivered (trace r) ++ flat_map (deliveries (mk2pvrouter_listeners_ r)) pubs.
Proof.
  intros [_ (evs & Htr & Hp & Hd & _)]. rewrite Htr.
  autorewrite with trace. rewrite Hp, Hd. split; reflexivity.
Qed.

(** Whatever the buffer holds, the parse step ends in OFF and only adds to
    what was published and delivered. *)
Lemma loop_end_frame r :
  state_ r = END_FRAME_RECEIVED ->
  state_ (loop r) = OFF
  /\ exists pubs,
       published (trace (loop r)) = published (trace r) ++ pubs
       /\ delivered (trace (loop r))
          = delivered (trace r)
              ++ flat_map (deliveries (mk2pvrouter_listeners_ r)) pubs.
Proof.
  intros Hst. destruct (parse_frame_total r) as (r' & pubs & Hp & G).
  unfold loop. rewrite Hst, Hp. cbn [state_ trace set_state].
  split; [reflexivity|]. exists pubs. apply grows_published. exact G.
Qed.

(** ** C1 *)


Lemma router_with_frame_received listeners frame stale :
  Z.of_nat (length frame) < MAX_BUF_SIZE ->
  frame_received (router_with_frame listeners frame stale) frame.
Proof.
  intros H. unfold frame_received, router_with_frame. cbn.
  repeat split; try reflexivity; try lia.
  pose proof (holds_mem_of (frame ++ stale)) as Hm.
  apply holds_app in Hm. apply Hm.
Qed.


(** ** C7 *)

(** C7.  A frame with a record that has a checksum mismatch, a missing
    field delimiter or a field that is too long publishes and delivers
    exactly what the same frame without that record does: only that record
    is skipped, the records behind it are parsed.  A frame in which a line
    feed is followed by no carriage return publishes and delivers what the
    frame that ends in front of that line feed does; the round that finds
    the line feed is the last round of the loop (one unit of fuel suffices
    from there) and publishes nothing.  Of every buffer content: the parse
    step ends in OFF and what was published and delivered before stays
    published and delivered. *)
Theorem record_failure_skips_one_record :
  (forall (r r' : Mk2PVRouter) (pre post : list (list Z)) (body : list Z),
      frame_received r (frame_of (pre ++ body :: post)) ->
      frame_received r' (frame_of (pre ++ post)) ->
      checksum_area_end_ r' = checksum_area_end_ r ->
      mk2pvrouter_listeners_ r' = mk2pvrouter_listeners_ r ->
      published (trace r') = published (trace r) ->
      delivered (trace r') = delivered (trace r) ->
      Forall body_delimited (pre ++ body :: post) ->
      checksum_mismatch (checksum_area_end_ r) body
      \/ missing_delimiter body \/ field_too_long body ->
      state_ (loop r) = OFF
      /\ published (trace (loop r)) = published (trace (loop r'))
      /\ delivered (trace (loop r)) = delivered (trace (loop r'))
      /\ published (trace (loop r))
         = published (trace r)
             ++ flat_map (decode_record (checksum_area_end_ r)) pre
             ++ flat_map (decode_record (checksum_area_end_ r)) post)
  /\ (forall (r r' : Mk2PVRouter) (bodies : list (list Z)) (rest : list Z),
         frame_received r (frame_of bodies ++ LINE_FEED :: rest) ->
         frame_received r' (frame_of bodies) ->
         checksum_area_end_ r' = checksum_area_end_ r ->
         mk2pvrouter_listeners_ r' = mk2pvrouter_listeners_ r ->
         published (trace r') = published (trace r) ->
         delivered (trace r') = delivered (trace r) ->
         Forall body_delimited bodies ->
         ~ In CARRIAGE_RETURN rest ->
         state_ (loop r) = OFF
         /\ published (trace (loop r)) = published (trace (loop r'))
         /\ delivered (trace (loop r)) = delivered (trace (loop r'))
         /\ published (trace (loop r))
            = published (trace r)
                ++ flat_map (decode_record (checksum_area_end_ r)) bodies)
  /\ (forall (r : Mk2PVRouter) (f : Z) (gap rest : list Z),
         holds (buf_ r) f (gap ++ LINE_FEED :: rest) ->
         f + Z.of_nat (length (gap ++ LINE_FEED :: rest)) = buf_index_ r ->
         ~ In LINE_FEED gap ->
         ~ In CARRIAGE_RETURN rest ->
         exists r',
           (forall fuel, parse_frame (S fuel) r f = Some r')
           /\ published (trace r') = published (trace r)
           /\ delivered (trace r') = delivered (trace r))
  /\ (forall r : Mk2PVRouter,
         state_ r = END_FRAME_RECEIVED ->
         state_ (loop r) = OFF
         /\ exists pubs,
              published (trace (loop r)) = published (trace r) ++ pubs
              /\ delivered (trace (loop r))
                 = delivered (trace r)
                     ++ flat_map (deliveries (mk2pvrouter_listeners_ r)) pubs).
Proof.
  split; [|split; [|split]]; [| | |exact loop_end_frame].
  - intros r r' pre post body Hr Hr' Hk Hl Hp0 Hd0 Hb Hfail.
    pose proof (failure_decodes_nothing _ _ Hfail) as Hskip.
    rewrite <- (app_nil_r (frame_of (pre ++ body :: post))) in Hr.
    destruct (loop_skips_record r pre body post [] Hr Hb) as (Hs & Hp & _);
      [left; reflexivity|exact Hskip|].
    destruct (loop_without_record r r' pre body post [] Hr Hr' Hk Hl Hp0 Hd0 Hb)
      as [Hsame Hsamed]; [left; reflexivity|exact Hskip|].
    repeat split; assumption.
  - intros r r' bodies rest Hr Hr' Hk Hl Hp0 Hd0 Hb Hrest.
    assert (Ht : dangling (LINE_FEED :: rest))
      by (right; exists rest; split; [reflexivity|assumption]).
    destruct (loop_frame_trace r bodies (LINE_FEED :: rest) Hr Hb Ht)
      as (Hs & Hp & _).
    destruct (loop_without_tail r r' bodies _ Hr Hr' Hk Hl Hp0 Hd0 Hb Ht)
      as [Hsame Hsamed].
    repeat split; assumption.
  - intros r f gap rest Hmem Hlen Hgap Hrest.
    destruct (parse_round_tail r f gap (LINE_FEED :: rest) Hmem Hlen Hgap)
      as (r' & Hround & G).
    + right. exists rest. split; [reflexivity|assumption].
    + exists r'. split.
      * intros fuel. simpl. rewrite Hround. reflexivity.
      * apply grows_published in G. simpl in G. rewrite !app_nil_r in G.
        exact G.
Qed.

Lemma record_failure_skips_one_record_witness :
  published (trace (loop skipped_router)) = [(TAG1, VAL1); (TAG2, VAL2)]
  /\ state_ (loop broken_router) = OFF
  /\ published (trace (loop broken_router)) = [(TAG2, VAL2)]
  /\ exists r', parse_frame 1 dangling_router 0 = Some r'
                 /\ published (trace r') = [].
Proof.
  destruct record_failure_skips_one_record as (Hskip & Hstop & Hbreak & _).
  split; [|split; [|split]].
  - destruct (Hskip skipped_router demo_router [record_body TAG1 VAL1 CRC1]
                [record_body TAG2 VAL2 CRC2] (record_body TAG1 VAL1 84))
      as (_ & Hp & _).
    + apply router_with_frame_received. vm_compute. reflexivity.
    + apply router_with_frame_received. vm_compute. reflexivity.
    + reflexivity.
    + reflexivity.
    + reflexivity.
    + reflexivity.
    + repeat constructor; simpl; intuition discriminate.
    + left. reflexivity.
    + rewrite Hp. reflexivity.
  - destruct (Hstop broken_router
                (router_with_frame demo_listeners (frame_of broken_bodies) [])
                broken_bodies (record_body TAG1 VAL1 CRC1))
      as (Hs & _).
    + apply router_with_frame_received. vm_compute. reflexivity.
    + apply router_with_frame_received. vm_compute. reflexivity.
    + reflexivity.
    + reflexivity.
    + reflexivity.
    + reflexivity.
    + repeat constructor; simpl; intuition discriminate.
    + simpl. intuition discriminate.
    + exact Hs.
  - destruct (Hstop broken_router
                (router_with_frame demo_listeners (frame_of broken_bodies) [])
                broken_bodies (record_body TAG1 VAL1 CRC1))
      as (_ & Hp & _).
    + apply router_with_frame_received. vm_compute. reflexivity.
    + apply router_with_frame_received. vm_compute. reflexivity.
    + reflexivity.
    + reflexivity.
    + reflexivity.
    + reflexivity.
    + repeat constructor; simpl; intuition discriminate.
    + simpl. intuition discriminate.
    + rewrite Hp. reflexivity.
  - destruct (Hbreak dangling_router 0 [88] [65; 66]) as (r' & Hr' & Hp & _).
    + apply (holds_mem_of [88; 10; 65; 66]).
    + reflexivity.
    + simpl. intuition discriminate.
    + simpl. intuition discriminate.
    + exists r'. split; [apply Hr'|exact Hp].
Defined.

(** ** C10 *)

(** C10.  With the tab at the very start of the region [get_field] returns
    0, the value it returns when the region has no tab at all, and [loop]
    tests nothing but that value: a record whose tag or whose value is empty
    decodes to nothing, and a frame with such a record publishes and
    delivers exactly what the same frame without that record does, so no
    measurement is emitted for it.  The two cases are alike in the returned
    value only.  With the tab at the start and a positive maximum length
    [get_field] has written the terminator [dest[0] = 0]; with no tab it
    leaves the destination as it was. *)
Theorem empty_field_rejected :
  (forall (mem : Z -> Z) (dest : list Z) (s e m : Z),
      s < e -> mem s = TAB ->
      get_field mem dest s e m = (0, if 0 <? m then poke 0 0 dest else dest))
  /\ (forall (mem : Z -> Z) (dest : list Z) (s e m : Z),
         (forall i, s <= i < e -> mem i <> TAB) ->
         get_field mem dest s e m = (0, dest))
  /\ (forall (mem1 mem2 : Z -> Z) (d : Z) (dest : list Z) (s1 e1 s2 e2 m : Z),
         s1 < e1 -> mem1 s1 = TAB ->
         (forall i, s2 <= i < e2 -> mem2 i <> TAB) ->
         0 < m -> d <> 0 ->
         fst (get_field mem1 (d :: dest) s1 e1 m)
         = fst (get_field mem2 (d :: dest) s2 e2 m)
         /\ snd (get_field mem1 (d :: dest) s1 e1 m) = 0 :: dest
         /\ snd (get_field mem2 (d :: dest) s2 e2 m) = d :: dest
         /\ snd (get_field mem1 (d :: dest) s1 e1 m)
            <> snd (get_field mem2 (d :: dest) s2 e2 m))
  /\ (forall (r r' : Mk2PVRouter) (pre post : list (list Z)) (body : list Z),
         frame_received r (frame_of (pre ++ body :: post)) ->
         frame_received r' (frame_of (pre ++ post)) ->
         checksum_area_end_ r' = checksum_area_end_ r ->
         mk2pvrouter_listeners_ r' = mk2pvrouter_listeners_ r ->
         published (trace r') = published (trace r) ->
         delivered (trace r') = delivered (trace r) ->
         Forall body_delimited (pre ++ body :: post) ->
         empty_field body ->
         published (trace (loop r)) = published (trace (loop r'))
         /\ delivered (trace (loop r)) = delivered (trace (loop r'))
         /\ published (trace (loop r))
            = published (trace r)
                ++ flat_map (decode_record (checksum_area_end_ r)) pre
                ++ flat_map (decode_record (checksum_area_end_ r)) post).
Proof.
  assert (Hfirst : forall (mem : Z -> Z) (dest : list Z) (s e m : Z),
             s < e -> mem s = TAB ->
             get_field mem dest s e m
             = (0, if 0 <? m then poke 0 0 dest else dest)).
  { intros mem dest s e m Hse Htab.
    assert (Hfound : memchr mem s TAB (e - s) = Some s).
    { apply memchr_first; [lia|assumption|]. intros i Hi. lia. }
    unfold get_field. rewrite Hfound. rewrite Z.sub_diag, Z.geb_leb.
    destruct (m <=? 0) eqn:E1; destruct (0 <? m) eqn:E2; try reflexivity.
    - apply Z.leb_le in E1. apply Z.ltb_lt in E2. lia.
    - apply Z.leb_gt in E1. apply Z.ltb_ge in E2. lia. }
  assert (Hnone : forall (mem : Z -> Z) (dest : list Z) (s e m : Z),
             (forall i, s <= i < e -> mem i <> TAB) ->
             get_field mem dest s e m = (0, dest)).
  { intros mem dest s e m Hno.
    apply get_field_no_tab.
    apply memchr_absent. intros i Hi. apply Hno. lia. }
  split; [exact Hfirst|]. split; [exact Hnone|]. split.
  - intros mem1 mem2 d dest s1 e1 s2 e2 m Hse Htab Hno Hm Hd.
    rewrite (Hfirst mem1 (d :: dest) s1 e1 m Hse Htab).
    rewrite (Hnone mem2 (d :: dest) s2 e2 m Hno).
    assert (Em : (0 <? m) = true) by (apply Z.ltb_lt; exact Hm).
    rewrite Em. cbn [fst snd poke].
    split; [reflexivity|]. split; [reflexivity|]. split; [reflexivity|].
    intros Heq. inversion Heq. congruence.
  - intros r r' pre post body Hr Hr' Hk Hl Hp0 Hd0 Hb Hempty.
    pose proof (empty_field_decodes_nothing (checksum_area_end_ r) body Hempty)
      as Hskip.
    rewrite <- (app_nil_r (frame_of (pre ++ body :: post))) in Hr.
    destruct (loop_skips_record r pre body post [] Hr Hb) as (_ & Hp & _);
      [left; reflexivity|exact Hskip|].
    destruct (loop_without_record r r' pre body post [] Hr Hr' Hk Hl Hp0 Hd0 Hb)
      as [Hsame Hsamed]; [left; reflexivity|exact Hskip|].
    repeat split; assumption.
Qed.

Lemma empty_field_rejected_witness :
  get_field (mem_of [9; 86; 9; 72]) (repeat 7 16) 0 4 16
  = (0, 0 :: repeat 7 15)
  /\ get_field (mem_of [84; 65; 71]) (repeat 7 16) 0 3 16 = (0, repeat 7 16)
  /\ snd (get_field (mem_of [9; 86; 9; 72]) (repeat 7 16) 0 4 16)
     <> snd (get_field (mem_of [84; 65; 71]) (repeat 7 16) 0 3 16)
  /\ published (trace (loop empty_field_router)) = [(TAG2, VAL2)].
Proof.
  destruct empty_field_rejected as (Hempty & Hnone & Hdiff & Hframe).
  assert (Hno : forall i, 0 <= i < 3 -> mem_of [84; 65; 71] i <> TAB).
  { intros i Hi.
    assert (Hc : i = 0 \/ i = 1 \/ i = 2) by lia.
    destruct Hc as [->|[->| ->]]; discriminate. }
  split; [|split; [|split]].
  - rewrite Hempty; [reflexivity|lia|reflexivity].
  - apply Hnone. exact Hno.
  - apply (Hdiff (mem_of [9; 86; 9; 72]) (mem_of [84; 65; 71]) 7 (repeat 7 15)
             0 4 0 3 16); [lia|reflexivity|exact Hno|lia|discriminate].
  - destruct (Hframe empty_field_router
                (router_with_frame demo_listeners
                   (frame_of ([[9; 86; 9; 72]] ++ [record_body TAG2 VAL2 CRC2]))
                   [])
                [[9; 86; 9; 72]]
                [record_body TAG2 VAL2 CRC2] [84; 9; 9; 70]) as (_ & _ & Hp).
    + apply router_with_frame_received. vm_compute. reflexivity.
    + apply router_with_frame_received. vm_compute. reflexivity.
    + reflexivity.
    + reflexivity.
    + reflexivity.
    + reflexivity.
    + repeat constructor; simpl; intuition discriminate.
    + right. exists 1%nat. split; reflexivity.
    + rewrite Hp. reflexivity.
Defined.

(** C10 as stated does not hold in its last part: an empty field and a
    missing delimiter can be told apart at the interface of [get_field].
    The region [TAB V TAB H] and the region [T A G] both give the value 0,
    but from a destination of sixteen bytes 7 the first call leaves
    [0 7 7 ...], the terminator written at index 0, and the second leaves
    the destination as it was. *)
Lemma empty_field_destination_counterexample :
  get_field (mem_of [9; 86; 9; 72]) (repeat 7 16) 0 4 16
  = (0, 0 :: repeat 7 15)
  /\ get_field (mem_of [84; 65; 71]) (repeat 7 16) 0 3 16 = (0, repeat 7 16)
  /\ get_field (mem_of [9; 86; 9; 72]) (repeat 7 16) 0 4 16
     <> get_field (mem_of [84; 65; 71]) (repeat 7 16) 0 3 16.
Proof.
  split; [reflexivity|]. split; [reflexivity|]. discriminate.
Qed.

(** ** The record scan and the bytes behind the fill length (C3) *)

(** C3 does not hold of the code.  The stream [two_records_stream] leaves a
    frame of 26 bytes in the buffer.  After the second record the cursor is
    at offset 26, and the search for the next line feed,
    [memchr(buf_finger, LINE_FEED, buf_index_ - 1)], examines the 25 bytes
    from offset 26 to offset 50, all of them at or behind the fill length.
    After a following empty frame (fill length 0, search length 2^32 - 1)
    the search examines the byte at offset 0, which the earlier frame left
    there. *)
Theorem record_scan_reads_past_fill :
  state_ two_records_received = END_FRAME_RECEIVED
  /\ buf_index_ two_records_received = 26
  /\ scans (trace (loop two_records_received))
     = [(0, 1); (1, 13); (13, 14); (14, 26); (26, 51)]
  /\ published (trace (loop two_records_received))
     = [(TAG1, VAL1); (TAG2, VAL2)]
  /\ state_ empty_frame_received = END_FRAME_RECEIVED
  /\ buf_index_ empty_frame_received = 0
  /\ scans (trace (loop empty_frame_received))
     = scans (trace empty_frame_received) ++ [(0, 1)].
Proof. repeat split; reflexivity. Qed.

(** ** The verifier on an empty record (C4) *)

(** C4 does not hold of the code.  The stream [02 0a 0d 03] leaves the
    frame [LF CR] in the buffer.  The parser hands the verifier the span
    from offset 1 to offset 1, of length 0, and the verifier reads
    [grp[grp_len - 1]], the byte at offset 0 in front of the span. *)
Theorem verifier_reads_before_empty_record :
  state_ empty_record_received = END_FRAME_RECEIVED
  /\ buf_index_ empty_record_received = 2
  /\ verified (trace (loop empty_record_received)) = [(1, 1)]
  /\ crc_reads (trace (loop empty_record_received)) = [(0, 1); (1, 1)]
  /\ errors (trace (loop empty_record_received)) = [CRC_MISMATCH 32 10].
Proof. repeat split; reflexivity. Qed.

(** ** The frame reader *)

Lemma appended_nil drop r r' :
  buf_index_ r' = buf_index_ r -> appended drop [] r r' [].
Proof.
  intros H. unfold appended. destruct drop; simpl; repeat split;
    try assumption; try lia; congruence.
Qed.

Lemma read_chars_loop_cons drop c received rx j r :
  read_chars_loop drop c (received :: rx) j r
  = if j <? 128 then
      if received =? c then (true, set_uart_rx rx r)
      else if drop then
        read_chars_loop drop c rx ((j + 1) mod 256) (set_uart_rx rx r)
      else if buf_index_ r >=? MAX_BUF_SIZE - 1 then
        (false, set_state OFF
                  (emit (EvLogW INTERNAL_BUFFER_FULL) (set_uart_rx rx r)))
      else
        read_chars_loop drop c rx ((j + 1) mod 256)
          (set_buf_index ((buf_index_ r + 1) mod 2 ^ 32)
             (emit (EvStore (buf_index_ r) received)
                (set_buf (fun a => if a =? buf_index_ r then received
                                   else buf_ r a)
                   (set_uart_rx rx r))))
    else (false, set_uart_rx (received :: rx) r).
Proof. reflexivity. Qed.

Ltac reader_leaf :=
  cbn [read_chars_loop fst snd app length uart_rx set_uart_rx set_state emit
       trace];
  split; [reflexivity|];
  split; [cbn [length]; lia|];
  split; [first [reflexivity|symmetry; apply app_nil_r]|];
  split; [repeat constructor|];
  split; [unfold same_config; repeat split|].

(** A call of the reader: what it consumes and how it ends. *)
Lemma read_chars_loop_spec drop c : forall rx j r,
  0 <= j <= 128 -> 0 <= buf_index_ r ->
  exists consumed evs,
    rx = consumed ++ uart_rx (snd (read_chars_loop drop c rx j r))
    /\ Z.of_nat (length consumed) <= 128 - j
    /\ trace (snd (read_chars_loop drop c rx j r)) = trace r ++ evs
    /\ Forall (fun e => reader_event e = true) evs
    /\ same_config r (snd (read_chars_loop drop c rx j r))
    /\ ((fst (read_chars_loop drop c rx j r) = true
         /\ read_found drop c r (snd (read_chars_loop drop c rx j r))
                       consumed evs)
        \/ (fst (read_chars_loop drop c rx j r) = false
            /\ read_exhausted drop c (128 - j) r
                 (snd (read_chars_loop drop c rx j r)) consumed evs)
        \/ (fst (read_chars_loop drop c rx j r) = false
            /\ read_overflow drop c r
                 (snd (read_chars_loop drop c rx j r)) consumed evs)).
Proof.
  induction rx as [|received rx IH]; intros j r Hj Hidx.
  - (* available() == 0 *)
    exists [], []. reader_leaf.
    right. left. split; [reflexivity|].
    unfold read_exhausted.
    split; [tauto|]. split; [reflexivity|]. split; [reflexivity|].
    split; [right; reflexivity|]. apply appended_nil. reflexivity.
  - rewrite read_chars_loop_cons.
    destruct (j <? 128) eqn:Ej.
    2:{ (* the cap of this invocation is reached *)
        apply Z.ltb_ge in Ej. exists [], []. reader_leaf.
        right. left. split; [reflexivity|].
        unfold read_exhausted.
        split; [tauto|]. split; [reflexivity|]. split; [reflexivity|].
        split; [left; cbn [length]; lia|]. apply appended_nil. reflexivity. }
    apply Z.ltb_lt in Ej.
    assert (Hj1 : (j + 1) mod 256 = j + 1) by (apply Z.mod_small; lia).
    rewrite Hj1.
    destruct (received =? c) eqn:Ec.
    { (* the target byte *)
      apply Z.eqb_eq in Ec. subst received.
      exists [c], []. reader_leaf.
      left. split; [reflexivity|].
      exists []. split; [reflexivity|]. split; [tauto|].
      split; [reflexivity|]. split; [reflexivity|].
      apply appended_nil. reflexivity. }
    apply Z.eqb_neq in Ec.
    destruct drop.
    { (* drop mode *)
      destruct (IH (j + 1) (set_uart_rx rx r) ltac:(lia) Hidx)
        as (consumed & evs & Hrx & Hlen & Htr & Hev & Hcfg & Hout).
      set (res := read_chars_loop true c rx (j + 1) (set_uart_rx rx r)) in *.
      exists (received :: consumed), evs.
      split; [cbn [app]; rewrite <- Hrx; reflexivity|].
      split; [cbn [length]; lia|].
      split; [exact Htr|]. split; [exact Hev|]. split; [exact Hcfg|].
      destruct Hout as [[Hf Hfound]|[[Hf Hex]|[Hf Hov]]].
      - left. split; [exact Hf|].
        destruct Hfound as (before & Hc & Hnb & Hst & Hw & Hap).
        exists (received :: before). rewrite Hc.
        repeat split; try assumption.
        + intros [E|Hin]; [congruence|contradiction].
        + apply Hap.
        + apply Hap.
        + intros; discriminate.
      - right. left. split; [exact Hf|].
        destruct Hex as (Hnc & Hst & Hw & Hend & Hap).
        repeat split; try assumption.
        + intros [E|Hin]; [congruence|contradiction].
        + destruct Hend as [Hend|Hend];
            [left; cbn [length]; lia|right; exact Hend].
        + apply Hap.
        + apply Hap.
        + intros; discriminate.
      - destruct Hov as [Hd _]. discriminate. }
    (* accumulate mode *)
    destruct (buf_index_ r >=? MAX_BUF_SIZE - 1) eqn:Efull.
    { (* Internal buffer is full *)
      rewrite Z.geb_leb in Efull. apply Z.leb_le in Efull.
      exists [received], [EvLogW INTERNAL_BUFFER_FULL]. reader_leaf.
      right. right. split; [reflexivity|]. split; [reflexivity|].
      exists [], received. split; [reflexivity|]. split.
      { intros [E|[]]. congruence. }
      split; [reflexivity|]. split; [reflexivity|].
      split; [|exact Efull].
      unfold appended. cbn [stores flat_map app store_events length buf_index_].
      split; [reflexivity|]. split; [cbn; lia|]. intros _ H. congruence. }
    rewrite Z.geb_leb in Efull. apply Z.leb_gt in Efull.
    set (i := buf_index_ r) in *.
    assert (Hi1 : (i + 1) mod 2 ^ 32 = i + 1).
    { apply Z.mod_small. unfold MAX_BUF_SIZE in Efull. lia. }
    rewrite Hi1.
    match goal with
    | |- context [read_chars_loop false c rx (j + 1) ?a] => set (r1 := a)
    end.
    assert (Hidx1 : buf_index_ r1 = i + 1) by reflexivity.
    destruct (IH (j + 1) r1 ltac:(lia) ltac:(rewrite Hidx1; lia))
      as (consumed & evs & Hrx & Hlen & Htr & Hev & Hcfg & Hout).
    set (res := read_chars_loop false c rx (j + 1) r1) in *.
    exists (received :: consumed), (EvStore i received :: evs).
    split; [cbn [app]; rewrite <- Hrx; reflexivity|].
    split; [cbn [length]; lia|].
    split; [rewrite Htr; unfold r1; cbn [trace emit set_buf set_buf_index
                                           set_uart_rx];
            rewrite <- app_assoc; reflexivity|].
    split; [constructor; [reflexivity|exact Hev]|].
    split; [exact Hcfg|].
    destruct Hout as [[Hf Hfound]|[[Hf Hex]|[Hf Hov]]].
    + left. split; [exact Hf|].
      destruct Hfound as (before & Hc & Hnb & Hst & Hw & Hs & Hi & Hb).
      exists (received :: before). rewrite Hc.
      split; [reflexivity|]. split.
      { intros [E|Hin]; [congruence|contradiction]. }
      split; [exact Hst|]. split; [exact Hw|].
      unfold appended. cbn [stores flat_map app store_events].
      fold (stores evs). rewrite Hs, Hi, Hidx1.
      fold i. split; [reflexivity|]. split; [cbn [length]; lia|].
      intros _ _. cbn [length].
      destruct before as [|b0 before'].
      * cbn [length]. unfold MAX_BUF_SIZE in *. lia.
      * specialize (Hb eq_refl ltac:(discriminate)). rewrite Hidx1 in Hb.
        cbn [length] in *. lia.
    + right. left. split; [exact Hf|].
      destruct Hex as (Hnc & Hst & Hw & Hend & Hs & Hi & Hb).
      split.
      { intros [E|Hin]; [congruence|contradiction]. }
      split; [exact Hst|]. split; [exact Hw|].
      split.
      { destruct Hend as [Hend|Hend];
          [left; cbn [length]; lia|right; exact Hend]. }
      unfold appended. cbn [stores flat_map app store_events].
      fold (stores evs). rewrite Hs, Hi, Hidx1.
      fold i. split; [reflexivity|]. split; [cbn [length]; lia|].
      intros _ _. cbn [length].
      destruct consumed as [|b0 consumed'].
      * cbn [length]. unfold MAX_BUF_SIZE in *. lia.
      * specialize (Hb eq_refl ltac:(discriminate)). rewrite Hidx1 in Hb.
        cbn [length] in *. lia.
    + right. right. split; [exact Hf|]. split; [reflexivity|].
      destruct Hov as (_ & before & x & Hc & Hnc & Hst & Hw & (Hs & Hi & Hb) & Hfull).
      exists (received :: before), x. rewrite Hc.
      split; [reflexivity|]. split.
      { rewrite <- Hc. intros [E|Hin]; [congruence|contradiction]. }
      split; [exact Hst|]. split; [exact Hw|].
      split; [|exact Hfull].
      unfold appended. cbn [stores flat_map app store_events].
      fold (stores evs). rewrite Hs, Hi, Hidx1.
      fold i. split; [reflexivity|]. split; [cbn [length]; lia|].
      intros _ _. cbn [length].
      destruct before as [|b0 before'].
      * cbn [length]. unfold MAX_BUF_SIZE in *. lia.
      * specialize (Hb eq_refl ltac:(discriminate)). rewrite Hidx1 in Hb.
        cbn [length] in *. lia.
Qed.

Lemma read_chars_until_spec drop c r :
  0 <= buf_index_ r ->
  exists consumed evs,
    uart_rx r = consumed ++ uart_rx (snd (read_chars_until_ drop c r))
    /\ Z.of_nat (length consumed) <= 128
    /\ trace (snd (read_chars_until_ drop c r)) = trace r ++ evs
    /\ Forall (fun e => reader_event e = true) evs
    /\ same_config r (snd (read_chars_until_ drop c r))
    /\ ((fst (read_chars_until_ drop c r) = true
         /\ read_found drop c r (snd (read_chars_until_ drop c r)) consumed evs)
        \/ (fst (read_chars_until_ drop c r) = false
            /\ read_exhausted drop c 128 r
                 (snd (read_chars_until_ drop c r)) consumed evs)
        \/ (fst (read_chars_until_ drop c r) = false
            /\ read_overflow drop c r
                 (snd (read_chars_until_ drop c r)) consumed evs)).
Proof.
  intros Hidx. unfold read_chars_until_.
  destruct (read_chars_loop_spec drop c (uart_rx r) 0 r ltac:(lia) Hidx)
    as (consumed & evs & H).
  exists consumed, evs. replace (128 - 0) with 128 in H by lia. exact H.
Qed.

(** ** C8 *)

(** C8.  One call of [read_chars_until_] takes at most 128 bytes from the
    UART, in order.  It returns [true] exactly when it has read the target
    byte, and then the target is the last byte it took: it is consumed, it
    is not stored, the bytes before it are stored (dropped in drop mode)
    and the state is unchanged.  When it returns [false] the target byte is
    not among the bytes taken, and either 128 bytes were taken, or the UART
    has no more, or the buffer was full and the warning was logged; unless
    the buffer was full the state is unchanged. *)
Theorem read_until_one_invocation :
  forall (drop : bool) (c : Z) (r : Mk2PVRouter),
    0 <= buf_index_ r ->
    exists consumed evs,
      uart_rx r = consumed ++ uart_rx (snd (read_chars_until_ drop c r))
      /\ (length consumed <= 128)%nat
      /\ trace (snd (read_chars_until_ drop c r)) = trace r ++ evs
      /\ (fst (read_chars_until_ drop c r) = true ->
          exists before,
            consumed = before ++ [c] /\ ~ In c before
            /\ stores evs
               = (if drop then [] else store_events (buf_index_ r) before)
            /\ state_ (snd (read_chars_until_ drop c r)) = state_ r)
      /\ (fst (read_chars_until_ drop c r) = false ->
          ~ In c consumed
          /\ (length consumed = 128%nat
              \/ uart_rx (snd (read_chars_until_ drop c r)) = []
              \/ warnings evs = [INTERNAL_BUFFER_FULL])
          /\ (warnings evs = [] ->
              state_ (snd (read_chars_until_ drop c r)) = state_ r)).
Proof.
  intros drop c r Hidx.
  destruct (read_chars_until_spec drop c r Hidx)
    as (consumed & evs & Hrx & Hlen & Htr & _ & _ & Hout).
  exists consumed, evs.
  split; [exact Hrx|]. split; [lia|]. split; [exact Htr|].
  destruct Hout as [[Hf Hfound]|[[Hf Hex]|[Hf Hov]]].
  - split; [|rewrite Hf; discriminate]. intros _.
    destruct Hfound as (before & Hc & Hnb & Hst & _ & Hs & _).
    exists before. repeat split; assumption.
  - split; [rewrite Hf; discriminate|]. intros _.
    destruct Hex as (Hnc & Hst & _ & Hend & _).
    split; [exact Hnc|]. split; [|intros _; exact Hst].
    destruct Hend as [Hend|Hend]; [left; lia|right; left; exact Hend].
  - split; [rewrite Hf; discriminate|]. intros _.
    destruct Hov as (_ & before & x & Hc & Hnc & _ & Hw & _).
    split; [exact Hnc|]. split; [right; right; exact Hw|].
    rewrite Hw. discriminate.
Qed.

Lemma read_until_one_invocation_witness :
  exists consumed evs,
    uart_rx (reader_router 5 [65; 66; 3; 67])
    = consumed
        ++ uart_rx (snd (read_chars_until_ false END_FRAME
                           (reader_router 5 [65; 66; 3; 67])))
    /\ (length consumed <= 128)%nat
    /\ trace (snd (read_chars_until_ false END_FRAME
                     (reader_router 5 [65; 66; 3; 67])))
       = trace (reader_router 5 [65; 66; 3; 67]) ++ evs
    /\ stores evs = [(5, 65); (6, 66)].
Proof.
  destruct (read_until_one_invocation false END_FRAME
              (reader_router 5 [65; 66; 3; 67]))
    as (consumed & evs & Hrx & Hlen & Htr & Hfound & _).
  - simpl. lia.
  - exists consumed, evs. split; [exact Hrx|]. split; [exact Hlen|].
    split; [exact Htr|].
    assert (E : evs = trace (snd (read_chars_until_ false END_FRAME
                                    (reader_router 5 [65; 66; 3; 67]))))
      by (rewrite Htr; reflexivity).
    rewrite E. reflexivity.
Defined.

(** ** The fill length *)

Lemma store_events_bounds bs : forall i,
  Forall (fun s => i <= fst s < i + Z.of_nat (length bs)) (store_events i bs).
Proof.
  induction bs as [|b bs IH]; intros i; simpl store_events; constructor.
  - cbn [fst length]. lia.
  - eapply Forall_impl; [|apply (IH (i + 1))].
    intros s Hs. cbn beta in Hs. cbn beta. cbn [length]. lia.
Qed.

Lemma appended_fill drop bs r r' evs :
  0 <= buf_index_ r ->
  appended drop bs r r' evs ->
  buf_index_ r <= buf_index_ r' <= Z.max (buf_index_ r) (MAX_BUF_SIZE - 1)
  /\ Forall store_in_bounds (stores evs).
Proof.
  intros Hidx (Hs & Hi & Hb). destruct drop.
  - rewrite Hs, Hi. split; [lia|constructor].
  - rewrite Hs, Hi. destruct bs as [|b bs].
    + simpl. split; [lia|constructor].
    + specialize (Hb eq_refl ltac:(discriminate)). split; [lia|].
      eapply Forall_impl; [|apply store_events_bounds].
      intros s Hsr. cbn beta in Hsr. unfold store_in_bounds.
      cbn [length] in *. lia.
Qed.

Lemma read_chars_until_fill drop c r :
  0 <= buf_index_ r ->
  buf_index_ r <= buf_index_ (snd (read_chars_until_ drop c r))
               <= Z.max (buf_index_ r) (MAX_BUF_SIZE - 1)
  /\ exists evs,
       trace (snd (read_chars_until_ drop c r)) = trace r ++ evs
       /\ Forall store_in_bounds (stores evs)
       /\ Forall (fun e => reader_event e = true) evs.
Proof.
  intros Hidx.
  destruct (read_chars_until_spec drop c r Hidx)
    as (consumed & evs & _ & _ & Htr & Hev & _ & Hout).
  assert (Hap : exists bs,
             appended drop bs r (snd (read_chars_until_ drop c r)) evs).
  { destruct Hout as [[_ Hfound]|[[_ Hex]|[_ Hov]]].
    - destruct Hfound as (before & _ & _ & _ & _ & Hap). exists before. exact Hap.
    - destruct Hex as (_ & _ & _ & _ & Hap). exists consumed. exact Hap.
    - destruct Hov as (Hd & before & x & _ & _ & _ & _ & Hap & _).
      subst drop. exists before. exact Hap. }
  destruct Hap as (bs & Hap).
  destruct (appended_fill drop bs r _ evs Hidx Hap) as [Hb Hs].
  split; [exact Hb|]. exists evs. repeat split; assumption.
Qed.

Lemma loop_fill r :
  0 <= buf_index_ r ->
  buf_index_ r <= buf_index_ (loop r) <= Z.max (buf_index_ r) (MAX_BUF_SIZE - 1)
  /\ exists evs,
       trace (loop r) = trace r ++ evs /\ Forall store_in_bounds (stores evs).
Proof.
  intros Hidx. unfold loop. destruct (state_ r) eqn:Est.
  - split; [lia|]. exists []. rewrite app_nil_r. split; [reflexivity|constructor].
  - destruct (read_chars_until_fill true START_FRAME r Hidx)
      as (Hb & evs & Htr & Hs & _).
    destruct (read_chars_until_ true START_FRAME r) as [found r'].
    cbn [snd] in *.
    destruct found; cbn [buf_index_ trace set_state];
      (split; [exact Hb|exists evs; split; assumption]).
  - destruct (read_chars_until_fill false END_FRAME r Hidx)
      as (Hb & evs & Htr & Hs & _).
    destruct (read_chars_until_ false END_FRAME r) as [found r'].
    cbn [snd] in *.
    destruct found; cbn [buf_index_ trace set_state];
      (split; [exact Hb|exists evs; split; assumption]).
  - destruct (parse_frame_total r) as (r' & pubs & Hp & G).
    rewrite Hp. cbn [buf_index_ trace set_state].
    destruct G as [F (evs & Htr & _ & _ & Hs & _)].
    destruct F as (_ & _ & _ & _ & Fidx & _).
    split; [lia|]. exists evs. split; [exact Htr|].
    rewrite Hs. constructor.
Qed.

Lemma step_fill r r' :
  step r r' ->
  0 <= buf_index_ r ->
  (buf_index_ r' = 0
   \/ buf_index_ r <= buf_index_ r' <= Z.max (buf_index_ r) (MAX_BUF_SIZE - 1))
  /\ exists evs,
       trace r' = trace r ++ evs /\ Forall store_in_bounds (stores evs).
Proof.
  intros Hstep Hidx. destruct Hstep.
  - split; [right; simpl; lia|].
    exists []. simpl. rewrite app_nil_r. split; [reflexivity|constructor].
  - unfold update. destruct (state_ r); simpl.
    + split; [left; reflexivity|].
      exists []. rewrite app_nil_r. split; [reflexivity|constructor].
    + split; [right; lia|].
      exists []. rewrite app_nil_r. split; [reflexivity|constructor].
    + split; [right; lia|].
      exists []. rewrite app_nil_r. split; [reflexivity|constructor].
    + split; [right; lia|].
      exists []. rewrite app_nil_r. split; [reflexivity|constructor].
  - destruct (loop_fill r Hidx) as [Hb He]. split; [right; exact Hb|exact He].
  - split; [right; simpl; lia|].
    exists []. simpl. rewrite app_nil_r. split; [reflexivity|constructor].
  - split; [right; simpl; lia|].
    exists []. simpl. rewrite app_nil_r. split; [reflexivity|constructor].
Qed.

(** ** C9 *)

(** C9.  Setup, update, loop, registering a listener and the arrival of
    bytes keep a fill length that is within the capacity within the
    capacity, and so does the frame reader on its own; every store into
    [buf_] they make is at an index from 0 to [MAX_BUF_SIZE - 1].  In every
    state that the component reaches from its construction the fill length
    is at most [MAX_BUF_SIZE - 1] and all stores made so far were inside the
    array. *)
Theorem fill_within_capacity :
  (forall r r' : Mk2PVRouter,
      step r r' ->
      0 <= buf_index_ r <= MAX_BUF_SIZE ->
      0 <= buf_index_ r' <= MAX_BUF_SIZE
      /\ exists evs, trace r' = trace r ++ evs
                     /\ Forall store_in_bounds (stores evs))
  /\ (forall (drop : bool) (c : Z) (r : Mk2PVRouter),
         0 <= buf_index_ r <= MAX_BUF_SIZE ->
         0 <= buf_index_ (snd (read_chars_until_ drop c r)) <= MAX_BUF_SIZE
         /\ exists evs,
              trace (snd (read_chars_until_ drop c r)) = trace r ++ evs
              /\ Forall store_in_bounds (stores evs))
  /\ (forall r : Mk2PVRouter,
         reachable r ->
         0 <= buf_index_ r <= MAX_BUF_SIZE - 1
         /\ Forall store_in_bounds (stores (trace r))).
Proof.
  split; [|split].
  - intros r r' Hstep Hidx.
    destruct (step_fill r r' Hstep ltac:(lia)) as [Hb He].
    split; [|exact He]. unfold MAX_BUF_SIZE in *. lia.
  - intros drop c r Hidx.
    destruct (read_chars_until_fill drop c r ltac:(lia)) as (Hb & evs & Htr & Hs & _).
    split; [unfold MAX_BUF_SIZE in *; lia|].
    exists evs. split; assumption.
  - intros r Hreach. induction Hreach as [buf0 tag0 val0 rx|r r' Hreach IH Hstep].
    + simpl. split; [unfold MAX_BUF_SIZE; lia|constructor].
    + destruct IH as [Hidx Hst].
      destruct (step_fill r r' Hstep ltac:(lia)) as [Hb (evs & Htr & Hs)].
      split; [unfold MAX_BUF_SIZE in *; lia|].
      rewrite Htr, stores_app. apply Forall_app. split; assumption.
Qed.

Lemma fill_within_capacity_witness :
  0 <= buf_index_ (loop (reader_router 1046 [65; 66; 67])) <= MAX_BUF_SIZE
  /\ exists evs,
       trace (loop (reader_router 1046 [65; 66; 67]))
       = trace (reader_router 1046 [65; 66; 67]) ++ evs
       /\ Forall store_in_bounds (stores evs).
Proof.
  destruct fill_within_capacity as (Hstep & _ & _).
  apply (Hstep (reader_router 1046 [65; 66; 67])).
  - apply step_loop.
  - simpl. unfold MAX_BUF_SIZE. lia.
Defined.

(** ** Streams *)

Lemma split_at_first (c : Z) a : forall a' b b',
  a ++ c :: b = a' ++ c :: b' -> ~ In c a -> ~ In c a' -> a = a' /\ b = b'.
Proof.
  induction a as [|x a IH]; intros [|y a'] b b' H Ha Ha'; simpl in *.
  - inversion H. split; reflexivity.
  - inversion H; subst y. exfalso. apply Ha'. left. reflexivity.
  - inversion H; subst x. exfalso. apply Ha. left. reflexivity.
  - inversion H; subst y. destruct (IH a' b b') as [E1 E2]; try tauto.
    subst. split; reflexivity.
Qed.

Lemma clean_prefix (c : Z) consumed : forall rx' a b,
  consumed ++ rx' = a ++ c :: b -> ~ In c consumed ->
  exists a', a = consumed ++ a' /\ rx' = a' ++ c :: b.
Proof.
  induction consumed as [|x consumed IH]; intros rx' a b H Hc; simpl in *.
  - exists a. split; [reflexivity|exact H].
  - destruct a as [|y a]; simpl in H.
    + inversion H; subst x. exfalso. apply Hc. left. reflexivity.
    + inversion H; subst y. destruct (IH rx' a b) as (a' & E1 & E2); try tauto.
      exists a'. subst. split; reflexivity.
Qed.

Lemma target_behind (c : Z) before : forall rx' body rest,
  before ++ c :: rx' = body ++ rest -> ~ In c body ->
  (length body <= length before)%nat.
Proof.
  induction before as [|x before IH]; intros rx' body rest H Hc.
  - destruct body as [|y body]; [simpl; lia|].
    simpl in H. inversion H; subst y. exfalso. apply Hc. left. reflexivity.
  - destruct body as [|y body]; [simpl; lia|].
    simpl in H. inversion H; subst y. simpl.
    apply le_n_S. apply (IH rx' body rest); [assumption|].
    intros Hin. apply Hc. right. exact Hin.
Qed.

Lemma short_prefix (consumed : list Z) : forall rx' body rest,
  consumed ++ rx' = body ++ rest -> (length consumed <= length body)%nat ->
  exists body', body = consumed ++ body' /\ rx' = body' ++ rest.
Proof.
  induction consumed as [|x consumed IH]; intros rx' body rest H Hl; simpl in *.
  - exists body. split; [reflexivity|exact H].
  - destruct body as [|y body]; [simpl in Hl; lia|].
    simpl in H, Hl. inversion H; subst y.
    destruct (IH rx' body rest) as (body' & E1 & E2); [assumption|lia|].
    exists body'. subst. split; reflexivity.
Qed.

Lemma loops_add n : forall m r, loops (n + m) r = loops m (loops n r).
Proof. induction n as [|n IH]; intros m r; simpl; [reflexivity|apply IH]. Qed.

Lemma loops_off r : state_ r = OFF -> forall m, loops m r = r.
Proof.
  intros H m. induction m as [|m IH]; [reflexivity|].
  simpl. unfold loop at 1. rewrite H. exact IH.
Qed.

Lemma reader_events_parse_nothing evs :
  Forall (fun e => reader_event e = true) evs ->
  scans evs = [] /\ verified evs = [] /\ published evs = []
  /\ delivered evs = [] /\ crc_reads evs = [].
Proof.
  induction 1 as [|e evs He _ IH]; [repeat split|].
  destruct e; try discriminate; simpl; exact IH.
Qed.

(** In state ON the reader drops the bytes in front of the start marker. *)
Lemma start_marker_reached k : forall noise r tail,
  (length noise <= k)%nat ->
  state_ r = ON -> 0 <= buf_index_ r ->
  uart_rx r = noise ++ START_FRAME :: tail ->
  ~ In START_FRAME noise ->
  exists n,
    state_ (loops n r) = START_FRAME_RECEIVED
    /\ uart_rx (loops n r) = tail
    /\ buf_index_ (loops n r) = buf_index_ r
    /\ (exists evs, trace (loops n r) = trace r ++ evs
                    /\ Forall (fun e => reader_event e = true) evs
                    /\ warnings evs = [])
    /\ (forall m, (m < n)%nat -> state_ (loops m r) = ON).
Proof.
  induction k as [|k IH]; intros noise r tail Hk Hst Hidx Hrx Hnoise;
    destruct (read_chars_until_spec true START_FRAME r Hidx)
      as (consumed & evs & Hcons & Hlen & Htr & Hev & _ & Hout);
    assert (Hloop : loop r
                    = if fst (read_chars_until_ true START_FRAME r)
                      then set_state START_FRAME_RECEIVED
                             (snd (read_chars_until_ true START_FRAME r))
                      else snd (read_chars_until_ true START_FRAME r))
      by (unfold loop; rewrite Hst;
          destruct (read_chars_until_ true START_FRAME r); reflexivity);
    destruct Hout as [[Hf Hfound]|[[Hf Hex]|[_ [Hd _]]]]; try discriminate.
  - (* found at once *)
    destruct Hfound as (before & Hc & Hnb & _ & Hw & _ & Hi & _).
    rewrite Hf in Hloop. rewrite Hrx, Hc, <- app_assoc in Hcons. simpl in Hcons.
    destruct (split_at_first _ _ _ _ _ Hcons Hnoise Hnb) as [_ Htail].
    exists 1%nat. simpl loops. rewrite Hloop. cbn [state_ uart_rx buf_index_ trace set_state].
    repeat split; try assumption; try congruence.
    + exists evs. repeat split; assumption.
    + intros m Hm. replace m with O by lia. exact Hst.
  - (* no noise is left, so the marker is read *)
    exfalso. destruct Hex as (Hnc & _ & _ & Hend & _).
    rewrite Hrx in Hcons. symmetry in Hcons.
    destruct (clean_prefix _ _ _ _ _ Hcons Hnc) as (a' & Ea & Erx).
    destruct Hend as [Hend|Hend].
    + rewrite Ea, length_app in Hk. lia.
    + rewrite Hend in Erx. destruct a'; discriminate.
  - destruct Hfound as (before & Hc & Hnb & _ & Hw & _ & Hi & _).
    rewrite Hf in Hloop. rewrite Hrx, Hc, <- app_assoc in Hcons. simpl in Hcons.
    destruct (split_at_first _ _ _ _ _ Hcons Hnoise Hnb) as [_ Htail].
    exists 1%nat. simpl loops. rewrite Hloop. cbn [state_ uart_rx buf_index_ trace set_state].
    repeat split; try assumption; try congruence.
    + exists evs. repeat split; assumption.
    + intros m Hm. replace m with O by lia. exact Hst.
  - (* 128 bytes of noise dropped, the rest later *)
    destruct Hex as (Hnc & Hst' & Hw & Hend & _ & Hi & _).
    rewrite Hf in Hloop. rewrite Hrx in Hcons. symmetry in Hcons.
    destruct (clean_prefix _ _ _ _ _ Hcons Hnc) as (a' & Ea & Erx).
    destruct Hend as [Hend|Hend].
    2:{ rewrite Hend in Erx. destruct a'; discriminate. }
    destruct (IH a' (loop r) tail) as (n & Hs & Hu & Hb & (evs' & Htr' & Hev' & Hw') & Hmid).
    + rewrite Ea, length_app in Hk. lia.
    + rewrite Hloop, Hst'. exact Hst.
    + rewrite Hloop, Hi. exact Hidx.
    + rewrite Hloop. exact Erx.
    + intros Hin. apply Hnoise. rewrite Ea. apply in_or_app. right. exact Hin.
    + exists (S n). simpl loops. repeat split; try assumption.
      * rewrite Hb, Hloop, Hi. reflexivity.
      * exists (evs ++ evs'). rewrite Htr', Hloop, Htr, app_assoc.
        repeat split.
        -- apply Forall_app. split; assumption.
        -- rewrite warnings_app, Hw, Hw'. reflexivity.
      * intros m Hm. destruct m as [|m]; [exact Hst|].
        simpl. apply Hmid. lia.
Qed.

(** ** The bytes behind the fill length do not matter *)

Lemma observe_app t1 t2 : observe (t1 ++ t2) = observe t1 ++ observe t2.
Proof. apply filter_app. Qed.

Lemma memchr_from_agree mem1 mem2 c n : forall s,
  (forall i, s <= i < s + Z.of_nat n -> mem1 i = mem2 i) ->
  memchr_from mem1 c s n = memchr_from mem2 c s n.
Proof.
  induction n as [|n IH]; intros s H; [reflexivity|]. simpl.
  rewrite (H s) by lia. destruct (mem2 s =? c); [reflexivity|].
  apply IH. intros i Hi. apply H. lia.
Qed.

Lemma memchr_agree mem1 mem2 s c n :
  (forall i, s <= i < s + n -> mem1 i = mem2 i) ->
  memchr mem1 s c n = memchr mem2 s c n.
Proof.
  intros H. unfold memchr. apply memchr_from_agree. intros i Hi. apply H. lia.
Qed.

Lemma crc_sum_agree mem1 mem2 grp count : forall i acc,
  (forall a, grp + i <= a < grp + i + Z.of_nat count -> mem1 a = mem2 a) ->
  crc_sum mem1 grp i count acc = crc_sum mem2 grp i count acc.
Proof.
  induction count as [|count IH]; intros i acc H; [reflexivity|]. simpl.
  rewrite (H (grp + i)) by lia. apply IH. intros a Ha. apply H. lia.
Qed.

Lemma strncpy_bytes_agree mem1 mem2 n : forall s,
  (forall i, s <= i < s + Z.of_nat n -> mem1 i = mem2 i) ->
  strncpy_bytes mem1 s n = strncpy_bytes mem2 s n.
Proof.
  induction n as [|n IH]; intros s H; [reflexivity|]. simpl.
  rewrite (H s) by lia. destruct (mem2 s =? 0); [reflexivity|].
  f_equal. apply IH. intros i Hi. apply H. lia.
Qed.

Lemma get_field_agree mem1 mem2 dest s e m :
  (forall i, s <= i < e -> mem1 i = mem2 i) ->
  get_field mem1 dest s e m = get_field mem2 dest s e m.
Proof.
  intros H. unfold get_field.
  rewrite (memchr_agree mem1 mem2) by (intros i Hi; apply H; lia).
  destruct (memchr mem2 s TAB (e - s)) as [p|] eqn:E; [|reflexivity].
  apply memchr_Some in E. destruct (p - s >=? m); [reflexivity|].
  unfold strncpy. rewrite (strncpy_bytes_agree mem1 mem2); [reflexivity|].
  intros i Hi. apply H. lia.
Qed.

(** The search for the line feed finds the same line feed below the fill
    length, or none below the fill length, whatever is behind. *)
Lemma line_feed_agree mem1 mem2 fill f n :
  0 <= f ->
  (forall i, 0 <= i < fill -> mem1 i = mem2 i) ->
  (exists q, q < fill /\ memchr mem1 f LINE_FEED n = Some q
             /\ memchr mem2 f LINE_FEED n = Some q)
  \/ ((memchr mem1 f LINE_FEED n = None
       \/ exists q, memchr mem1 f LINE_FEED n = Some q /\ fill <= q)
      /\ (memchr mem2 f LINE_FEED n = None
          \/ exists q, memchr mem2 f LINE_FEED n = Some q /\ fill <= q)).
Proof.
  intros Hf Hag.
  assert (Hcarry : forall ma mb q,
             (forall i, 0 <= i < fill -> ma i = mb i) ->
             memchr ma f LINE_FEED n = Some q -> q < fill ->
             memchr mb f LINE_FEED n = Some q).
  { intros ma mb q Hab Hq Hlt. apply memchr_Some in Hq.
    destruct Hq as (Hr & Hv & Hfirst).
    apply memchr_first; [exact Hr| |].
    - rewrite <- Hab by lia. exact Hv.
    - intros i Hi. rewrite <- Hab by lia. apply Hfirst. exact Hi. }
  destruct (memchr mem1 f LINE_FEED n) as [q1|] eqn:E1.
  - destruct (Z_lt_ge_dec q1 fill) as [Hlt|Hge].
    + left. exists q1. split; [exact Hlt|]. split; [reflexivity|].
      apply (Hcarry mem1 mem2); assumption.
    + right. split; [right; exists q1; split; [reflexivity|lia]|].
      destruct (memchr mem2 f LINE_FEED n) as [q2|] eqn:E2; [|left; reflexivity].
      destruct (Z_lt_ge_dec q2 fill) as [Hlt2|Hge2].
      * assert (Hback : memchr mem1 f LINE_FEED n = Some q2).
        { apply (Hcarry mem2 mem1); try assumption.
          intros i Hi. symmetry. apply Hag. exact Hi. }
        rewrite E1 in Hback. inversion Hback. lia.
      * right. exists q2. split; [reflexivity|lia].
  - right. split; [left; reflexivity|].
    destruct (memchr mem2 f LINE_FEED n) as [q2|] eqn:E2; [|left; reflexivity].
    destruct (Z_lt_ge_dec q2 fill) as [Hlt2|Hge2].
    + assert (Hback : memchr mem1 f LINE_FEED n = Some q2).
      { apply (Hcarry mem2 mem1); try assumption.
        intros i Hi. symmetry. apply Hag. exact Hi. }
      rewrite E1 in Hback. discriminate.
    + right. exists q2. split; [reflexivity|lia].
Qed.

Lemma alike_emit e r1 r2 : alike r1 r2 -> alike (emit e r1) (emit e r2).
Proof.
  intros (A1 & A2 & A3 & A4 & A5 & A6 & A7 & A8 & A9 & A10).
  unfold alike. cbn [mk2pvrouter_listeners_ baud_rate_ checksum_area_end_
                     buf_index_ tag_ val_ state_ uart_rx buf_ trace emit].
  rewrite !observe_app, A10. repeat split; assumption.
Qed.

Lemma alike_emit_scan a b c d r1 r2 :
  alike r1 r2 -> alike (emit (EvScan a b) r1) (emit (EvScan c d) r2).
Proof.
  intros (A1 & A2 & A3 & A4 & A5 & A6 & A7 & A8 & A9 & A10).
  unfold alike. cbn [mk2pvrouter_listeners_ baud_rate_ checksum_area_end_
                     buf_index_ tag_ val_ state_ uart_rx buf_ trace emit].
  rewrite !observe_app, A10. repeat split; assumption.
Qed.

Lemma alike_set_tag t r1 r2 : alike r1 r2 -> alike (set_tag t r1) (set_tag t r2).
Proof.
  intros (A1 & A2 & A3 & A4 & A5 & A6 & A7 & A8 & A9 & A10).
  unfold alike. cbn. repeat split; assumption.
Qed.

Lemma alike_set_val v r1 r2 : alike r1 r2 -> alike (set_val v r1) (set_val v r2).
Proof.
  intros (A1 & A2 & A3 & A4 & A5 & A6 & A7 & A8 & A9 & A10).
  unfold alike. cbn. repeat split; assumption.
Qed.

Lemma alike_set_state s r1 r2 :
  alike r1 r2 -> alike (set_state s r1) (set_state s r2).
Proof.
  intros (A1 & A2 & A3 & A4 & A5 & A6 & A7 & A8 & A9 & A10).
  unfold alike. cbn. repeat split; assumption.
Qed.

Lemma alike_publish_loop tag val elements : forall i r1 r2,
  alike r1 r2 ->
  alike (publish_loop tag val elements i r1) (publish_loop tag val elements i r2).
Proof.
  induction elements as [|t rest IH]; intros i r1 r2 H; simpl; [exact H|].
  destruct (str_eqb tag t); simpl; apply IH; [|exact H].
  apply alike_emit. exact H.
Qed.

Lemma alike_publish tag val r1 r2 :
  alike r1 r2 -> alike (publish_value_ tag val r1) (publish_value_ tag val r2).
Proof.
  intros H. unfold publish_value_.
  replace (mk2pvrouter_listeners_ r1) with (mk2pvrouter_listeners_ r2)
    by (symmetry; apply H).
  apply alike_publish_loop. apply alike_emit. exact H.
Qed.

Lemma alike_check_crc r1 r2 grp grp_end :
  alike r1 r2 ->
  1 <= grp <= grp_end -> grp_end <= buf_index_ r1 ->
  0 <= checksum_area_end_ r1 ->
  fst (check_crc_ r1 grp grp_end) = fst (check_crc_ r2 grp grp_end)
  /\ alike (snd (check_crc_ r1 grp grp_end)) (snd (check_crc_ r2 grp grp_end)).
Proof.
  intros H Hgrp Hend Hk.
  pose proof H as (A1 & A2 & A3 & A4 & A5 & A6 & A7 & A8 & A9 & A10).
  assert (Hraw : buf_ r1 (grp + (grp_end - grp - 1))
                 = buf_ r2 (grp + (grp_end - grp - 1))) by (apply A9; lia).
  assert (Hcalc : calculate_crc_ r1 grp (grp_end - grp)
                  = calculate_crc_ r2 grp (grp_end - grp)).
  { unfold calculate_crc_. rewrite <- A3.
    rewrite (crc_sum_agree (buf_ r1) (buf_ r2)); [reflexivity|].
    intros a Ha. apply A9. lia. }
  unfold check_crc_.
  cbn [buf_ emit checksum_area_end_]. rewrite !calculate_crc_emit.
  rewrite <- Hraw, <- Hcalc, <- A3.
  destruct (negb _); cbn [fst snd]; (split; [reflexivity|]);
    repeat apply alike_emit; exact H.
Qed.

(** The body of a round. *)
Lemma parse_group_alike r1 r2 s :
  alike r1 r2 -> 1 <= s <= buf_index_ r1 -> 0 <= checksum_area_end_ r1 ->
  match parse_group r1 s, parse_group r2 s with
  | Leave a, Leave b => alike a b
  | Again a fa, Again b fb => fa = fb /\ alike a b
  | _, _ => False
  end.
Proof.
  intros H Hs Hk.
  pose proof H as (A1 & A2 & A3 & A4 & A5 & A6 & A7 & A8 & A9 & A10).
  unfold parse_group. cbv zeta. rewrite <- A4.
  cbn [buf_index_ buf_ emit].
  rewrite (memchr_agree (buf_ r1) (buf_ r2) s)
    by (intros i Hi; apply A9; lia).
  destruct (memchr (buf_ r2) s CARRIAGE_RETURN (buf_index_ r1 - s))
    as [grp_end|] eqn:Ecr.
  2:{ apply alike_emit. apply alike_emit. exact H. }
  apply memchr_Some in Ecr. destruct Ecr as (Hcr & _ & _).
  set (e := EvScan s (memchr_examined_end s (buf_index_ r1 - s) (Some grp_end))).
  assert (H2 : alike (emit e r1) (emit e r2)) by (apply alike_emit; exact H).
  destruct (alike_check_crc (emit e r1) (emit e r2) s grp_end H2
              ltac:(lia) ltac:(cbn [buf_index_ emit]; lia) Hk) as [Hok H3].
  destruct (check_crc_grows (emit e r1) s grp_end) as ([F3 _] & _ & _).
  destruct F3 as (_ & _ & _ & _ & Hfill3 & _). cbn [buf_index_ emit] in Hfill3.
  destruct (check_crc_ (emit e r1) s grp_end) as [ok1 r31].
  destruct (check_crc_ (emit e r2) s grp_end) as [ok2 r32].
  cbn [fst snd] in Hok, H3, Hfill3. subst ok2.
  destruct ok1; cbn [negb]; [|split; [reflexivity|exact H3]].
  pose proof H3 as (B1 & B2 & B3 & B4 & B5 & B6 & B7 & B8 & B9 & B10).
  (* the tag *)
  rewrite <- B5.
  rewrite (get_field_agree (buf_ r31) (buf_ r32))
    by (intros i Hi; apply B9; lia).
  pose proof (get_field_nonneg (buf_ r32) (tag_ r31) s grp_end MAX_TAG_SIZE)
    as Hn1.
  destruct (get_field (buf_ r32) (tag_ r31) s grp_end MAX_TAG_SIZE)
    as [len1 t]. cbn [fst] in Hn1.
  assert (H4 : alike (set_tag t r31) (set_tag t r32))
    by (apply alike_set_tag; exact H3).
  destruct ((len1 =? 0) || (len1 >=? MAX_TAG_SIZE)).
  { split; [reflexivity|]. apply alike_emit. exact H4. }
  (* the value *)
  cbn [buf_ val_ tag_ set_tag]. rewrite <- B6.
  rewrite (get_field_agree (buf_ r31) (buf_ r32))
    by (intros i Hi; apply B9; lia).
  destruct (get_field (buf_ r32) (val_ r31) (s + (len1 + 1)) grp_end
              MAX_VAL_SIZE) as [len2 v].
  assert (H5 : alike (set_val v (set_tag t r31)) (set_val v (set_tag t r32)))
    by (apply alike_set_val; exact H4).
  cbn [tag_ val_ set_val set_tag].
  destruct ((len2 =? 0) || (len2 >=? MAX_VAL_SIZE)).
  { split; [reflexivity|]. apply alike_emit. exact H5. }
  split; [reflexivity|]. apply alike_publish. exact H5.
Qed.

(** One round of the record scan. *)
Lemma parse_round_alike r1 r2 f :
  alike r1 r2 -> 0 <= f -> 0 <= checksum_area_end_ r1 ->
  match parse_round r1 f, parse_round r2 f with
  | Leave a, Leave b => alike a b
  | Again a fa, Again b fb => fa = fb /\ alike a b
  | _, _ => False
  end.
Proof.
  intros H Hf Hk.
  pose proof H as (A1 & A2 & A3 & A4 & A5 & A6 & A7 & A8 & A9 & A10).
  unfold parse_round. cbv zeta.
  change (buf_index_ (emit ?e r2)) with (buf_index_ r2).
  change (buf_index_ (emit ?e r1)) with (buf_index_ r1).
  change (buf_ (emit ?e r2)) with (buf_ r2).
  change (buf_ (emit ?e r1)) with (buf_ r1).
  rewrite <- A4.
  set (n := (buf_index_ r1 - 1) mod 2 ^ 32).
  destruct (line_feed_agree (buf_ r1) (buf_ r2) (buf_index_ r1) f n Hf A9)
    as [(q & Hq & E1 & E2)|[N1 N2]].
  - rewrite E1, E2.
    assert (Hguard : (q <? buf_index_ r1) = true) by (apply Z.ltb_lt; lia).
    rewrite Hguard. cbn [negb].
    apply memchr_Some in E1. destruct E1 as (Hqr & _ & _).
    apply parse_group_alike.
    + apply alike_emit. exact H.
    + cbn [buf_index_ emit]. lia.
    + exact Hk.
  - (* no line feed below the fill length: the loop ends in both *)
    destruct N1 as [N1|(q1 & N1 & Hq1)]; destruct N2 as [N2|(q2 & N2 & Hq2)];
      rewrite N1, N2;
      repeat match goal with
             | |- context [?q <? buf_index_ r1] =>
                 let E := fresh "E" in
                 destruct (q <? buf_index_ r1) eqn:E;
                 [apply Z.ltb_lt in E; lia|]
             end;
      cbn [negb]; apply alike_emit_scan; exact H.
Qed.

Lemma parse_frame_alike fuel : forall r1 r2 f,
  alike r1 r2 -> 0 <= f -> 0 <= checksum_area_end_ r1 ->
  match parse_frame fuel r1 f, parse_frame fuel r2 f with
  | Some a, Some b => alike a b
  | None, None => True
  | _, _ => False
  end.
Proof.
  induction fuel as [|fuel IH]; intros r1 r2 f H Hf Hk; [exact I|].
  simpl. pose proof (parse_round_alike r1 r2 f H Hf Hk) as Hround.
  pose proof (parse_round_grows r1 f) as Hgrow.
  destruct (parse_round r1 f) as [a|a fa]; destruct (parse_round r2 f) as [b|b fb];
    try contradiction; [exact Hround|].
  destruct Hround as [<- Hab]. destruct Hgrow as ((p & [F _]) & Hlt & _).
  apply IH; [exact Hab|lia|].
  destruct F as (_ & _ & Fk & _). rewrite Fk. exact Hk.
Qed.

(** What [loop] publishes, delivers, verifies and logs from a received
    frame, and the fields it leaves, do not depend on the bytes of [buf_]
    from the fill length on. *)
Lemma loop_ignores_stale_bytes r mem :
  state_ r = END_FRAME_RECEIVED ->
  0 <= checksum_area_end_ r ->
  (forall i, 0 <= i < buf_index_ r -> mem i = buf_ r i) ->
  alike (loop r) (loop (set_buf mem r)).
Proof.
  intros Hst Hk Hmem.
  assert (H : alike r (set_buf mem r)).
  { unfold alike. cbn. repeat split. intros i Hi. symmetry. apply Hmem. exact Hi. }
  unfold loop. cbn [state_ set_buf]. rewrite Hst.
  pose proof (parse_frame_alike (parse_fuel r) r (set_buf mem r) 0 H
                ltac:(lia) Hk) as Hp.
  change (parse_fuel (set_buf mem r)) with (parse_fuel r).
  destruct (parse_frame (parse_fuel r) r 0) as [a|];
    destruct (parse_frame (parse_fuel r) (set_buf mem r) 0) as [b|];
    try contradiction.
  - apply alike_set_state. exact Hp.
  - exact H.
Qed.

Lemma observe_published t : published (observe t) = published t.
Proof.
  induction t as [|e t IH]; [reflexivity|].
  destruct e; simpl; rewrite ?IH; reflexivity.
Qed.

Lemma observe_delivered t : delivered (observe t) = delivered t.
Proof.
  induction t as [|e t IH]; [reflexivity|].
  destruct e; simpl; rewrite ?IH; reflexivity.
Qed.

Lemma observe_errors t : errors (observe t) = errors t.
Proof.
  induction t as [|e t IH]; [reflexivity|].
  destruct e; simpl; rewrite ?IH; reflexivity.
Qed.

(** In state START_FRAME_RECEIVED, more bytes without the end marker than
    the buffer has room for end in the overflow branch. *)
Lemma overflow_reached k : forall body r rest,
  (length body <= k)%nat ->
  state_ r = START_FRAME_RECEIVED ->
  0 <= buf_index_ r <= MAX_BUF_SIZE - 1 ->
  uart_rx r = body ++ rest ->
  ~ In END_FRAME body ->
  MAX_BUF_SIZE - 1 < buf_index_ r + Z.of_nat (length body) ->
  exists n,
    state_ (loops n r) = OFF
    /\ (exists evs, trace (loops n r) = trace r ++ evs
                    /\ Forall (fun e => reader_event e = true) evs
                    /\ warnings evs = [INTERNAL_BUFFER_FULL])
    /\ (forall m, (m < n)%nat -> state_ (loops m r) = START_FRAME_RECEIVED).
Proof.
  induction k as [|k IH]; intros body r rest Hk Hst Hidx Hrx Hbody Hover;
    [lia|].
  destruct (read_chars_until_spec false END_FRAME r ltac:(lia))
    as (consumed & evs & Hcons & Hlen & Htr & Hev & _ & Hout).
  assert (Hloop : loop r
                  = if fst (read_chars_until_ false END_FRAME r)
                    then set_state END_FRAME_RECEIVED
                           (snd (read_chars_until_ false END_FRAME r))
                    else snd (read_chars_until_ false END_FRAME r))
    by (unfold loop; rewrite Hst;
        destruct (read_chars_until_ false END_FRAME r); reflexivity).
  destruct Hout as [[Hf Hfound]|[[Hf Hex]|[Hf Hov]]].
  - (* the end marker cannot be reached: the buffer is full before *)
    exfalso. destruct Hfound as (before & Hc & _ & _ & _ & _ & _ & Hb).
    rewrite Hrx, Hc, <- app_assoc in Hcons. simpl in Hcons. symmetry in Hcons.
    pose proof (target_behind _ _ _ _ _ Hcons Hbody) as Hlb.
    assert (Hne : before <> []) by (intros ->; simpl in Hlb; lia).
    specialize (Hb eq_refl Hne). lia.
  - (* 128 bytes stored, the rest later *)
    destruct Hex as (Hnc & Hst' & Hw & Hend & _ & Hi & Hb).
    rewrite Hf in Hloop. rewrite Hrx in Hcons. symmetry in Hcons.
    assert (Hne : consumed <> []).
    { intros ->. simpl in *. destruct Hend as [Hend|Hend]; [lia|].
      rewrite Hend in Hcons. destruct body; [simpl in Hover; lia|discriminate]. }
    specialize (Hb eq_refl Hne).
    destruct (short_prefix _ _ _ _ Hcons ltac:(lia)) as (body' & Eb & Erx).
    destruct (IH body' (loop r) rest) as (n & Hs & (evs' & Htr' & Hev' & Hw') & Hmid).
    + rewrite Eb, length_app in Hk. destruct consumed; [congruence|].
      simpl in Hk. lia.
    + rewrite Hloop, Hst'. exact Hst.
    + rewrite Hloop, Hi. lia.
    + rewrite Hloop. exact Erx.
    + intros Hin. apply Hbody. rewrite Eb. apply in_or_app. right. exact Hin.
    + rewrite Hloop, Hi. rewrite Eb, length_app in Hover. lia.
    + exists (S n). simpl loops. split; [exact Hs|]. split.
      * exists (evs ++ evs'). rewrite Htr', Hloop, Htr, app_assoc.
        repeat split.
        -- apply Forall_app. split; assumption.
        -- rewrite warnings_app, Hw, Hw'. reflexivity.
      * intros m Hm. destruct m as [|m]; [exact Hst|].
        simpl. apply Hmid. lia.
  - (* Internal buffer full *)
    destruct Hov as (_ & before & x & _ & _ & Hoff & Hw & _).
    rewrite Hf in Hloop.
    exists 1%nat. simpl loops. rewrite Hloop.
    split; [exact Hoff|]. split.
    + exists evs. repeat split; assumption.
    + intros m Hm. replace m with O by lia. exact Hst.
Qed.


(** ** Schedules *)

Lemma only_read_same_trace r r' : trace r' = trace r -> only_read r r'.
Proof.
  intros H. exists []. rewrite app_nil_r. split; [exact H|].
  split; [constructor|reflexivity].
Qed.

Lemma only_read_refl r : only_read r r.
Proof. apply only_read_same_trace. reflexivity. Qed.

Lemma only_read_trans r0 r1 r2 :
  only_read r0 r1 -> only_read r1 r2 -> only_read r0 r2.
Proof.
  intros (e1 & T1 & F1 & W1) (e2 & T2 & F2 & W2). exists (e1 ++ e2).
  rewrite T2, T1, app_assoc. split; [reflexivity|]. split.
  - apply Forall_app. split; assumption.
  - rewrite warnings_app, W1, W2. reflexivity.
Qed.

Lemma only_read_aborted r0 r1 r2 :
  only_read r0 r1 -> aborted r1 r2 -> aborted r0 r2.
Proof.
  intros (e1 & T1 & F1 & W1) (Hoff & e2 & T2 & F2 & W2).
  split; [exact Hoff|]. exists (e1 ++ e2).
  rewrite T2, T1, app_assoc. split; [reflexivity|]. split.
  - apply Forall_app. split; assumption.
  - rewrite warnings_app, W1, W2. reflexivity.
Qed.

(** One call of [loop] on the way through a frame that does not fit. *)
Lemma loop_receiving body rest r future :
  ~ In END_FRAME body ->
  MAX_BUF_SIZE < Z.of_nat (length body) ->
  receiving body rest r future ->
  (receiving body rest (loop r) future /\ only_read r (loop r))
  \/ aborted r (loop r).
Proof.
  intros Hbody Hmore (Hidx & [(Hst & noise & Hrx & Hnoise)
                             |(Hst & body' & Hrx & Hbody' & Hover)]).
  - (* ON: looking for the start marker *)
    destruct (read_chars_until_spec true START_FRAME r ltac:(lia))
      as (consumed & evs & Hcons & Hlen & Htr & Hev & _ & Hout).
    assert (Hloop : loop r
                    = if fst (read_chars_until_ true START_FRAME r)
                      then set_state START_FRAME_RECEIVED
                             (snd (read_chars_until_ true START_FRAME r))
                      else snd (read_chars_until_ true START_FRAME r))
      by (unfold loop; rewrite Hst;
          destruct (read_chars_until_ true START_FRAME r); reflexivity).
    rewrite Hcons, <- app_assoc in Hrx.
    destruct Hout as [[Hf Hfound]|[[Hf Hex]|[_ [Hd _]]]]; try discriminate.
    + destruct Hfound as (before & Hc & Hnb & _ & Hw & _ & Hi & _).
      rewrite Hf in Hloop. rewrite Hc, <- app_assoc in Hrx. simpl in Hrx.
      destruct (split_at_first _ _ _ _ _ Hrx Hnb Hnoise) as [_ Htail].
      left. rewrite Hloop. split.
      * split; [cbn [buf_index_ set_state]; rewrite Hi; exact Hidx|].
        right. split; [reflexivity|]. exists body.
        cbn [uart_rx buf_index_ set_state]. rewrite Hi.
        split; [exact Htail|]. split; [exact Hbody|lia].
      * exists evs. cbn [trace set_state]. repeat split; assumption.
    + destruct Hex as (Hnc & Hst' & Hw & _ & _ & Hi & _).
      rewrite Hf in Hloop.
      destruct (clean_prefix _ _ _ _ _ Hrx Hnc) as (a' & Ea & Erx).
      left. rewrite Hloop. split.
      * split; [rewrite Hi; exact Hidx|].
        left. split; [rewrite Hst'; exact Hst|]. exists a'.
        split; [exact Erx|]. intros Hin. apply Hnoise. rewrite Ea.
        apply in_or_app. right. exact Hin.
      * exists evs. repeat split; assumption.
  - (* START_FRAME_RECEIVED: accumulating *)
    destruct (read_chars_until_spec false END_FRAME r ltac:(lia))
      as (consumed & evs & Hcons & Hlen & Htr & Hev & _ & Hout).
    assert (Hloop : loop r
                    = if fst (read_chars_until_ false END_FRAME r)
                      then set_state END_FRAME_RECEIVED
                             (snd (read_chars_until_ false END_FRAME r))
                      else snd (read_chars_until_ false END_FRAME r))
      by (unfold loop; rewrite Hst;
          destruct (read_chars_until_ false END_FRAME r); reflexivity).
    rewrite Hcons, <- app_assoc in Hrx.
    destruct Hout as [[Hf Hfound]|[[Hf Hex]|[Hf Hov]]].
    + exfalso. destruct Hfound as (before & Hc & _ & _ & _ & _ & _ & Hb).
      rewrite Hc, <- app_assoc in Hrx. simpl in Hrx.
      pose proof (target_behind _ _ _ _ _ Hrx Hbody') as Hlb.
      assert (Hne : before <> []) by (intros ->; simpl in Hlb; lia).
      specialize (Hb eq_refl Hne). lia.
    + destruct Hex as (Hnc & Hst' & Hw & _ & _ & Hi & Hb).
      rewrite Hf in Hloop.
      assert (Hshort : (length consumed <= length body')%nat).
      { destruct consumed as [|x consumed']; [cbn [length]; lia|].
        specialize (Hb eq_refl ltac:(discriminate)). lia. }
      destruct (short_prefix _ _ _ _ Hrx Hshort) as (body'' & Eb & Erx).
      assert (Hfill : buf_index_ r + Z.of_nat (length consumed)
                      <= MAX_BUF_SIZE - 1).
      { destruct consumed as [|x consumed']; [cbn [length]; lia|].
        apply Hb; [reflexivity|discriminate]. }
      left. rewrite Hloop. split.
      * split; [rewrite Hi; lia|].
        right. split; [rewrite Hst'; exact Hst|]. exists body''.
        split; [exact Erx|]. split.
        -- intros Hin. apply Hbody'. rewrite Eb. apply in_or_app. right. exact Hin.
        -- rewrite Hi. rewrite Eb, length_app in Hover. lia.
      * exists evs. repeat split; assumption.
    + destruct Hov as (_ & before & x & _ & _ & Hoff & Hw & _).
      rewrite Hf in Hloop. right. rewrite Hloop.
      split; [exact Hoff|]. exists evs. repeat split; assumption.
Qed.

Lemma receiving_state body rest r future :
  receiving body rest r future ->
  state_ r = ON \/ state_ r = START_FRAME_RECEIVED.
Proof. intros (_ & [(H & _)|(H & _)]); [left|right]; exact H. Qed.

Lemma run_app s1 : forall s2 r, run (s1 ++ s2) r = run s2 (run s1 r).
Proof. induction s1 as [|a s1 IH]; intros s2 r; simpl; [reflexivity|apply IH]. Qed.

Lemma run_loops n r : run (repeat Loop n) r = loops n r.
Proof. revert r. induction n as [|n IH]; intros r; simpl; [reflexivity|apply IH]. Qed.

(** Through a schedule: the frame is aborted at some point of it, or the
    router is still on its way at its end. *)
Lemma run_receiving body rest sched : forall r,
  ~ In END_FRAME body ->
  MAX_BUF_SIZE < Z.of_nat (length body) ->
  receiving body rest r (arrivals sched) ->
  (exists k, (k <= length sched)%nat
             /\ aborted r (run (firstn k sched) r)
             /\ forall j, (j < k)%nat ->
                          state_ (run (firstn j sched) r) = ON
                          \/ state_ (run (firstn j sched) r)
                             = START_FRAME_RECEIVED)
  \/ (receiving body rest (run sched r) []
      /\ only_read r (run sched r)
      /\ forall j, (j <= length sched)%nat ->
                   state_ (run (firstn j sched) r) = ON
                   \/ state_ (run (firstn j sched) r) = START_FRAME_RECEIVED).
Proof.
  induction sched as [|a sched IH]; intros r Hbody Hmore Hrec.
  - right. split; [exact Hrec|]. split; [apply only_read_refl|].
    intros j Hj. rewrite firstn_nil. simpl. eapply receiving_state. exact Hrec.
  - assert (Hnext : (receiving body rest (act a r) (arrivals sched)
                     /\ only_read r (act a r))
                    \/ aborted r (act a r)).
    { destruct a as [received| |]; simpl act; simpl arrivals in Hrec.
      - left. split; [|apply only_read_same_trace; reflexivity].
        destruct Hrec as (Hidx & Hcases). split; [exact Hidx|].
        cbn [state_ uart_rx buf_index_ set_uart_rx].
        rewrite <- !app_assoc. exact Hcases.
      - apply loop_receiving; assumption.
      - left. split; [|unfold update;
                       destruct (receiving_state _ _ _ _ Hrec) as [-> | ->];
                       apply only_read_refl].
        unfold update.
        destruct (receiving_state _ _ _ _ Hrec) as [E|E]; rewrite E; exact Hrec. }
    destruct Hnext as [[Hrec' Hread]|Hab].
    + destruct (IH (act a r) Hbody Hmore Hrec')
        as [(k & Hk & Hab & Hmid)|(Hend & Hread' & Hmid)].
      * left. exists (S k). split; [simpl; lia|]. split.
        -- simpl. eapply only_read_aborted; eassumption.
        -- intros j Hj. destruct j as [|j].
           ++ simpl. eapply receiving_state. exact Hrec.
           ++ simpl. apply Hmid. lia.
      * right. split; [exact Hend|]. split.
        -- simpl. eapply only_read_trans; eassumption.
        -- intros j Hj. destruct j as [|j].
           ++ simpl. eapply receiving_state. exact Hrec.
           ++ simpl. apply Hmid. simpl in Hj. lia.
    + left. exists 1%nat. split; [simpl; lia|]. split.
      * simpl. exact Hab.
      * intros j Hj. replace j with O by lia. simpl.
        eapply receiving_state. exact Hrec.
Qed.

(** With the whole stream delivered, enough calls of [loop] abort the
    frame. *)
Lemma receiving_aborts body rest r :
  ~ In END_FRAME body ->
  MAX_BUF_SIZE < Z.of_nat (length body) ->
  receiving body rest r [] ->
  exists n,
    aborted r (loops n r)
    /\ forall m, (m < n)%nat ->
                 state_ (loops m r) = ON
                 \/ state_ (loops m r) = START_FRAME_RECEIVED.
Proof.
  intros Hbody Hmore (Hidx & [(Hst & noise & Hrx & Hnoise)
                             |(Hst & body' & Hrx & Hbody' & Hover)]);
    rewrite app_nil_r in Hrx.
  - destruct (start_marker_reached (length noise) noise r (body ++ rest)
                ltac:(lia) Hst ltac:(lia) Hrx Hnoise)
      as (n1 & Hs1 & Hu1 & Hb1 & Hread & Hmid1).
    destruct (overflow_reached (length body) body (loops n1 r) rest
                ltac:(lia) Hs1 ltac:(lia) Hu1 Hbody ltac:(lia))
      as (n2 & Hs2 & Hab & Hmid2).
    exists (n1 + n2)%nat. rewrite loops_add. split.
    + apply (only_read_aborted r (loops n1 r)); [exact Hread|].
      split; assumption.
    + intros m Hm. destruct (Nat.lt_ge_cases m n1) as [Hlt|Hge].
      * left. apply Hmid1. exact Hlt.
      * right. replace m with (n1 + (m - n1))%nat by lia. rewrite loops_add.
        apply Hmid2. lia.
  - destruct (overflow_reached (length body') body' r rest
                ltac:(lia) Hst Hidx Hrx Hbody' Hover)
      as (n & Hs & Hab & Hmid).
    exists n. split; [split; assumption|].
    intros m Hm. right. apply Hmid. exact Hm.
Qed.

Lemma firstn_repeat_le (a : action) m : forall n,
  (m <= n)%nat -> firstn m (repeat a n) = repeat a m.
Proof.
  induction m as [|m IH]; intros n H; [reflexivity|].
  destruct n as [|n]; [lia|]. simpl. f_equal. apply IH. lia.
Qed.

Lemma aborted_facts r r' :
  aborted r r' ->
  state_ r' = OFF
  /\ warnings (trace r') = warnings (trace r) ++ [INTERNAL_BUFFER_FULL]
  /\ scans (trace r') = scans (trace r)
  /\ verified (trace r') = verified (trace r)
  /\ published (trace r') = published (trace r)
  /\ (forall m, loops m r' = r')
  /\ buf_index_ (update r') = 0
  /\ state_ (update r') = ON.
Proof.
  intros (Hoff & evs & Htr & Hev & Hw).
  destruct (reader_events_parse_nothing _ Hev) as (Hsc & Hve & Hpu & _ & _).
  split; [exact Hoff|].
  split; [rewrite Htr, warnings_app, Hw; reflexivity|].
  split; [rewrite Htr, scans_app, Hsc, app_nil_r; reflexivity|].
  split; [rewrite Htr, verified_app, Hve, app_nil_r; reflexivity|].
  split; [rewrite Htr, published_app, Hpu, app_nil_r; reflexivity|].
  split; [apply loops_off; exact Hoff|].
  unfold update. rewrite Hoff. split; reflexivity.
Qed.

(** ** C5 *)

(** C5.  The router is in state ON (the periodic trigger has run); the
    host calls [loop] and [update] in any order while the UART receives, in
    any pieces, a start marker and then more bytes than [MAX_BUF_SIZE]
    without an end marker.  Then at some point [k] of that schedule, followed
    if need be by further calls of [loop], the state is OFF and the warning
    is logged; at every point before the state is ON or
    START_FRAME_RECEIVED, never END_FRAME_RECEIVED, and the trace has gained
    no scan, no checksum verification and no publication: nothing of the
    aborted frame was parsed.  In state OFF [loop] does nothing, and the next
    [update] sets the fill length to 0 and the state to ON.  The bytes the
    aborted frame left in [buf_] are then behind the fill length, and what a
    later parse publishes, delivers and logs does not depend on the bytes
    behind the fill length. *)
Theorem overflow_aborts_frame :
  (forall (r : Mk2PVRouter) (sched : list action) (noise body rest : list Z),
      state_ r = ON ->
      0 <= buf_index_ r <= MAX_BUF_SIZE - 1 ->
      uart_rx r ++ arrivals sched = noise ++ START_FRAME :: body ++ rest ->
      ~ In START_FRAME noise ->
      ~ In END_FRAME body ->
      MAX_BUF_SIZE < Z.of_nat (length body) ->
      exists n k,
        (k <= length (sched ++ repeat Loop n))%nat
        /\ state_ (run (firstn k (sched ++ repeat Loop n)) r) = OFF
        /\ (forall j, (j < k)%nat ->
              state_ (run (firstn j (sched ++ repeat Loop n)) r) = ON
              \/ state_ (run (firstn j (sched ++ repeat Loop n)) r)
                 = START_FRAME_RECEIVED)
        /\ warnings (trace (run (firstn k (sched ++ repeat Loop n)) r))
           = warnings (trace r) ++ [INTERNAL_BUFFER_FULL]
        /\ scans (trace (run (firstn k (sched ++ repeat Loop n)) r))
           = scans (trace r)
        /\ verified (trace (run (firstn k (sched ++ repeat Loop n)) r))
           = verified (trace r)
        /\ published (trace (run (firstn k (sched ++ repeat Loop n)) r))
           = published (trace r)
        /\ (forall m, loops m (run (firstn k (sched ++ repeat Loop n)) r)
                      = run (firstn k (sched ++ repeat Loop n)) r)
        /\ buf_index_ (update (run (firstn k (sched ++ repeat Loop n)) r)) = 0
        /\ state_ (update (run (firstn k (sched ++ repeat Loop n)) r)) = ON)
  /\ (forall (r : Mk2PVRouter) (mem : Z -> Z),
         state_ r = END_FRAME_RECEIVED ->
         0 <= checksum_area_end_ r ->
         (forall i, 0 <= i < buf_index_ r -> mem i = buf_ r i) ->
         published (trace (loop (set_buf mem r))) = published (trace (loop r))
         /\ delivered (trace (loop (set_buf mem r)))
            = delivered (trace (loop r))
         /\ errors (trace (loop (set_buf mem r))) = errors (trace (loop r))).
Proof.
  split.
  2:{ intros r mem Hst Hk Hmem.
      destruct (loop_ignores_stale_bytes r mem Hst Hk Hmem)
        as (_ & _ & _ & _ & _ & _ & _ & _ & _ & Hobs).
      rewrite <- (observe_published (trace (loop (set_buf mem r)))),
              <- (observe_delivered (trace (loop (set_buf mem r)))),
              <- (observe_errors (trace (loop (set_buf mem r)))),
              <- Hobs, observe_published, observe_delivered, observe_errors.
      repeat split. }
  intros r sched noise body rest Hst Hidx Hrx Hnoise Hbody Hmore.
  assert (Hrec : receiving body rest r (arrivals sched)).
  { split; [exact Hidx|]. left. split; [exact Hst|].
    exists noise. split; assumption. }
  destruct (run_receiving body rest sched r Hbody Hmore Hrec)
    as [(k & Hk & Hab & Hmid)|(Hend & Hread & Hmid)].
  - (* aborted within the schedule *)
    exists O, k. simpl repeat. rewrite app_nil_r.
    split; [exact Hk|].
    destruct (aborted_facts _ _ Hab) as (F1 & F2 & F3 & F4 & F5 & F6 & F7 & F8).
    repeat split; assumption.
  - (* the rest of the stream is pending: further calls of loop *)
    destruct (receiving_aborts body rest (run sched r) Hbody Hmore Hend)
      as (n & Hab & Hmid2).
    exists n, (length sched + n)%nat.
    assert (Hall : firstn (length sched + n) (sched ++ repeat Loop n)
                   = sched ++ repeat Loop n).
    { apply firstn_all2. rewrite length_app, repeat_length. lia. }
    rewrite Hall, run_app, run_loops.
    split; [rewrite length_app, repeat_length; lia|].
    assert (Hab' : aborted r (loops n (run sched r)))
      by (eapply only_read_aborted; eassumption).
    destruct (aborted_facts _ _ Hab') as (F1 & F2 & F3 & F4 & F5 & F6 & F7 & F8).
    split; [exact F1|]. split.
    { intros j Hj. rewrite firstn_app.
      destruct (Nat.le_gt_cases j (length sched)) as [Hle|Hgt].
      - replace (j - length sched)%nat with O by lia.
        change (firstn 0 (repeat Loop n)) with (@nil action).
        rewrite app_nil_r. apply Hmid. exact Hle.
      - rewrite firstn_all2 by lia.
        assert (Hrep : firstn (j - length sched) (repeat Loop n)
                       = repeat Loop (j - length sched)).
        { apply firstn_repeat_le. lia. }
        rewrite Hrep, run_app, run_loops. apply Hmid2. lia. }
    repeat split; assumption.
Qed.

Lemma overflow_aborts_frame_witness :
  exists n k,
    state_ (run (firstn k (overflow_schedule ++ repeat Loop n)) overflow_router)
    = OFF
    /\ warnings (trace (run (firstn k (overflow_schedule ++ repeat Loop n))
                          overflow_router))
       = [INTERNAL_BUFFER_FULL]
    /\ published (trace (run (firstn k (overflow_schedule ++ repeat Loop n))
                           overflow_router))
       = [].
Proof.
  destruct overflow_aborts_frame as [Hoverflow _].
  destruct (Hoverflow overflow_router overflow_schedule [7; 8] (repeat 65 1100)
              [END_FRAME])
    as (n & k & _ & Hs & _ & Hw & _ & _ & Hp & _).
  - reflexivity.
  - simpl. unfold MAX_BUF_SIZE. lia.
  - vm_compute. reflexivity.
  - simpl. intuition discriminate.
  - intros Hin. apply repeat_spec in Hin. discriminate.
  - rewrite repeat_length. unfold MAX_BUF_SIZE. lia.
  - exists n, k. repeat split; assumption.
Defined.

(** * Further properties *)

(** ** The reader and the buffer *)

Lemma replay_app ss1 : forall ss2 mem,
  replay (ss1 ++ ss2) mem = replay ss2 (replay ss1 mem).
Proof.
  induction ss1 as [|[i b] ss1 IH]; intros ss2 mem; simpl; [reflexivity|].
  apply IH.
Qed.

Lemma replay_store_events bs : forall i mem,
  holds (replay (store_events i bs) mem) i bs
  /\ (forall a, a < i -> replay (store_events i bs) mem a = mem a).
Proof.
  induction bs as [|b bs IH]; intros i mem.
  - split; [intros k Hk; simpl in Hk; lia|intros a _; reflexivity].
  - cbn [store_events replay].
    destruct (IH (i + 1) (fun a => if a =? i then b else mem a)) as [Hh Hl].
    split.
    + apply holds_cons. split; [|exact Hh].
      rewrite Hl by lia. rewrite Z.eqb_refl. reflexivity.
    + intros a Ha. rewrite Hl by lia.
      destruct (a =? i) eqn:E; [apply Z.eqb_eq in E; lia|reflexivity].
Qed.

(** The buffer after a call of the reader is the buffer before with the
    recorded stores applied. *)
Lemma read_chars_loop_buf drop c : forall rx j r,
  exists evs,
    trace (snd (read_chars_loop drop c rx j r)) = trace r ++ evs
    /\ forall a, buf_ (snd (read_chars_loop drop c rx j r)) a
                 = replay (stores evs) (buf_ r) a.
Proof.
  induction rx as [|received rx IH]; intros j r.
  - exists []. simpl. rewrite app_nil_r. split; reflexivity.
  - rewrite read_chars_loop_cons.
    destruct (j <? 128); [|exists []; simpl; rewrite app_nil_r; split; reflexivity].
    destruct (received =? c);
      [exists []; simpl; rewrite app_nil_r; split; reflexivity|].
    destruct drop.
    + destruct (IH ((j + 1) mod 256) (set_uart_rx rx r)) as (evs & Htr & Hb).
      exists evs. split; [exact Htr|exact Hb].
    + destruct (buf_index_ r >=? MAX_BUF_SIZE - 1).
      * exists [EvLogW INTERNAL_BUFFER_FULL]. split; reflexivity.
      * match goal with
        | |- context [read_chars_loop false c rx ?jj ?rr] =>
            destruct (IH jj rr) as (evs & Htr & Hb)
        end.
        exists (EvStore (buf_index_ r) received :: evs). split.
        -- rewrite Htr. cbn [trace emit set_buf set_buf_index set_uart_rx].
           rewrite <- app_assoc. reflexivity.
        -- intros a. rewrite Hb. reflexivity.
Qed.

Lemma read_chars_until_buf drop c r evs :
  trace (snd (read_chars_until_ drop c r)) = trace r ++ evs ->
  forall a, buf_ (snd (read_chars_until_ drop c r)) a
            = replay (stores evs) (buf_ r) a.
Proof.
  intros Htr. unfold read_chars_until_ in *.
  destruct (read_chars_loop_buf drop c (uart_rx r) 0 r) as (evs' & Htr' & Hb).
  rewrite Htr in Htr'. apply app_inv_head in Htr'. subst evs'. exact Hb.
Qed.

(** In drop mode the reader changes nothing but the UART queue. *)
Lemma read_chars_drop_spec c : forall rx j r,
  0 <= j <= 128 ->
  exists consumed rx',
    rx = consumed ++ rx'
    /\ snd (read_chars_loop true c rx j r) = set_uart_rx rx' r
    /\ Z.of_nat (length consumed) <= 128 - j
    /\ if fst (read_chars_loop true c rx j r)
       then exists before, consumed = before ++ [c] /\ ~ In c before
       else ~ In c consumed
            /\ (Z.of_nat (length consumed) = 128 - j \/ rx' = []).
Proof.
  induction rx as [|received rx IH]; intros j r Hj.
  - exists [], []. cbn [read_chars_loop fst snd length app].
    repeat split; try lia. + intros []. + right; reflexivity.
  - rewrite read_chars_loop_cons.
    destruct (j <? 128) eqn:Ej.
    + apply Z.ltb_lt in Ej.
      destruct (received =? c) eqn:Ec.
      * apply Z.eqb_eq in Ec. subst received.
        exists [c], rx. cbn [fst snd length app].
        repeat split; try lia.
        exists []. split; [reflexivity|intros []].
      * apply Z.eqb_neq in Ec.
        replace ((j + 1) mod 256) with (j + 1) by (rewrite Z.mod_small; lia).
        destruct (IH (j + 1) (set_uart_rx rx r)) as (consumed & rx' & E & Hs & Hl & Hout);
          [lia|].
        exists (received :: consumed), rx'.
        split; [rewrite E; reflexivity|].
        split; [rewrite Hs; reflexivity|].
        split; [cbn [length]; lia|].
        destruct (fst (read_chars_loop true c rx (j + 1) (set_uart_rx rx r))).
        -- destruct Hout as (before & Eb & Hnb).
           exists (received :: before). split; [rewrite Eb; reflexivity|].
           intros [H|H]; [congruence|exact (Hnb H)].
        -- destruct Hout as (Hnc & Hend). split.
           ++ intros [H|H]; [congruence|exact (Hnc H)].
           ++ destruct Hend as [Hend|Hend]; [left; cbn [length]; lia|right; exact Hend].
    + apply Z.ltb_ge in Ej.
      exists [], (received :: rx). cbn [fst snd length app].
      repeat split; try lia. intros [].
Qed.

Lemma loop_on r :
  state_ r = ON ->
  loop r = if fst (read_chars_until_ true START_FRAME r)
           then set_state START_FRAME_RECEIVED
                  (snd (read_chars_until_ true START_FRAME r))
           else snd (read_chars_until_ true START_FRAME r).
Proof.
  intros Hst. unfold loop. rewrite Hst.
  destruct (read_chars_until_ true START_FRAME r). reflexivity.
Qed.

Lemma loop_start_frame_received r :
  state_ r = START_FRAME_RECEIVED ->
  loop r = if fst (read_chars_until_ false END_FRAME r)
           then set_state END_FRAME_RECEIVED
                  (snd (read_chars_until_ false END_FRAME r))
           else snd (read_chars_until_ false END_FRAME r).
Proof.
  intros Hst. unfold loop. rewrite Hst.
  destruct (read_chars_until_ false END_FRAME r). reflexivity.
Qed.

(** The bytes in front of the start marker are dropped: after enough calls
    the router is the one before, with the queue behind the marker and the
    next state. *)
Lemma start_marker_skipped k : forall noise r tail,
  (length noise <= k)%nat ->
  state_ r = ON ->
  uart_rx r = noise ++ START_FRAME :: tail ->
  ~ In START_FRAME noise ->
  exists n,
    loops n r = set_state START_FRAME_RECEIVED (set_uart_rx tail r)
    /\ (0 < n)%nat
    /\ Z.of_nat n <= Z.of_nat (length noise) / 128 + 1
    /\ (forall m, (m < n)%nat -> state_ (loops m r) = ON).
Proof.
  induction k as [|k IH]; intros noise r tail Hk Hst Hrx Hnoise;
    pose proof (loop_on r Hst) as Hloop;
    unfold read_chars_until_ in Hloop;
    destruct (read_chars_drop_spec START_FRAME (uart_rx r) 0 r ltac:(lia))
      as (consumed & rx' & Hcons & Hs & Hlen & Hout);
    rewrite Hs in Hloop;
    destruct (fst (read_chars_loop true START_FRAME (uart_rx r) 0 r)).
  - destruct Hout as (before & Hc & Hnb).
    rewrite Hrx, Hc, <- app_assoc in Hcons. simpl in Hcons.
    destruct (split_at_first _ _ _ _ _ Hcons Hnoise Hnb) as [_ Htail].
    exists 1%nat. cbn [loops]. rewrite Hloop, Htail.
    repeat split; try lia.
    + pose proof (Z.div_pos (Z.of_nat (length noise)) 128). lia.
    + intros m Hm. replace m with O by lia. exact Hst.
  - exfalso. destruct Hout as (Hnc & Hend).
    rewrite Hrx in Hcons.
    destruct (clean_prefix _ _ _ _ _ (eq_sym Hcons) Hnc) as (a' & Ea & Erx).
    destruct Hend as [Hend|Hend].
    + rewrite Ea, length_app in Hk. lia.
    + rewrite Hend in Erx. destruct a'; discriminate.
  - destruct Hout as (before & Hc & Hnb).
    rewrite Hrx, Hc, <- app_assoc in Hcons. simpl in Hcons.
    destruct (split_at_first _ _ _ _ _ Hcons Hnoise Hnb) as [_ Htail].
    exists 1%nat. cbn [loops]. rewrite Hloop, Htail.
    repeat split; try lia.
    + pose proof (Z.div_pos (Z.of_nat (length noise)) 128). lia.
    + intros m Hm. replace m with O by lia. exact Hst.
  - destruct Hout as (Hnc & Hend).
    rewrite Hrx in Hcons.
    destruct (clean_prefix _ _ _ _ _ (eq_sym Hcons) Hnc) as (a' & Ea & Erx).
    destruct Hend as [Hend|Hend].
    2:{ rewrite Hend in Erx. destruct a'; discriminate. }
    destruct (IH a' (loop r) tail) as (n & Hn & Hpos & Hbound & Hmid).
    + rewrite Ea, length_app in Hk. lia.
    + rewrite Hloop. exact Hst.
    + rewrite Hloop. exact Erx.
    + intros Hin. apply Hnoise. rewrite Ea. apply in_or_app. right. exact Hin.
    + exists (S n). cbn [loops]. rewrite Hn, Hloop.
      repeat split; try lia.
      * rewrite Ea, length_app, Nat2Z.inj_add.
        replace (Z.of_nat (length consumed) + Z.of_nat (length a'))
          with (Z.of_nat (length a') + 1 * 128) by lia.
        rewrite Z.div_add by lia. lia.
      * intros [|m] Hm; [exact Hst|]. cbn [loops]. apply Hmid. lia.
Qed.

Lemma store_events_app a : forall i b,
  store_events i (a ++ b)
  = store_events i a ++ store_events (i + Z.of_nat (length a)) b.
Proof.
  induction a as [|x a IH]; intros i b.
  - simpl. rewrite Z.add_0_r. reflexivity.
  - cbn [app store_events length]. rewrite IH.
    replace (i + 1 + Z.of_nat (length a)) with (i + Z.of_nat (S (length a))) by lia.
    reflexivity.
Qed.

Lemma same_config_trans r1 r2 r3 :
  same_config r1 r2 -> same_config r2 r3 -> same_config r1 r3.
Proof.
  unfold same_config. intros (A1 & A2 & A3 & A4 & A5) (B1 & B2 & B3 & B4 & B5).
  repeat split; congruence.
Qed.

(** The bytes in front of the end marker are appended to the buffer, to the
    last one, when they fit. *)
Lemma frame_accumulated k : forall frame r rest,
  (length frame <= k)%nat ->
  state_ r = START_FRAME_RECEIVED ->
  0 <= buf_index_ r ->
  buf_index_ r + Z.of_nat (length frame) <= MAX_BUF_SIZE - 1 ->
  uart_rx r = frame ++ END_FRAME :: rest ->
  ~ In END_FRAME frame ->
  exists n,
    state_ (loops n r) = END_FRAME_RECEIVED
    /\ uart_rx (loops n r) = rest
    /\ buf_index_ (loops n r) = buf_index_ r + Z.of_nat (length frame)
    /\ holds (buf_ (loops n r)) (buf_index_ r) frame
    /\ (forall a, a < buf_index_ r -> buf_ (loops n r) a = buf_ r a)
    /\ same_config r (loops n r)
    /\ (exists evs, trace (loops n r) = trace r ++ evs
                    /\ Forall (fun e => reader_event e = true) evs
                    /\ warnings evs = []
                    /\ stores evs = store_events (buf_index_ r) frame)
    /\ (0 < n)%nat
    /\ Z.of_nat n <= Z.of_nat (length frame) / 128 + 1
    /\ (forall m, (m < n)%nat -> state_ (loops m r) = START_FRAME_RECEIVED).
Proof.
  induction k as [|k IH]; intros frame r rest Hk Hst Hidx Hfit Hrx Hframe;
    pose proof (loop_start_frame_received r Hst) as Hloop;
    destruct (read_chars_until_spec false END_FRAME r Hidx)
      as (consumed & evs & Hcons & Hlen & Htr & Hev & Hcfg & Hout);
    pose proof (read_chars_until_buf false END_FRAME r evs Htr) as Hbuf;
    destruct Hout as [[Hf Hfound]|[[Hf Hex]|[Hf Hov]]]; rewrite Hf in Hloop.
  1,4: destruct Hfound as (before & Hc & Hnb & _ & Hw & Hsto & Hi & _);
    rewrite Hrx, Hc, <- app_assoc in Hcons; simpl in Hcons;
    destruct (split_at_first _ _ _ _ _ Hcons Hframe Hnb) as [Efr Htail];
    subst before;
    destruct (replay_store_events frame (buf_index_ r) (buf_ r)) as [Hh Hl];
    exists 1%nat; cbn [loops]; rewrite Hloop;
    cbn [state_ uart_rx buf_index_ buf_ trace set_state];
    (split; [reflexivity|]); (split; [congruence|]); (split; [exact Hi|]);
    (split; [intros i Hi'; rewrite Hbuf, Hsto; apply Hh; exact Hi'|]);
    (split; [intros a Ha; rewrite Hbuf, Hsto; apply Hl; exact Ha|]);
    (split; [exact Hcfg|]);
    (split; [exists evs; repeat split; assumption|]);
    (split; [lia|]);
    (split; [pose proof (Z.div_pos (Z.of_nat (length frame)) 128); lia|]);
    intros m Hm; replace m with O by lia; exact Hst.
  (* the frame fits *)
  2,4: exfalso;
    destruct Hov as (_ & before & x & Hc & Hnc & _ & _ & (_ & Hi & _) & Hfull);
    rewrite Hrx in Hcons;
    destruct (clean_prefix _ _ _ _ _ (eq_sym Hcons) Hnc) as (a' & Ea & Erx);
    cbv beta iota in Hi;
    rewrite Ea, Hc, !length_app in Hfit; cbn [length] in Hfit; lia.
  - (* the queue cannot run dry in front of the marker *)
    exfalso. destruct Hex as (Hnc & _ & _ & Hend & _).
    rewrite Hrx in Hcons.
    destruct (clean_prefix _ _ _ _ _ (eq_sym Hcons) Hnc) as (a' & Ea & Erx).
    destruct Hend as [Hend|Hend].
    + rewrite Ea, length_app in Hk. lia.
    + rewrite Hend in Erx. destruct a'; discriminate.
  - (* 128 bytes stored, the rest later *)
    destruct Hex as (Hnc & Hst' & Hw & Hend & Hsto & Hi & _).
    cbv beta iota in Hsto, Hi.
    rewrite Hrx in Hcons.
    destruct (clean_prefix _ _ _ _ _ (eq_sym Hcons) Hnc) as (a' & Ea & Erx).
    destruct Hend as [Hend|Hend].
    2:{ rewrite Hend in Erx. destruct a'; discriminate. }
    destruct (replay_store_events consumed (buf_index_ r) (buf_ r)) as [Hh Hl].
    destruct (IH a' (loop r) rest)
      as (n & Hs & Hu & Hb & Hhold & Hlow & Hcfg' & (evs' & Htr' & Hev' & Hw' & Hsto') & Hpos & Hbound & Hmid).
    + rewrite Ea, length_app in Hk. lia.
    + rewrite Hloop, Hst'. exact Hst.
    + rewrite Hloop, Hi. lia.
    + rewrite Hloop, Hi. rewrite Ea, length_app in Hfit. lia.
    + rewrite Hloop. exact Erx.
    + intros Hin. apply Hframe. rewrite Ea. apply in_or_app. right. exact Hin.
    + rewrite Hloop in Hb, Hhold, Hlow, Hcfg', Htr', Hsto'.
      rewrite Hi in Hb, Hhold, Hlow, Hsto'.
      rewrite Hloop in Hs, Hu, Hmid.
      exists (S n). cbn [loops]. rewrite Hloop.
      split; [exact Hs|]. split; [exact Hu|].
      split; [rewrite Hb, Ea, length_app; lia|].
      split.
      { rewrite Ea. apply holds_app. split; [|exact Hhold].
        intros i Hi'. rewrite Hlow by lia. rewrite Hbuf, Hsto. apply Hh. exact Hi'. }
      split.
      { intros a Ha. rewrite Hlow by lia. rewrite Hbuf, Hsto. apply Hl. exact Ha. }
      split; [exact (same_config_trans _ _ _ Hcfg Hcfg')|].
      split.
      { exists (evs ++ evs'). rewrite Htr', Htr, <- app_assoc.
        split; [reflexivity|]. split; [apply Forall_app; split; assumption|].
        split; [rewrite warnings_app, Hw, Hw'; reflexivity|].
        rewrite stores_app, Hsto, Hsto', Ea, store_events_app. reflexivity. }
      split; [lia|].
      split.
      { rewrite Ea, length_app, Nat2Z.inj_add.
        replace (Z.of_nat (length consumed) + Z.of_nat (length a'))
          with (Z.of_nat (length a') + 1 * 128) by lia.
        rewrite Z.div_add by lia. lia. }
      intros [|m] Hm; [exact Hst|]. cbn [loops]. rewrite Hloop. apply Hmid. lia.
Qed.

(** ** What is published, whatever the buffer holds *)

Lemma c_str_incl l : forall x, In x (c_str l) -> In x l.
Proof.
  induction l as [|c l IH]; intros x Hin; simpl in *; [exact Hin|].
  destruct (c =? 0); [destruct Hin|].
  destruct Hin as [H|H]; [left; exact H|right; apply IH; exact H].
Qed.

Lemma c_str_length l : (length (c_str l) <= length l)%nat.
Proof.
  induction l as [|c l IH]; simpl; [lia|].
  destruct (c =? 0); simpl; lia.
Qed.

Lemma c_str_nul_free l : ~ In 0 (c_str l).
Proof.
  induction l as [|c l IH]; simpl; [intros []|].
  destruct (c =? 0) eqn:E; [intros []|].
  apply Z.eqb_neq in E. intros [H|H]; [congruence|exact (IH H)].
Qed.

Lemma bytes_In mem s n x :
  In x (bytes mem s n) -> exists i, s <= i < s + Z.of_nat n /\ mem i = x.
Proof.
  unfold bytes. intros Hin. apply in_map_iff in Hin.
  destruct Hin as (j & Hj & Hin). apply in_seq in Hin.
  exists (s + Z.of_nat j). split; [lia|exact Hj].
Qed.

(** A field that [get_field] accepts is a C string of the region, in front
    of its first tab; the destination array keeps its size. *)
Lemma get_field_text mem dest s e m c :
  m <= Z.of_nat (length dest) ->
  (forall i, s <= i < e -> mem i <> c) ->
  length (snd (get_field mem dest s e m)) = length dest
  /\ (fst (get_field mem dest s e m) <> 0 ->
      fst (get_field mem dest s e m) < m ->
      s + fst (get_field mem dest s e m) < e
      /\ Z.of_nat (length (c_str (snd (get_field mem dest s e m)))) < m
      /\ ~ In 0 (c_str (snd (get_field mem dest s e m)))
      /\ ~ In TAB (c_str (snd (get_field mem dest s e m)))
      /\ ~ In c (c_str (snd (get_field mem dest s e m)))).
Proof.
  intros Hm Hc.
  destruct (memchr mem s TAB (e - s)) as [p|] eqn:E.
  2:{ rewrite get_field_no_tab by exact E. cbn [fst snd].
      split; [reflexivity|]. intros H; contradiction H; reflexivity. }
  pose proof (memchr_Some _ _ _ _ _ E) as (Hp & _ & Hfirst).
  destruct (Z_le_gt_dec m (p - s)) as [Hlong|Hshort].
  { rewrite (get_field_too_long _ _ _ _ _ _ E Hlong). cbn [fst snd].
    split; [reflexivity|]. intros _ H. lia. }
  rewrite (get_field_fits _ _ _ _ _ _ E) by lia. cbn [fst snd].
  split.
  - rewrite length_app, strncpy_bytes_length. cbn [length].
    rewrite length_skipn. lia.
  - intros _ _. rewrite c_str_strncpy_bytes.
    assert (Hin : forall x, In x (c_str (bytes mem s (Z.to_nat (p - s)))) ->
                            exists i, s <= i < p /\ mem i = x).
    { intros x Hx. apply c_str_incl, bytes_In in Hx.
      destruct Hx as (i & Hi & Hx). exists i. split; [lia|exact Hx]. }
    split; [lia|]. split.
    + pose proof (c_str_length (bytes mem s (Z.to_nat (p - s)))) as Hl.
      rewrite bytes_length in Hl. lia.
    + split; [apply c_str_nul_free|]. split.
      * intros Hx. destruct (Hin _ Hx) as (i & Hi & Hx').
        exact (Hfirst i Hi Hx').
      * intros Hx. destruct (Hin _ Hx) as (i & Hi & Hx').
        apply (Hc i); [lia|exact Hx'].
Qed.

Lemma publish_loop_fields tag val elements : forall i r,
  tag_ (publish_loop tag val elements i r) = tag_ r
  /\ val_ (publish_loop tag val elements i r) = val_ r.
Proof.
  intros i r. destruct (publish_loop_frame tag val elements i r) as (_ & H1 & H2 & _).
  split; assumption.
Qed.

Lemma fields_kept_emit e r :
  published [e] = [] -> fields_kept r -> fields_kept (emit e r).
Proof.
  intros He (H1 & H2 & H3). unfold fields_kept.
  cbn [tag_ val_ trace emit]. rewrite published_app, He, app_nil_r.
  repeat split; assumption.
Qed.

Lemma fields_kept_grows r r' :
  grows r r' [] -> tag_ r' = tag_ r -> val_ r' = val_ r ->
  fields_kept r -> fields_kept r'.
Proof.
  intros G Ht Hv (H1 & H2 & H3). unfold fields_kept.
  destruct (grows_published _ _ _ G) as [Hp _].
  rewrite Ht, Hv, Hp, app_nil_r. repeat split; assumption.
Qed.

(** One record, whatever the buffer holds: the field arrays keep their size
    and a measurement that is published consists of two field texts. *)
Lemma parse_group_fields r s :
  fields_kept r ->
  match parse_group r s with
  | Leave r' => fields_kept r'
  | Again r' _ => fields_kept r'
  end.
Proof.
  intros K. unfold parse_group.
  destruct (memchr (buf_ r) s CARRIAGE_RETURN (buf_index_ r - s))
    as [grp_end|] eqn:Ecr.
  2:{ repeat apply fields_kept_emit; try reflexivity. exact K. }
  pose proof (memchr_Some _ _ _ _ _ Ecr) as (Hge & _ & Hcr).
  set (r2 := emit _ r).
  assert (K2 : fields_kept r2) by (apply fields_kept_emit; [reflexivity|exact K]).
  destruct (check_crc_grows r2 s grp_end) as (G3 & Ht3 & Hv3).
  destruct (check_crc_ r2 s grp_end) as [ok r3]. cbn [snd] in *.
  assert (K3 : fields_kept r3) by (apply (fields_kept_grows r2); assumption).
  assert (Hbuf : buf_ r3 = buf_ r).
  { destruct G3 as [(_ & _ & _ & Hb & _) _]. exact Hb. }
  destruct ok; cbn [negb]; [|exact K3].
  destruct K3 as (Hlt & Hlv & HP).
  pose proof (get_field_text (buf_ r3) (tag_ r3) s grp_end MAX_TAG_SIZE
                CARRIAGE_RETURN Hlt) as F1.
  rewrite Hbuf in F1. specialize (F1 Hcr).
  pose proof (get_field_nonneg (buf_ r) (tag_ r3) s grp_end MAX_TAG_SIZE) as Hn1.
  rewrite Hbuf.
  destruct (get_field (buf_ r) (tag_ r3) s grp_end MAX_TAG_SIZE) as [len1 t].
  cbn [fst snd] in F1, Hn1. destruct F1 as [Hlen1 F1].
  assert (K4 : fields_kept (set_tag t r3)).
  { unfold fields_kept. cbn [tag_ val_ trace set_tag]. rewrite Hlen1.
    repeat split; assumption. }
  destruct (len1 =? 0) eqn:E0; cbn [orb].
  { apply fields_kept_emit; [reflexivity|exact K4]. }
  destruct (len1 >=? MAX_TAG_SIZE) eqn:E1.
  { apply fields_kept_emit; [reflexivity|exact K4]. }
  apply Z.eqb_neq in E0. rewrite Z.geb_leb in E1. apply Z.leb_gt in E1.
  destruct (F1 E0 E1) as (Hin1 & T1).
  set (r4 := set_tag t r3) in *.
  change (buf_ r4) with (buf_ r3). rewrite Hbuf.
  change (val_ r4) with (val_ r3).
  pose proof (get_field_text (buf_ r) (val_ r3) (s + (len1 + 1)) grp_end
                MAX_VAL_SIZE CARRIAGE_RETURN Hlv) as F2.
  assert (Hcr2 : forall i, s + (len1 + 1) <= i < grp_end ->
                           buf_ r i <> CARRIAGE_RETURN)
    by (intros i Hi; apply Hcr; lia).
  specialize (F2 Hcr2).
  destruct (get_field (buf_ r) (val_ r3) (s + (len1 + 1)) grp_end MAX_VAL_SIZE)
    as [len2 v].
  cbn [fst snd] in F2. destruct F2 as [Hlen2 F2].
  assert (K5 : fields_kept (set_val v r4)).
  { unfold fields_kept. cbn [tag_ val_ trace set_val set_tag r4].
    rewrite Hlen1, Hlen2. repeat split; assumption. }
  destruct (len2 =? 0) eqn:E2; cbn [orb].
  { apply fields_kept_emit; [reflexivity|exact K5]. }
  destruct (len2 >=? MAX_VAL_SIZE) eqn:E3.
  { apply fields_kept_emit; [reflexivity|exact K5]. }
  apply Z.eqb_neq in E2. rewrite Z.geb_leb in E3. apply Z.leb_gt in E3.
  destruct (F2 E2 E3) as (Hin2 & T2).
  set (r5 := set_val v r4) in *.
  unfold fields_kept.
  destruct (publish_loop_fields (c_str (tag_ r5)) (c_str (val_ r5))
              (mk2pvrouter_listeners_ r5) 0
              (emit (EvPublish (c_str (tag_ r5)) (c_str (val_ r5))) r5))
    as [Ht Hv].
  unfold publish_value_ at 1 2. rewrite Ht, Hv.
  destruct K5 as (K51 & K52 & K53).
  split; [exact K51|]. split; [exact K52|].
  destruct (grows_published _ _ _
              (grows_publish (c_str (tag_ r5)) (c_str (val_ r5)) r5)) as [Hp _].
  rewrite Hp. apply Forall_app. split; [exact K53|].
  constructor; [|constructor].
  split; [exact T1|exact T2].
Qed.

Lemma parse_round_fields r f :
  fields_kept r ->
  match parse_round r f with
  | Leave r' => fields_kept r'
  | Again r' _ => fields_kept r'
  end.
Proof.
  intros K. unfold parse_round.
  set (n := (buf_index_ r - 1) mod 2 ^ 32).
  destruct (memchr (buf_ r) f LINE_FEED n) as [lf|].
  2:{ apply fields_kept_emit; [reflexivity|exact K]. }
  set (r1 := emit _ r).
  assert (K1 : fields_kept r1) by (apply fields_kept_emit; [reflexivity|exact K]).
  destruct (negb (lf <? buf_index_ r1)); [exact K1|].
  apply parse_group_fields. exact K1.
Qed.

Lemma parse_frame_fields fuel : forall r f r',
  fields_kept r -> parse_frame fuel r f = Some r' -> fields_kept r'.
Proof.
  induction fuel as [|fuel IH]; intros r f r' K Hp; [discriminate|].
  cbn [parse_frame] in Hp.
  pose proof (parse_round_fields r f K) as Hr.
  destruct (parse_round r f) as [r1|r1 f1].
  - inversion Hp; subst r1. exact Hr.
  - exact (IH _ _ _ Hr Hp).
Qed.

(** What the reader leaves alone, read off its loop: it writes [buf_],
    [buf_index_], the queue and, when the buffer is full, [state_]. *)
Lemma read_chars_loop_keeps drop c : forall rx j r,
  mk2pvrouter_listeners_ (snd (read_chars_loop drop c rx j r))
  = mk2pvrouter_listeners_ r
  /\ tag_ (snd (read_chars_loop drop c rx j r)) = tag_ r
  /\ val_ (snd (read_chars_loop drop c rx j r)) = val_ r
  /\ published (trace (snd (read_chars_loop drop c rx j r)))
     = published (trace r)
  /\ ((state_ (snd (read_chars_loop drop c rx j r)) = state_ r
       /\ warnings (trace (snd (read_chars_loop drop c rx j r)))
          = warnings (trace r))
      \/ (drop = false
          /\ fst (read_chars_loop drop c rx j r) = false
          /\ state_ (snd (read_chars_loop drop c rx j r)) = OFF
          /\ warnings (trace (snd (read_chars_loop drop c rx j r)))
             = warnings (trace r) ++ [INTERNAL_BUFFER_FULL])).
Proof.
  induction rx as [|received rx IH]; intros j r.
  - cbn. repeat split. left. split; reflexivity.
  - rewrite read_chars_loop_cons.
    destruct (j <? 128); [|cbn; repeat split; left; split; reflexivity].
    destruct (received =? c); [cbn; repeat split; left; split; reflexivity|].
    destruct drop.
    + apply (IH ((j + 1) mod 256) (set_uart_rx rx r)).
    + destruct (buf_index_ r >=? MAX_BUF_SIZE - 1).
      * cbn [fst snd mk2pvrouter_listeners_ tag_ val_ trace state_ set_state
             emit set_uart_rx].
        rewrite published_app, warnings_app.
        cbn [published warnings flat_map app].
        rewrite app_nil_r. repeat split. right. repeat split.
      * match goal with
        | |- context [read_chars_loop false c rx ?jj ?rr] =>
            destruct (IH jj rr) as (A1 & A2 & A3 & A4 & A5)
        end.
        cbn [mk2pvrouter_listeners_ tag_ val_ trace state_ set_buf_index emit
             set_buf set_uart_rx] in A1, A2, A3, A4, A5.
        rewrite published_app in A4. cbn [published flat_map app] in A4.
        rewrite app_nil_r in A4.
        rewrite warnings_app in A5. cbn [warnings flat_map app] in A5.
        rewrite app_nil_r in A5.
        repeat split; assumption.
Qed.

Lemma fields_kept_loop r : fields_kept r -> fields_kept (loop r).
Proof.
  intros K. unfold loop. destruct (state_ r) eqn:Hst.
  - exact K.
  - unfold read_chars_until_.
    destruct (read_chars_loop_keeps true START_FRAME (uart_rx r) 0 r)
      as (_ & A2 & A3 & A4 & _).
    destruct (read_chars_loop true START_FRAME (uart_rx r) 0 r) as [found r1].
    cbn [snd] in *. destruct K as (K1 & K2 & K3).
    destruct found; unfold fields_kept;
      cbn [tag_ val_ trace set_state]; rewrite A2, A3, A4;
      repeat split; assumption.
  - unfold read_chars_until_.
    destruct (read_chars_loop_keeps false END_FRAME (uart_rx r) 0 r)
      as (_ & A2 & A3 & A4 & _).
    destruct (read_chars_loop false END_FRAME (uart_rx r) 0 r) as [found r1].
    cbn [snd] in *. destruct K as (K1 & K2 & K3).
    destruct found; unfold fields_kept;
      cbn [tag_ val_ trace set_state]; rewrite A2, A3, A4;
      repeat split; assumption.
  - destruct (parse_frame (parse_fuel r) r 0) as [r'|] eqn:Hp; [|exact K].
    exact (parse_frame_fields _ _ _ _ K Hp).
Qed.

Lemma fields_kept_step r r' : step r r' -> fields_kept r -> fields_kept r'.
Proof.
  intros Hs K. destruct Hs.
  - exact K.
  - unfold update. destruct (state_ r); exact K.
  - apply fields_kept_loop. exact K.
  - exact K.
  - exact K.
Qed.

Lemma fields_kept_steps r r' : steps r r' -> fields_kept r -> fields_kept r'.
Proof.
  intros Hs K. induction Hs as [r|r r1 r2 Hs IH Hstep]; [exact K|].
  exact (fields_kept_step _ _ Hstep (IH K)).
Qed.

(** X1.  Whatever the memory holds at construction, whatever arrives on the
    UART and in whatever order the host calls [setup], [update], [loop] and
    registers listeners: every measurement the component publishes has a tag
    and a value shorter than 16 characters that contain no NUL, no tab and no
    carriage return. *)
Theorem published_fields_bounded buf0 tag0 val0 rx r' :
  length tag0 = Z.to_nat MAX_TAG_SIZE ->
  length val0 = Z.to_nat MAX_VAL_SIZE ->
  steps (Mk2PVRouter_new buf0 tag0 val0 rx) r' ->
  Forall measurement_text (published (trace r')).
Proof.
  intros Ht Hv Hs.
  apply (fields_kept_steps _ _ Hs).
  unfold fields_kept. cbn [tag_ val_ trace Mk2PVRouter_new].
  rewrite Ht, Hv. repeat split; try (vm_compute; discriminate).
  constructor.
Qed.

Lemma published_fields_bounded_witness :
  Forall measurement_text
    (published
       (trace (loop (loop (loop (update (setup
          (Mk2PVRouter_new (fun _ => 0) (repeat 0 16) (repeat 0 16)
             two_records_stream)))))))).
Proof.
  apply (published_fields_bounded (fun _ => 0) (repeat 0 16) (repeat 0 16)
           two_records_stream).
  - reflexivity.
  - reflexivity.
  - repeat (eapply steps_step; [|apply step_loop]).
    eapply steps_step; [|apply step_update].
    eapply steps_step; [|apply step_setup].
    apply steps_refl.
Defined.

(** ** The state machine *)

(** X2.  One call of [loop] moves the state machine along its arrows only:
    OFF stays OFF, ON stays or becomes START_FRAME_RECEIVED,
    START_FRAME_RECEIVED stays, becomes END_FRAME_RECEIVED or falls back to
    OFF, END_FRAME_RECEIVED always ends in OFF.  The call logs the
    buffer-full warning exactly when it goes from START_FRAME_RECEIVED to
    OFF, and no other warning. *)
Theorem loop_transitions r :
  loop_transition (state_ r) (state_ (loop r))
  /\ warnings (trace (loop r))
     = warnings (trace r)
         ++ match state_ r, state_ (loop r) with
            | START_FRAME_RECEIVED, OFF => [INTERNAL_BUFFER_FULL]
            | _, _ => []
            end.
Proof.
  unfold loop. destruct (state_ r) eqn:Hst; cbn [loop_transition].
  - rewrite Hst, app_nil_r. split; reflexivity.
  - unfold read_chars_until_.
    destruct (read_chars_loop_keeps true START_FRAME (uart_rx r) 0 r)
      as (_ & _ & _ & _ & [[A B]|[A _]]); [|discriminate].
    destruct (read_chars_loop true START_FRAME (uart_rx r) 0 r) as [found r1].
    cbn [snd] in *. rewrite app_nil_r.
    destruct found; cbn [state_ trace set_state].
    + split; [right; reflexivity|exact B].
    + split; [left; congruence|exact B].
  - unfold read_chars_until_.
    destruct (read_chars_loop_keeps false END_FRAME (uart_rx r) 0 r)
      as (_ & _ & _ & _ & [[A B]|(_ & A & B & C)]);
      destruct (read_chars_loop false END_FRAME (uart_rx r) 0 r) as [found r1];
      cbn [fst snd] in *.
    + destruct found; cbn [state_ trace set_state].
      * rewrite app_nil_r. split; [right; left; reflexivity|exact B].
      * rewrite A, Hst, app_nil_r. split; [left; reflexivity|exact B].
    + subst found. rewrite B. split; [right; right; reflexivity|exact C].
  - destruct (parse_frame_total r) as (r' & pubs & Hp & _ & evs & Htr & _ & _ & _ & Hw).
    rewrite Hp. cbn [state_ trace set_state].
    split; [reflexivity|].
    rewrite Htr, warnings_app, Hw. reflexivity.
Qed.

(** ** The record scan *)

Lemma parse_frame_more_fuel fuel : forall fuel' r f r',
  parse_frame fuel r f = Some r' -> (fuel <= fuel')%nat ->
  parse_frame fuel' r f = Some r'.
Proof.
  induction fuel as [|fuel IH]; intros fuel' r f r' Hp Hle; [discriminate|].
  destruct fuel' as [|fuel']; [lia|].
  cbn [parse_frame] in *.
  destruct (parse_round r f) as [r1|r1 f1]; [exact Hp|].
  apply (IH fuel' r1 f1 r' Hp). lia.
Qed.

(** X3.  The record scan ends, whatever the buffer holds: every round that
    continues has moved the cursor forward, below the fill length, and from
    a cursor [f] the scan returns within [buf_index_ - f + 1] rounds; the
    result is the same for every larger bound. *)
Theorem record_scan_terminates r f fuel :
  (Z.to_nat (buf_index_ r - f) < fuel)%nat ->
  (forall r' f', parse_round r f = Again r' f' ->
                 f < f' /\ f < buf_index_ r /\ buf_index_ r' = buf_index_ r)
  /\ exists r',
       parse_frame (S (Z.to_nat (buf_index_ r - f))) r f = Some r'
       /\ parse_frame fuel r f = Some r'.
Proof.
  intros Hfuel. split.
  - intros r' f' Hr. pose proof (parse_round_grows r f) as G.
    rewrite Hr in G. destruct G as ((pubs & (_ & _ & _ & _ & Hi & _) & _) & H1 & H2).
    repeat split; assumption.
  - destruct (parse_frame_grows (S (Z.to_nat (buf_index_ r - f))) r f)
      as (r' & _ & Hp & _); [lia|].
    exists r'. split; [exact Hp|].
    apply (parse_frame_more_fuel _ _ _ _ _ Hp). lia.
Qed.

Lemma record_scan_terminates_witness :
  exists r',
    parse_frame 27 two_records_received 0 = Some r'
    /\ parse_frame 100 two_records_received 0 = Some r'.
Proof.
  destruct (record_scan_terminates two_records_received 0 100) as [_ H].
  - vm_compute. lia.
  - exact H.
Defined.

(** X4.  Decoding is read-only on the frame: the call of [loop] in state
    END_FRAME_RECEIVED leaves the buffer, the fill length, the UART queue,
    the listeners and the configuration as they are, stores nothing, warns
    of nothing, and ends in OFF. *)
Theorem decoding_reads_only r :
  state_ r = END_FRAME_RECEIVED ->
  state_ (loop r) = OFF
  /\ buf_ (loop r) = buf_ r
  /\ buf_index_ (loop r) = buf_index_ r
  /\ uart_rx (loop r) = uart_rx r
  /\ mk2pvrouter_listeners_ (loop r) = mk2pvrouter_listeners_ r
  /\ checksum_area_end_ (loop r) = checksum_area_end_ r
  /\ baud_rate_ (loop r) = baud_rate_ r
  /\ exists evs, trace (loop r) = trace r ++ evs
                 /\ stores evs = [] /\ warnings evs = [].
Proof.
  intros Hst. unfold loop. rewrite Hst.
  destruct (parse_frame_total r)
    as (r' & pubs & Hp & (A1 & A2 & A3 & A4 & A5 & A6 & A7)
        & evs & Htr & _ & _ & Hs & Hw).
  rewrite Hp.
  cbn [state_ buf_ buf_index_ uart_rx mk2pvrouter_listeners_
       checksum_area_end_ baud_rate_ trace set_state].
  repeat split; try assumption.
  exists evs. repeat split; assumption.
Qed.

Lemma decoding_reads_only_witness :
  state_ (loop two_records_received) = OFF
  /\ buf_index_ (loop two_records_received) = 26
  /\ uart_rx (loop two_records_received) = [].
Proof.
  destruct (decoding_reads_only two_records_received)
    as (H1 & _ & H2 & H3 & _).
  - reflexivity.
  - rewrite H2, H3. split; [exact H1|split; reflexivity].
Defined.

(** ** Bytes in front of the start marker *)

Lemma noise_dropped k : forall r,
  (length (uart_rx r) <= k)%nat ->
  state_ r = ON ->
  ~ In START_FRAME (uart_rx r) ->
  exists n, loops n r = set_uart_rx [] r
            /\ Z.of_nat n <= Z.of_nat (length (uart_rx r)) / 128 + 1.
Proof.
  induction k as [|k IH]; intros r Hk Hst Hno;
    pose proof (loop_on r Hst) as Hloop;
    unfold read_chars_until_ in Hloop;
    destruct (read_chars_drop_spec START_FRAME (uart_rx r) 0 r ltac:(lia))
      as (consumed & rx' & Hcons & Hs & Hlen & Hout);
    rewrite Hs in Hloop;
    destruct (fst (read_chars_loop true START_FRAME (uart_rx r) 0 r)).
  1,3: exfalso; destruct Hout as (before & Hc & _); apply Hno;
    rewrite Hcons, Hc; apply in_or_app; left; apply in_or_app; right;
    left; reflexivity.
  - destruct (uart_rx r) as [|x rx] eqn:Erx; [|simpl in Hk; lia].
    destruct consumed; [|discriminate]. simpl in Hcons. subst rx'.
    exists 1%nat. cbn [loops]. rewrite Hloop.
    split; [reflexivity|]. simpl. lia.
  - destruct Hout as (Hnc & [Hend|Hend]).
    + destruct (IH (loop r)) as (n & Hn & Hb).
      * rewrite Hloop. cbn [uart_rx set_uart_rx].
        rewrite Hcons, length_app in Hk. lia.
      * rewrite Hloop. exact Hst.
      * rewrite Hloop. cbn [uart_rx set_uart_rx]. intros Hin. apply Hno.
        rewrite Hcons. apply in_or_app. right. exact Hin.
      * exists (S n). cbn [loops]. rewrite Hn, Hloop.
        split; [reflexivity|].
        rewrite Hloop in Hb. cbn [uart_rx set_uart_rx] in Hb.
        rewrite Hcons, length_app, Nat2Z.inj_add.
        replace (Z.of_nat (length consumed) + Z.of_nat (length rx'))
          with (Z.of_nat (length rx') + 1 * 128) by lia.
        rewrite Z.div_add by lia. lia.
    + subst rx'. exists 1%nat. cbn [loops]. rewrite Hloop.
      split; [reflexivity|].
      pose proof (Z.div_pos (Z.of_nat (length (uart_rx r))) 128). lia.
Qed.

(** X5.  In state ON the bytes in front of the start marker leave no trace.
    With the marker in the queue, after at most one call per 128 bytes in
    front of it plus one, the router is the router before, with the queue
    behind the marker and state START_FRAME_RECEIVED: buffer, fill length,
    listeners and log are untouched.  Without a marker the whole queue is
    dropped in the same way and the state stays ON. *)
Theorem noise_leaves_no_trace r :
  state_ r = ON ->
  (forall noise tail,
      uart_rx r = noise ++ START_FRAME :: tail ->
      ~ In START_FRAME noise ->
      exists n,
        loops n r = set_state START_FRAME_RECEIVED (set_uart_rx tail r)
        /\ (0 < n)%nat
        /\ Z.of_nat n <= Z.of_nat (length noise) / 128 + 1
        /\ (forall m, (m < n)%nat -> state_ (loops m r) = ON))
  /\ (~ In START_FRAME (uart_rx r) ->
      exists n, loops n r = set_uart_rx [] r
                /\ Z.of_nat n <= Z.of_nat (length (uart_rx r)) / 128 + 1).
Proof.
  intros Hst. split.
  - intros noise tail Hrx Hno.
    exact (start_marker_skipped (length noise) noise r tail (le_n _) Hst Hrx Hno).
  - intros Hno. exact (noise_dropped (length (uart_rx r)) r (le_n _) Hst Hno).
Qed.

Lemma noise_leaves_no_trace_witness :
  exists n,
    loops n (update (power_on demo_listeners (repeat 65 300 ++ [START_FRAME; 66])))
    = set_state START_FRAME_RECEIVED
        (set_uart_rx [66] (update (power_on demo_listeners
                                     (repeat 65 300 ++ [START_FRAME; 66]))))
    /\ Z.of_nat n <= 3.
Proof.
  destruct (noise_leaves_no_trace
              (update (power_on demo_listeners
                         (repeat 65 300 ++ [START_FRAME; 66]))))
    as [H _]; [reflexivity|].
  destruct (H (repeat 65 300) [66]) as (n & Hn & _ & Hb & _).
  - reflexivity.
  - intros Hin. apply repeat_spec in Hin. discriminate.
  - exists n. split; [exact Hn|].
    rewrite repeat_length in Hb. vm_compute in Hb. vm_compute. exact Hb.
Defined.

(** ** Receiving a frame *)

Lemma frame_received_after r noise frame rest :
  state_ r = ON ->
  buf_index_ r = 0 ->
  uart_rx r = noise ++ START_FRAME :: frame ++ END_FRAME :: rest ->
  ~ In START_FRAME noise ->
  ~ In END_FRAME frame ->
  Z.of_nat (length frame) <= MAX_BUF_SIZE - 1 ->
  exists n,
    state_ (loops n r) = END_FRAME_RECEIVED
    /\ uart_rx (loops n r) = rest
    /\ buf_index_ (loops n r) = Z.of_nat (length frame)
    /\ holds (buf_ (loops n r)) 0 frame
    /\ same_config r (loops n r)
    /\ (exists evs, trace (loops n r) = trace r ++ evs
                    /\ Forall (fun e => reader_event e = true) evs
                    /\ warnings evs = []
                    /\ stores evs = store_events 0 frame)
    /\ Z.of_nat n
       <= Z.of_nat (length noise) / 128 + Z.of_nat (length frame) / 128 + 2.
Proof.
  intros Hst Hidx Hrx Hnoise Hframe Hfit.
  destruct (start_marker_skipped (length noise) noise r _ (le_n _) Hst Hrx Hnoise)
    as (n1 & Hn1 & _ & Hb1 & _).
  set (r1 := set_state START_FRAME_RECEIVED
               (set_uart_rx (frame ++ END_FRAME :: rest) r)) in *.
  destruct (frame_accumulated (length frame) frame r1 rest (le_n _))
    as (n2 & Hs & Hu & Hb & Hh & _ & Hcfg & Hev & _ & Hb2 & _);
    try reflexivity; try assumption.
  - change (buf_index_ r1) with (buf_index_ r). lia.
  - change (buf_index_ r1) with (buf_index_ r). lia.
  - change (buf_index_ r1) with (buf_index_ r) in *.
    change (trace r1) with (trace r) in *.
    rewrite Hidx in *.
    exists (n1 + n2)%nat. rewrite loops_add, Hn1.
    repeat split; try assumption; try lia.
    + destruct Hcfg as (C1 & C2 & C3 & C4 & C5). exact C1.
    + destruct Hcfg as (C1 & C2 & C3 & C4 & C5). exact C2.
    + destruct Hcfg as (C1 & C2 & C3 & C4 & C5). exact C3.
    + destruct Hcfg as (C1 & C2 & C3 & C4 & C5). exact C4.
    + destruct Hcfg as (C1 & C2 & C3 & C4 & C5). exact C5.
Qed.

(** X6.  From state ON with an empty buffer, a frame between its two markers
    that fits is received whole: after at most one call of [loop] per 128
    bytes of noise and per 128 bytes of frame, plus two, the state is
    END_FRAME_RECEIVED, the buffer holds exactly the bytes between the
    markers (each stored once, at consecutive offsets from 0), the fill
    length is their number, the queue holds what followed the end marker,
    and nothing was logged.  Start markers inside the frame are data; the
    bytes in front of the first start marker and the two markers themselves
    are not stored. *)
Theorem frame_reception r noise frame rest :
  state_ r = ON ->
  buf_index_ r = 0 ->
  uart_rx r = noise ++ START_FRAME :: frame ++ END_FRAME :: rest ->
  ~ In START_FRAME noise ->
  ~ In END_FRAME frame ->
  Z.of_nat (length frame) <= MAX_BUF_SIZE - 1 ->
  exists n,
    state_ (loops n r) = END_FRAME_RECEIVED
    /\ uart_rx (loops n r) = rest
    /\ buf_index_ (loops n r) = Z.of_nat (length frame)
    /\ holds (buf_ (loops n r)) 0 frame
    /\ same_config r (loops n r)
    /\ (exists evs, trace (loops n r) = trace r ++ evs
                    /\ Forall (fun e => reader_event e = true) evs
                    /\ warnings evs = []
                    /\ stores evs = store_events 0 frame)
    /\ Z.of_nat n
       <= Z.of_nat (length noise) / 128 + Z.of_nat (length frame) / 128 + 2.
Proof.
  exact (frame_received_after r noise frame rest).
Qed.

Lemma frame_reception_witness :
  exists n,
    state_ (loops n (update (power_on demo_listeners
                               ([7; 8] ++ two_records_stream ++ [9]))))
    = END_FRAME_RECEIVED
    /\ uart_rx (loops n (update (power_on demo_listeners
                                   ([7; 8] ++ two_records_stream ++ [9]))))
       = [9]
    /\ Z.of_nat n <= 2.
Proof.
  destruct (frame_reception
              (update (power_on demo_listeners
                         ([7; 8] ++ two_records_stream ++ [9])))
              [7; 8] (frame_of (map wire_body demo_records)) [9])
    as (n & H1 & H2 & _ & _ & _ & _ & Hb).
  - reflexivity.
  - reflexivity.
  - reflexivity.
  - simpl. intuition discriminate.
  - simpl. intuition discriminate.
  - vm_compute. discriminate.
  - exists n. split; [exact H1|]. split; [exact H2|].
    vm_compute in Hb. vm_compute. exact Hb.
Defined.

(** X7.  The usable capacity of the frame buffer is [MAX_BUF_SIZE - 1]
    bytes: a frame of that many bytes between its markers is received, a
    frame one byte longer is abandoned with the buffer-full warning, state
    OFF, although the array has room for it. *)
Theorem frame_capacity r noise body rest :
  state_ r = ON ->
  buf_index_ r = 0 ->
  uart_rx r = noise ++ START_FRAME :: body ++ END_FRAME :: rest ->
  ~ In START_FRAME noise ->
  ~ In END_FRAME body ->
  (Z.of_nat (length body) <= MAX_BUF_SIZE - 1 ->
   exists n, state_ (loops n r) = END_FRAME_RECEIVED
             /\ buf_index_ (loops n r) = Z.of_nat (length body)
             /\ warnings (trace (loops n r)) = warnings (trace r))
  /\ (MAX_BUF_SIZE <= Z.of_nat (length body) ->
      exists n, state_ (loops n r) = OFF
                /\ warnings (trace (loops n r))
                   = warnings (trace r) ++ [INTERNAL_BUFFER_FULL]
                /\ published (trace (loops n r)) = published (trace r)).
Proof.
  intros Hst Hidx Hrx Hnoise Hbody. split; intros Hlen.
  - destruct (frame_received_after r noise body rest Hst Hidx Hrx Hnoise Hbody Hlen)
      as (n & H1 & _ & H3 & _ & _ & (evs & Htr & _ & Hw & _) & _).
    exists n. split; [exact H1|]. split; [exact H3|].
    rewrite Htr, warnings_app, Hw, app_nil_r. reflexivity.
  - destruct (start_marker_skipped (length noise) noise r _ (le_n _) Hst Hrx Hnoise)
      as (n1 & Hn1 & _).
    set (r1 := set_state START_FRAME_RECEIVED
                 (set_uart_rx (body ++ END_FRAME :: rest) r)) in *.
    destruct (overflow_reached (length body) body r1 (END_FRAME :: rest) (le_n _))
      as (n2 & Hs & (evs & Htr & Hev & Hw) & _); try reflexivity; try assumption.
    + change (buf_index_ r1) with (buf_index_ r). unfold MAX_BUF_SIZE. lia.
    + change (buf_index_ r1) with (buf_index_ r). lia.
    + exists (n1 + n2)%nat. rewrite loops_add, Hn1.
      split; [exact Hs|]. change (trace r1) with (trace r) in Htr.
      rewrite Htr, warnings_app, published_app, Hw.
      destruct (reader_events_parse_nothing evs Hev) as (_ & _ & Hp & _).
      rewrite Hp, app_nil_r. split; reflexivity.
Qed.

Lemma frame_capacity_witness :
  (exists n,
     state_ (loops n (update (power_on []
                        (START_FRAME :: repeat 65 1047 ++ [END_FRAME]))))
     = END_FRAME_RECEIVED)
  /\ (exists n,
        state_ (loops n (update (power_on []
                           (START_FRAME :: repeat 65 1048 ++ [END_FRAME]))))
        = OFF).
Proof.
  split.
  - destruct (frame_capacity
                (update (power_on [] (START_FRAME :: repeat 65 1047 ++ [END_FRAME])))
                [] (repeat 65 1047) []) as [H _].
    + reflexivity.
    + reflexivity.
    + reflexivity.
    + intros [].
    + intros Hin. apply repeat_spec in Hin. discriminate.
    + destruct H as (n & H & _).
      * rewrite repeat_length. unfold MAX_BUF_SIZE. lia.
      * exists n. exact H.
  - destruct (frame_capacity
                (update (power_on [] (START_FRAME :: repeat 65 1048 ++ [END_FRAME])))
                [] (repeat 65 1048) []) as [_ H].
    + reflexivity.
    + reflexivity.
    + reflexivity.
    + intros [].
    + intros Hin. apply repeat_spec in Hin. discriminate.
    + destruct H as (n & H & _).
      * rewrite repeat_length. unfold MAX_BUF_SIZE. lia.
      * exists n. exact H.
Defined.

(** ** Polling cycles *)

Lemma loop_frame_fields r bodies :
  state_ r = END_FRAME_RECEIVED ->
  holds (buf_ r) 0 (frame_of bodies) ->
  buf_index_ r = Z.of_nat (length (frame_of bodies)) ->
  buf_index_ r < MAX_BUF_SIZE ->
  0 <= checksum_area_end_ r ->
  MAX_TAG_SIZE <= Z.of_nat (length (tag_ r)) ->
  MAX_VAL_SIZE <= Z.of_nat (length (val_ r)) ->
  Forall body_delimited bodies ->
  exists r',
    loop r = set_state OFF r'
    /\ grows r r' (flat_map (decode_record (checksum_area_end_ r)) bodies).
Proof.
  intros Hst Hmem Hidx Hcap Hk Htag Hval Hbodies.
  rewrite frame_of_layout in Hmem, Hidx.
  destruct (parse_frame_layout (map (fun b => (b, [])) bodies) [] (parse_fuel r)
              r 0 []) as (r' & Hp & G); try assumption; try lia.
  - unfold MAX_BUF_SIZE in Hcap. lia.
  - rewrite app_nil_r. exact Hmem.
  - rewrite app_nil_r. lia.
  - intros [].
  - apply Forall_forall. intros [b g] Hin. apply in_map_iff in Hin.
    destruct Hin as (b' & Heq & Hin). inversion Heq; subst b' g.
    rewrite Forall_forall in Hbodies. destruct (Hbodies b Hin) as [H1 H2].
    unfold delimited. simpl. tauto.
  - left. reflexivity.
  - unfold parse_fuel. lia.
  - exists r'. rewrite map_map in G. simpl in G. rewrite map_id in G.
    split; [|exact G]. unfold loop. rewrite Hst, Hp. reflexivity.
Qed.

(** One cycle: the trigger, the frame received, the records decoded. *)
Lemma cycle_decoded r c rest :
  state_ r = OFF ->
  0 <= checksum_area_end_ r ->
  fields_kept r ->
  uart_rx r = cycle_stream c ++ rest ->
  cycle_ok c ->
  exists n,
    state_ (loops n (update r)) = OFF
    /\ uart_rx (loops n (update r)) = rest
    /\ checksum_area_end_ (loops n (update r)) = checksum_area_end_ r
    /\ mk2pvrouter_listeners_ (loops n (update r)) = mk2pvrouter_listeners_ r
    /\ fields_kept (loops n (update r))
    /\ published (trace (loops n (update r)))
       = published (trace r) ++ cycle_measurements (checksum_area_end_ r) c
    /\ delivered (trace (loops n (update r)))
       = delivered (trace r)
           ++ flat_map (deliveries (mk2pvrouter_listeners_ r))
                (cycle_measurements (checksum_area_end_ r) c)
    /\ warnings (trace (loops n (update r))) = warnings (trace r).
Proof.
  intros Hst Hk (Kt & Kv & Kp) Hrx (Hnoise & Hwf & Hend & Hfit).
  assert (Hup : update r = set_state ON (set_buf_index 0 r))
    by (unfold update; rewrite Hst; reflexivity).
  rewrite Hup. set (r0 := set_state ON (set_buf_index 0 r)).
  unfold cycle_stream in Hrx. rewrite <- app_assoc in Hrx.
  cbn [app] in Hrx. rewrite <- app_assoc in Hrx. cbn [app] in Hrx.
  destruct (frame_received_after r0 (fst c) (cycle_frame c) rest)
    as (n1 & H1 & H2 & H3 & H4 & (C1 & C2 & C3 & C4 & C5)
        & (evs & Htr & Hev & Hw & _) & _);
    try reflexivity; try assumption.
  set (r1 := loops n1 r0) in *.
  change (trace r0) with (trace r) in Htr.
  change (mk2pvrouter_listeners_ r0) with (mk2pvrouter_listeners_ r) in C1.
  change (checksum_area_end_ r0) with (checksum_area_end_ r) in C3.
  change (tag_ r0) with (tag_ r) in C4.
  change (val_ r0) with (val_ r) in C5.
  destruct (reader_events_parse_nothing evs Hev) as (_ & _ & Hp & Hd & _).
  assert (K1 : fields_kept r1).
  { unfold fields_kept. rewrite C4, C5, Htr, published_app, Hp, app_nil_r.
    repeat split; assumption. }
  destruct (loop_frame_fields r1 (map wire_body (snd c)))
    as (r2 & Hloop & G).
  - exact H1.
  - exact H4.
  - rewrite H3. reflexivity.
  - rewrite H3. unfold MAX_BUF_SIZE in *. lia.
  - rewrite C3. exact Hk.
  - rewrite C4. exact Kt.
  - rewrite C5. exact Kv.
  - apply Forall_forall. intros b Hin. apply in_map_iff in Hin.
    destruct Hin as (w & Hb & Hin). subst b. apply well_formed_delimited.
    rewrite Forall_forall in Hwf. exact (Hwf w Hin).
  - rewrite decode_well_formed_all in G by exact Hwf.
    pose proof (fields_kept_loop r1 K1) as K2.
    destruct (grows_published _ _ _ G) as [Gp Gd].
    destruct G as [(S1 & _ & S3 & _ & _ & _ & S7) (evs2 & Htr2 & _ & _ & _ & Hw2)].
    exists (n1 + 1)%nat. rewrite loops_add. fold r1. cbn [loops].
    split; [rewrite Hloop; reflexivity|].
    split; [rewrite Hloop; cbn [uart_rx set_state]; congruence|].
    split; [rewrite Hloop; cbn [checksum_area_end_ set_state]; congruence|].
    split; [rewrite Hloop; cbn [mk2pvrouter_listeners_ set_state]; congruence|].
    split; [exact K2|].
    rewrite Hloop. cbn [trace set_state]. unfold cycle_measurements.
    rewrite Gp, Gd, C1, C3, Htr2, Htr.
    rewrite !published_app, !delivered_app, !warnings_app, Hp, Hd, Hw, Hw2.
    rewrite !app_nil_r. repeat split; reflexivity.
Qed.

(** X8.  Cycle after cycle: with the frames of any number of polling cycles
    on the UART, each between its markers, of well-formed records, free of
    the end marker and within the capacity, possibly with bytes in front of
    its start marker, the host that calls [update] and then [loop] often
    enough for each cycle gets the valid records of every frame published
    and delivered, frame by frame and in order, nothing else, and no
    warning; what a frame leaves in the buffer has no effect on the next. *)
Theorem successive_cycles cs : forall r rest,
  state_ r = OFF ->
  0 <= checksum_area_end_ r ->
  fields_kept r ->
  uart_rx r = flat_map cycle_stream cs ++ rest ->
  Forall cycle_ok cs ->
  exists ns,
    length ns = length cs
    /\ state_ (run (polling ns) r) = OFF
    /\ uart_rx (run (polling ns) r) = rest
    /\ published (trace (run (polling ns) r))
       = published (trace r)
           ++ flat_map (cycle_measurements (checksum_area_end_ r)) cs
    /\ delivered (trace (run (polling ns) r))
       = delivered (trace r)
           ++ flat_map (deliveries (mk2pvrouter_listeners_ r))
                (flat_map (cycle_measurements (checksum_area_end_ r)) cs)
    /\ warnings (trace (run (polling ns) r)) = warnings (trace r).
Proof.
  induction cs as [|c cs IH]; intros r rest Hst Hk K Hrx Hok.
  - exists []. cbn. rewrite !app_nil_r. repeat split; try assumption.
  - inversion Hok as [|c' cs' Hc Hcs]; subst c' cs'.
    cbn [flat_map] in Hrx. rewrite <- app_assoc in Hrx.
    destruct (cycle_decoded r c _ Hst Hk K Hrx Hc)
      as (n & A1 & A2 & A3 & A4 & A5 & A6 & A7 & A8).
    destruct (IH (loops n (update r)) rest A1) as (ns & B1 & B2 & B3 & B4 & B5 & B6);
      try assumption.
    { rewrite A3. exact Hk. }
    exists (n :: ns).
    assert (Hrun : run (polling (n :: ns)) r = run (polling ns) (loops n (update r))).
    { unfold polling. cbn [flat_map]. cbn [app run act].
      rewrite run_app, run_loops. reflexivity. }
    rewrite Hrun. split; [cbn [length]; congruence|].
    split; [exact B2|]. split; [exact B3|].
    rewrite B4, B5, B6, A3, A4, A6, A7, A8.
    cbn [flat_map]. rewrite !flat_map_app, <- !app_assoc.
    repeat split; reflexivity.
Qed.

Lemma successive_cycles_witness :
  exists ns,
    published (trace (run (polling ns)
                        (power_on demo_listeners
                           (flat_map cycle_stream demo_cycles))))
    = [(TAG1, VAL1); (TAG2, VAL2); (TAG1, VAL1)].
Proof.
  destruct (successive_cycles demo_cycles
              (power_on demo_listeners (flat_map cycle_stream demo_cycles)) [])
    as (ns & _ & _ & _ & Hp & _).
  - reflexivity.
  - vm_compute. discriminate.
  - repeat split; try (vm_compute; discriminate). constructor.
  - rewrite app_nil_r. reflexivity.
  - constructor; [|constructor; [|constructor]];
      (split; [|split; [|split]]).
    + simpl. intuition discriminate.
    + repeat constructor; simpl; intuition discriminate.
    + vm_compute. intuition discriminate.
    + vm_compute. discriminate.
    + simpl. intuition discriminate.
    + repeat constructor; simpl; intuition discriminate.
    + vm_compute. intuition discriminate.
    + vm_compute. discriminate.
  - exists ns. rewrite Hp. reflexivity.
Defined.

(** ** The listeners *)

Lemma matching_listeners_app tag ls t :
  matching_listeners tag (ls ++ [t])
  = matching_listeners tag ls
      ++ (if str_eqb tag t then [length ls] else []).
Proof.
  unfold matching_listeners.
  rewrite length_app. cbn [length]. rewrite seq_app, filter_app.
  cbn [seq filter Nat.add]. rewrite nth_middle.
  f_equal.
  apply filter_ext_in. intros i Hi. apply in_seq in Hi.
  rewrite app_nth1 by lia. reflexivity.
Qed.

Lemma publish_value_delivered tag val r :
  delivered (trace (publish_value_ tag val r))
  = delivered (trace r)
      ++ map (fun j => (j, val))
             (matching_listeners tag (mk2pvrouter_listeners_ r)).
Proof.
  rewrite publish_value_trace, delivered_app. f_equal.
  cbn [delivered flat_map app].
  induction (matching_listeners tag (mk2pvrouter_listeners_ r)) as [|j l IH];
    [reflexivity|].
  cbn [map flat_map app]. f_equal. exact IH.
Qed.

(** X9.  Registration appends: a listener registered gets the next index,
    and a measurement published afterwards is delivered to the listeners
    that had it before, in the same order, and then to the new one if its
    tag is the measurement's.  A tag registered twice is served twice;
    nothing ever leaves the registry. *)
Theorem registration_appends t tag val r :
  mk2pvrouter_listeners_ (register_mk2pvrouter_listener t r)
  = mk2pvrouter_listeners_ r ++ [t]
  /\ delivered (trace (publish_value_ tag val
                         (register_mk2pvrouter_listener t r)))
     = delivered (trace (publish_value_ tag val r))
         ++ (if str_eqb tag t
             then [(length (mk2pvrouter_listeners_ r), val)] else [])
  /\ published (trace (publish_value_ tag val
                         (register_mk2pvrouter_listener t r)))
     = published (trace (publish_value_ tag val r)).
Proof.
  split; [reflexivity|]. split.
  - rewrite !publish_value_delivered.
    change (mk2pvrouter_listeners_ (register_mk2pvrouter_listener t r))
      with (mk2pvrouter_listeners_ r ++ [t]).
    change (trace (register_mk2pvrouter_listener t r)) with (trace r).
    rewrite matching_listeners_app, map_app, <- app_assoc.
    destruct (str_eqb tag t); reflexivity.
  - destruct (grows_published _ _ _
                (grows_publish tag val (register_mk2pvrouter_listener t r)))
      as [H1 _].
    destruct (grows_published _ _ _ (grows_publish tag val r)) as [H2 _].
    rewrite H1, H2. reflexivity.
Qed.

(** ** The checksum *)

Lemma zsum_Permutation l1 l2 : Permutation l1 l2 -> zsum l1 = zsum l2.
Proof.
  unfold zsum. intros H. induction H; cbn [fold_right]; lia.
Qed.

(** X10.  The checksum the verifier computes is a character between 0x20
    and 0x5F, so a record whose last byte is outside that range (a control
    character, a lower-case letter, a byte above 0x7F) is rejected with the
    CRC-mismatch log, whatever its content. *)
Theorem checksum_byte_range r grp grp_end :
  ~ (0x20 <= buf_ r (grp_end - 1) < 0x60) ->
  fst (check_crc_ r grp grp_end) = false
  /\ errors (trace (snd (check_crc_ r grp grp_end)))
     = errors (trace r)
         ++ [CRC_MISMATCH (calculate_crc_ r grp (grp_end - grp))
                          (buf_ r (grp_end - 1))].
Proof.
  intros Hout.
  pose proof (calculate_crc_range r grp (grp_end - grp)) as Hr.
  pose proof (check_crc_fst r grp grp_end) as Hf.
  replace (grp + (grp_end - grp - 1)) with (grp_end - 1) in Hf by lia.
  assert (Hne : (buf_ r (grp_end - 1) =? calculate_crc_ r grp (grp_end - grp))
                = false) by (apply Z.eqb_neq; lia).
  split; [rewrite Hf; exact Hne|].
  unfold check_crc_. cbn [buf_ emit].
  replace (grp + (grp_end - grp - 1)) with (grp_end - 1) by lia.
  rewrite !calculate_crc_emit, Hne. cbn [negb snd trace emit].
  rewrite !errors_app. cbn [errors flat_map app]. rewrite !app_nil_r.
  reflexivity.
Qed.

Lemma checksum_byte_range_witness :
  fst (check_crc_ (router_with_frame [] (record_bytes (record_body TAG1 VAL1 115)) [])
         1 12)
  = false.
Proof.
  destruct (checksum_byte_range
              (router_with_frame [] (record_bytes (record_body TAG1 VAL1 115)) [])
              1 12) as [H _].
  - intros [_ H]. vm_compute in H. discriminate.
  - exact H.
Defined.

(** X11.  The checksum is blind to the order of the bytes it covers: two
    records with the same last byte whose checked bytes are a permutation
    of one another get the same verdict.  A record that arrives with two
    characters swapped passes if the original does. *)
Theorem checksum_blind_to_order r1 r2 grp grp_end :
  checksum_area_end_ r1 = checksum_area_end_ r2 ->
  buf_ r1 (grp_end - 1) = buf_ r2 (grp_end - 1) ->
  Permutation
    (bytes (buf_ r1) grp (Z.to_nat (grp_end - grp - checksum_area_end_ r1)))
    (bytes (buf_ r2) grp (Z.to_nat (grp_end - grp - checksum_area_end_ r1))) ->
  calculate_crc_ r1 grp (grp_end - grp) = calculate_crc_ r2 grp (grp_end - grp)
  /\ fst (check_crc_ r1 grp grp_end) = fst (check_crc_ r2 grp grp_end).
Proof.
  intros Hk Hraw Hperm.
  assert (Hcalc : calculate_crc_ r1 grp (grp_end - grp)
                  = calculate_crc_ r2 grp (grp_end - grp)).
  { rewrite !calculate_crc_spec, <- Hk, (zsum_Permutation _ _ Hperm).
    reflexivity. }
  split; [exact Hcalc|].
  rewrite !check_crc_fst.
  replace (grp + (grp_end - grp - 1)) with (grp_end - 1) by lia.
  rewrite Hraw, Hcalc. reflexivity.
Qed.

Lemma checksum_blind_to_order_witness :
  fst (check_crc_
         (router_with_frame [] (record_bytes (record_body TAG1 [86; 76; 65; 49] CRC1)) [])
         1 12)
  = true.
Proof.
  destruct (checksum_blind_to_order
              (router_with_frame [] (record_bytes (record_body TAG1 VAL1 CRC1)) [])
              (router_with_frame []
                 (record_bytes (record_body TAG1 [86; 76; 65; 49] CRC1)) [])
              1 12) as [_ H].
  - reflexivity.
  - reflexivity.
  - vm_compute. do 6 apply perm_skip. apply perm_swap.
  - rewrite <- H. reflexivity.
Defined.

(** ** While the component is OFF *)

Lemma set_uart_rx_same r : set_uart_rx (uart_rx r) r = r.
Proof. destruct r. reflexivity. Qed.

(** X12.  Between the end of a cycle and the next [update] the component
    does not read: whatever the calls of [loop] and the arrivals, the router
    is the one before with the arrived bytes behind those already pending
    on the UART.  The next cycle starts with these bytes, not with what
    arrives after [update]. *)
Theorem off_reads_nothing sched : forall r,
  state_ r = OFF ->
  Forall (fun a => a <> Update) sched ->
  run sched r = set_uart_rx (uart_rx r ++ arrivals sched) r.
Proof.
  induction sched as [|a sched IH]; intros r Hst Hno.
  - cbn. rewrite app_nil_r, set_uart_rx_same. reflexivity.
  - inversion Hno as [|a' s' Ha Hs]; subst a' s'.
    destruct a as [received| |]; cbn [run act arrivals flat_map].
    + rewrite IH by assumption.
      cbn [uart_rx set_uart_rx]. rewrite <- app_assoc. reflexivity.
    + assert (Hl : loop r = r) by (unfold loop; rewrite Hst; reflexivity).
      rewrite Hl. cbn [app]. apply IH; assumption.
    + contradiction Ha. reflexivity.
Qed.

Lemma off_reads_nothing_witness :
  uart_rx (run [Loop; Receive [START_FRAME; 65]; Loop; Receive [END_FRAME]; Loop]
             (power_on demo_listeners [7]))
  = [7; START_FRAME; 65; END_FRAME].
Proof.
  rewrite (off_reads_nothing
             [Loop; Receive [START_FRAME; 65]; Loop; Receive [END_FRAME]; Loop]
             (power_on demo_listeners [7])).
  - reflexivity.
  - reflexivity.
  - repeat constructor; discriminate.
Defined.

(** ** A frame that arrives in pieces *)

Lemma same_config_refl r : same_config r r.
Proof. repeat split. Qed.

Lemma kept_refl r : kept r r.
Proof. split; [apply same_config_refl|apply only_read_refl]. Qed.

Lemma kept_trans r0 r1 r2 : kept r0 r1 -> kept r1 r2 -> kept r0 r2.
Proof.
  intros [C1 R1] [C2 R2].
  split; [exact (same_config_trans _ _ _ C1 C2)|exact (only_read_trans _ _ _ R1 R2)].
Qed.

Lemma assembling_state frame rest r future :
  assembling frame rest r future ->
  state_ r = ON \/ state_ r = START_FRAME_RECEIVED.
Proof. intros [(H & _)|(H & _)]; [left|right]; exact H. Qed.

(** One call of [loop] on the way through the frame. *)
Lemma loop_assembling frame rest r future :
  ~ In END_FRAME frame ->
  Z.of_nat (length frame) <= MAX_BUF_SIZE - 1 ->
  assembling frame rest r future ->
  (assembling frame rest (loop r) future
   \/ assembled frame rest (loop r) future)
  /\ kept r (loop r).
Proof.
  intros Hframe Hfit [(Hst & Hidx & noise & Hrx & Hnoise)
                     |(Hst & stored & todo & Efr & Hh & Hidx & Hrx)].
  - (* ON: looking for the start marker *)
    pose proof (loop_on r Hst) as Hloop.
    unfold read_chars_until_ in Hloop.
    destruct (read_chars_drop_spec START_FRAME (uart_rx r) 0 r ltac:(lia))
      as (consumed & rx' & Hcons & Hs & _ & Hout).
    rewrite Hs in Hloop. rewrite Hcons, <- app_assoc in Hrx.
    destruct (fst (read_chars_loop true START_FRAME (uart_rx r) 0 r)).
    + destruct Hout as (before & Hc & Hnb).
      rewrite Hc, <- app_assoc in Hrx. cbn [app] in Hrx.
      destruct (split_at_first _ _ _ _ _ Hrx Hnb Hnoise) as [_ Htail].
      rewrite Hloop. split.
      * left. right. split; [reflexivity|]. exists [], frame.
        cbn [buf_ buf_index_ uart_rx set_state set_uart_rx].
        split; [reflexivity|]. split; [intros i Hi; simpl in Hi; lia|].
        split; [exact Hidx|exact Htail].
      * split; [repeat split|apply only_read_same_trace; reflexivity].
    + destruct Hout as (Hnc & _).
      destruct (clean_prefix _ _ _ _ _ Hrx Hnc) as (a' & Ea & Erx).
      rewrite Hloop. split.
      * left. left. split; [exact Hst|]. split; [exact Hidx|].
        exists a'. split; [exact Erx|]. intros Hin. apply Hnoise.
        rewrite Ea. apply in_or_app. right. exact Hin.
      * split; [repeat split|apply only_read_same_trace; reflexivity].
  - (* START_FRAME_RECEIVED: accumulating *)
    pose proof (loop_start_frame_received r Hst) as Hloop.
    destruct (read_chars_until_spec false END_FRAME r ltac:(lia))
      as (consumed & evs & Hcons & _ & Htr & Hev & Hcfg & Hout).
    pose proof (read_chars_until_buf false END_FRAME r evs Htr) as Hbuf.
    assert (Htodo : ~ In END_FRAME todo).
    { intros Hin. apply Hframe. rewrite Efr. apply in_or_app. right. exact Hin. }
    rewrite Hcons, <- app_assoc in Hrx.
    destruct Hout as [[Hf Hfound]|[[Hf Hex]|[Hf Hov]]]; rewrite Hf in Hloop.
    + destruct Hfound as (before & Hc & Hnb & _ & Hw & Hsto & Hi & _).
      rewrite Hc, <- app_assoc in Hrx. cbn [app] in Hrx.
      destruct (split_at_first _ _ _ _ _ Hrx Hnb Htodo) as [Eb Htail].
      subst before.
      destruct (replay_store_events todo (buf_index_ r) (buf_ r)) as [Hh' Hl].
      rewrite Hloop. split.
      * right. split; [reflexivity|].
        cbn [buf_ buf_index_ uart_rx set_state].
        split.
        { rewrite Efr. apply holds_app. split.
          - intros i Hi'. rewrite Hbuf, Hsto, Hl by lia. apply Hh. exact Hi'.
          - cbn [Z.add]. rewrite <- Hidx.
            intros i Hi'. rewrite Hbuf, Hsto. apply Hh'. exact Hi'. }
        split; [rewrite Hi, Hidx, Efr, length_app; lia|exact Htail].
      * split; [exact Hcfg|]. exists evs. cbn [trace set_state].
        repeat split; assumption.
    + destruct Hex as (Hnc & Hst' & Hw & _ & Hsto & Hi & _).
      cbv beta iota in Hsto, Hi.
      destruct (clean_prefix _ _ _ _ _ Hrx Hnc) as (a' & Ea & Erx).
      destruct (replay_store_events consumed (buf_index_ r) (buf_ r)) as [Hh' Hl].
      rewrite Hloop. split.
      * left. right. split; [rewrite Hst'; exact Hst|].
        exists (stored ++ consumed), a'.
        split; [rewrite Efr, Ea, app_assoc; reflexivity|].
        split.
        { apply holds_app. split.
          - intros i Hi'. rewrite Hbuf, Hsto, Hl by lia. apply Hh. exact Hi'.
          - cbn [Z.add]. rewrite <- Hidx.
            intros i Hi'. rewrite Hbuf, Hsto. apply Hh'. exact Hi'. }
        split; [rewrite Hi, Hidx, length_app; lia|exact Erx].
      * split; [exact Hcfg|]. exists evs. repeat split; assumption.
    + exfalso.
      destruct Hov as (_ & before & x & Hc & Hnc & _ & _ & (_ & Hi & _) & Hfull).
      destruct (clean_prefix _ _ _ _ _ Hrx Hnc) as (a' & Ea & Erx).
      cbv beta iota in Hi.
      rewrite Efr, Ea, Hc, !length_app in Hfit. cbn [length] in Hfit. lia.
Qed.

(** Through a schedule: the frame is assembled at some point of it, or the
    router is still on its way at its end. *)
Lemma run_assembling frame rest sched : forall r,
  ~ In END_FRAME frame ->
  Z.of_nat (length frame) <= MAX_BUF_SIZE - 1 ->
  assembling frame rest r (arrivals sched) ->
  (exists k, (k <= length sched)%nat
             /\ assembled frame rest (run (firstn k sched) r)
                  (arrivals (skipn k sched))
             /\ kept r (run (firstn k sched) r))
  \/ (assembling frame rest (run sched r) [] /\ kept r (run sched r)).
Proof.
  induction sched as [|a sched IH]; intros r Hframe Hfit Has.
  - right. split; [exact Has|apply kept_refl].
  - assert (Hnext : (assembling frame rest (act a r) (arrivals sched)
                     \/ assembled frame rest (act a r) (arrivals sched))
                    /\ kept r (act a r)).
    { destruct a as [received| |]; cbn [act]; cbn [arrivals flat_map] in Has.
      - split; [|split; [repeat split
                        |apply only_read_same_trace; reflexivity]].
        left. unfold assembling in *.
        cbn [state_ uart_rx buf_index_ buf_ set_uart_rx].
        rewrite <- !app_assoc. exact Has.
      - apply loop_assembling; assumption.
      - unfold update.
        destruct (assembling_state _ _ _ _ Has) as [E|E]; rewrite E;
          (split; [left; exact Has|apply kept_refl]). }
    destruct Hnext as [[Has'|Hdone] Hk].
    + destruct (IH (act a r) Hframe Hfit Has')
        as [(k & Hk' & Hd & Hkept)|(Hend & Hkept)].
      * left. exists (S k). split; [simpl; lia|].
        cbn [firstn skipn run]. split; [exact Hd|].
        exact (kept_trans _ _ _ Hk Hkept).
      * right. cbn [run]. split; [exact Hend|].
        exact (kept_trans _ _ _ Hk Hkept).
    + left. exists 1%nat. split; [simpl; lia|].
      cbn [firstn skipn run]. split; [exact Hdone|exact Hk].
Qed.

(** With the rest of the stream pending, further calls of [loop] finish the
    frame. *)
Lemma assembling_finished frame rest r :
  ~ In END_FRAME frame ->
  Z.of_nat (length frame) <= MAX_BUF_SIZE - 1 ->
  assembling frame rest r [] ->
  exists n, assembled frame rest (loops n r) [] /\ kept r (loops n r).
Proof.
  intros Hframe Hfit [(Hst & Hidx & noise & Hrx & Hnoise)
                     |(Hst & stored & todo & Efr & Hh & Hidx & Hrx)];
    rewrite app_nil_r in Hrx.
  - destruct (frame_received_after r noise frame rest Hst Hidx Hrx Hnoise
                Hframe Hfit)
      as (n & H1 & H2 & H3 & H4 & Hcfg & (evs & Htr & Hev & Hw & _) & _).
    exists n. split.
    + split; [exact H1|]. split; [exact H4|]. split; [exact H3|].
      rewrite app_nil_r. exact H2.
    + split; [exact Hcfg|]. exists evs. repeat split; assumption.
  - assert (Htodo : ~ In END_FRAME todo).
    { intros Hin. apply Hframe. rewrite Efr. apply in_or_app. right. exact Hin. }
    destruct (frame_accumulated (length todo) todo r rest (le_n _) Hst)
      as (n & H1 & H2 & H3 & H4 & H5 & Hcfg & (evs & Htr & Hev & Hw & _) & _);
      try assumption; try lia.
    { rewrite Hidx. rewrite Efr, length_app in Hfit. lia. }
    exists n. split.
    + split; [exact H1|]. split.
      { rewrite Efr. apply holds_app. split.
        - intros i Hi. rewrite H5 by lia. apply Hh. exact Hi.
        - cbn [Z.add]. rewrite <- Hidx. exact H4. }
      split; [rewrite H3, Hidx, Efr, length_app; lia|].
      rewrite app_nil_r. exact H2.
    + split; [exact Hcfg|]. exists evs. repeat split; assumption.
Qed.

Lemma frame_assembled r sched noise frame rest :
  state_ r = ON ->
  buf_index_ r = 0 ->
  uart_rx r ++ arrivals sched
  = noise ++ START_FRAME :: frame ++ END_FRAME :: rest ->
  ~ In START_FRAME noise ->
  ~ In END_FRAME frame ->
  Z.of_nat (length frame) <= MAX_BUF_SIZE - 1 ->
  exists n k,
    assembled frame rest (run (firstn k (sched ++ repeat Loop n)) r)
      (arrivals (skipn k sched))
    /\ kept r (run (firstn k (sched ++ repeat Loop n)) r).
Proof.
  intros Hst Hidx Hrx Hnoise Hframe Hfit.
  assert (Has : assembling frame rest r (arrivals sched)).
  { left. split; [exact Hst|]. split; [exact Hidx|].
    exists noise. split; assumption. }
  destruct (run_assembling frame rest sched r Hframe Hfit Has)
    as [(k & Hk & Hd & Hkept)|(Hend & Hkept)].
  - exists O, k. cbn [repeat]. rewrite app_nil_r. split; assumption.
  - destruct (assembling_finished frame rest (run sched r) Hframe Hfit Hend)
      as (n & Hd & Hkept').
    exists n, (length sched + n)%nat.
    assert (Hall : firstn (length sched + n) (sched ++ repeat Loop n)
                   = sched ++ repeat Loop n).
    { apply firstn_all2. rewrite length_app, repeat_length. lia. }
    rewrite Hall, run_app, run_loops.
    rewrite skipn_all2 by lia. split; [exact Hd|].
    exact (kept_trans _ _ _ Hkept Hkept').
Qed.

(** X13.  Reception does not depend on how the stream arrives.  With the
    host calling [loop] and [update] in any order while the UART receives
    the stream in any pieces, from state ON with an empty buffer: at some
    point of the schedule (followed, if it has too few calls of [loop], by
    more of them) the state is END_FRAME_RECEIVED, the buffer holds exactly
    the bytes between the markers, the fill length is their number, and
    nothing was logged or published on the way. *)
Theorem frame_received_in_pieces r sched noise frame rest :
  state_ r = ON ->
  buf_index_ r = 0 ->
  uart_rx r ++ arrivals sched
  = noise ++ START_FRAME :: frame ++ END_FRAME :: rest ->
  ~ In START_FRAME noise ->
  ~ In END_FRAME frame ->
  Z.of_nat (length frame) <= MAX_BUF_SIZE - 1 ->
  exists n k,
    state_ (run (firstn k (sched ++ repeat Loop n)) r) = END_FRAME_RECEIVED
    /\ holds (buf_ (run (firstn k (sched ++ repeat Loop n)) r)) 0 frame
    /\ buf_index_ (run (firstn k (sched ++ repeat Loop n)) r)
       = Z.of_nat (length frame)
    /\ uart_rx (run (firstn k (sched ++ repeat Loop n)) r)
         ++ arrivals (skipn k sched) = rest
    /\ same_config r (run (firstn k (sched ++ repeat Loop n)) r)
    /\ warnings (trace (run (firstn k (sched ++ repeat Loop n)) r))
       = warnings (trace r)
    /\ published (trace (run (firstn k (sched ++ repeat Loop n)) r))
       = published (trace r).
Proof.
  intros Hst Hidx Hrx Hnoise Hframe Hfit.
  destruct (frame_assembled r sched noise frame rest Hst Hidx Hrx Hnoise
              Hframe Hfit)
    as (n & k & (H1 & H2 & H3 & H4) & Hcfg & evs & Htr & Hev & Hw).
  exists n, k.
  destruct (reader_events_parse_nothing evs Hev) as (_ & _ & Hp & _).
  split; [exact H1|]. split; [exact H2|]. split; [exact H3|].
  split; [exact H4|]. split; [exact Hcfg|].
  rewrite Htr, warnings_app, published_app, Hw, Hp, !app_nil_r.
  split; reflexivity.
Qed.

Lemma frame_received_in_pieces_witness :
  exists n k,
    state_ (run (firstn k (pieces_schedule ++ repeat Loop n))
              (update (power_on demo_listeners [])))
    = END_FRAME_RECEIVED
    /\ buf_index_ (run (firstn k (pieces_schedule ++ repeat Loop n))
                     (update (power_on demo_listeners [])))
       = 26.
Proof.
  destruct (frame_received_in_pieces (update (power_on demo_listeners []))
              pieces_schedule [7] (frame_of (map wire_body demo_records)) [9])
    as (n & k & H1 & _ & H3 & _).
  - reflexivity.
  - reflexivity.
  - reflexivity.
  - simpl. intuition discriminate.
  - simpl. intuition discriminate.
  - vm_compute. discriminate.
  - exists n, k. split; [exact H1|exact H3].
Defined.

(** X14.  Decoding does not depend on how the stream arrives either: for a
    frame of well-formed records that arrives in any pieces under any
    schedule of [loop] and [update] calls, the call of [loop] that follows
    the reception publishes the valid records of the frame, in order, and
    delivers each to the listeners of its tag; nothing else is published
    and no warning is logged. *)
Theorem records_decoded_in_pieces r sched noise ws rest :
  state_ r = ON ->
  buf_index_ r = 0 ->
  0 <= checksum_area_end_ r ->
  MAX_TAG_SIZE <= Z.of_nat (length (tag_ r)) ->
  MAX_VAL_SIZE <= Z.of_nat (length (val_ r)) ->
  uart_rx r ++ arrivals sched
  = noise ++ START_FRAME :: frame_of (map wire_body ws) ++ END_FRAME :: rest ->
  ~ In START_FRAME noise ->
  cycle_ok (noise, ws) ->
  exists n k,
    state_ (run (firstn k (sched ++ repeat Loop n)) r) = END_FRAME_RECEIVED
    /\ state_ (loop (run (firstn k (sched ++ repeat Loop n)) r)) = OFF
    /\ published (trace (loop (run (firstn k (sched ++ repeat Loop n)) r)))
       = published (trace r)
           ++ map measurement_of (filter (valid_record (checksum_area_end_ r)) ws)
    /\ delivered (trace (loop (run (firstn k (sched ++ repeat Loop n)) r)))
       = delivered (trace r)
           ++ flat_map (deliveries (mk2pvrouter_listeners_ r))
                (map measurement_of
                   (filter (valid_record (checksum_area_end_ r)) ws))
    /\ warnings (trace (loop (run (firstn k (sched ++ repeat Loop n)) r)))
       = warnings (trace r).
Proof.
  intros Hst Hidx Hk Kt Kv Hrx Hnoise (_ & Hwf & Hend & Hfit).
  unfold cycle_frame in Hend, Hfit. cbn [snd] in Hwf, Hend, Hfit.
  destruct (frame_assembled r sched noise (frame_of (map wire_body ws)) rest
              Hst Hidx Hrx Hnoise Hend Hfit)
    as (n & k & (H1 & H2 & H3 & H4) & (C1 & C2 & C3 & C4 & C5)
        & evs & Htr & Hev & Hw).
  exists n, k. set (r1 := run (firstn k (sched ++ repeat Loop n)) r) in *.
  destruct (reader_events_parse_nothing evs Hev) as (_ & _ & Hp & Hd & _).
  destruct (loop_frame_fields r1 (map wire_body ws)) as (r2 & Hloop & G).
  - exact H1.
  - exact H2.
  - exact H3.
  - rewrite H3. unfold MAX_BUF_SIZE in *. lia.
  - rewrite C3. exact Hk.
  - rewrite C4. exact Kt.
  - rewrite C5. exact Kv.
  - apply Forall_forall. intros b Hin. apply in_map_iff in Hin.
    destruct Hin as (w & Hb & Hin). subst b. apply well_formed_delimited.
    rewrite Forall_forall in Hwf. exact (Hwf w Hin).
  - rewrite decode_well_formed_all in G by exact Hwf.
    destruct (grows_published _ _ _ G) as [Gp Gd].
    destruct G as [_ (evs2 & Htr2 & _ & _ & _ & Hw2)].
    split; [exact H1|]. rewrite Hloop. cbn [state_ trace set_state].
    split; [reflexivity|].
    rewrite Gp, Gd, C1, C3, Htr2, Htr.
    rewrite !published_app, !delivered_app, !warnings_app, Hp, Hd, Hw, Hw2.
    rewrite !app_nil_r. repeat split; reflexivity.
Qed.

Lemma records_decoded_in_pieces_witness :
  exists n k,
    published (trace (loop (run (firstn k (pieces_schedule ++ repeat Loop n))
                              (update (power_on demo_listeners [])))))
    = [(TAG1, VAL1); (TAG2, VAL2)].
Proof.
  destruct (records_decoded_in_pieces (update (power_on demo_listeners []))
              pieces_schedule [7] demo_records [9])
    as (n & k & _ & _ & Hp & _).
  - reflexivity.
  - reflexivity.
  - vm_compute. discriminate.
  - vm_compute. discriminate.
  - vm_compute. discriminate.
  - reflexivity.
  - simpl. intuition discriminate.
  - split; [|split; [|split]].
    + simpl. intuition discriminate.
    + repeat constructor; simpl; intuition discriminate.
    + vm_compute. intuition discriminate.
    + vm_compute. discriminate.
  - exists n, k. rewrite Hp. reflexivity.
Defined.

(** ** The record scan on any buffer *)

(** One round on a record, with the place the cursor is left at. *)
Lemma parse_round_step r f gap body :
  0 <= f ->
  0 <= checksum_area_end_ r ->
  buf_index_ r < 2 ^ 32 ->
  holds (buf_ r) f (gap ++ record_bytes body) ->
  f + Z.of_nat (length (gap ++ record_bytes body)) <= buf_index_ r ->
  ~ In LINE_FEED gap ->
  ~ In CARRIAGE_RETURN body ->
  MAX_TAG_SIZE <= Z.of_nat (length (tag_ r)) ->
  MAX_VAL_SIZE <= Z.of_nat (length (val_ r)) ->
  exists r',
    parse_round r f
    = Again r' (f + Z.of_nat (length gap) + 1
                + Z.of_nat (record_advance (checksum_area_end_ r) body))
    /\ (record_advance (checksum_area_end_ r) body <= length body + 1)%nat
    /\ grows r r' (decode_record (checksum_area_end_ r) body)
    /\ length (tag_ r') = length (tag_ r)
    /\ length (val_ r') = length (val_ r).
Proof.
  intros Hf Hk Hfill Hmem Hlen Hgap Hbody Htag Hval.
  rewrite length_app, record_bytes_length in Hlen.
  apply holds_app in Hmem. destruct Hmem as [Hmgap Hmrec].
  unfold record_bytes in Hmrec. apply holds_cons in Hmrec.
  destruct Hmrec as [Hq Hmrec]. apply holds_app in Hmrec.
  destruct Hmrec as [Hmbody Hmcr]. apply holds_cons in Hmcr.
  destruct Hmcr as [He _].
  set (q := f + Z.of_nat (length gap)) in *.
  set (e := q + 1 + Z.of_nat (length body)) in *.
  assert (Hn : (buf_index_ r - 1) mod 2 ^ 32 = buf_index_ r - 1)
    by (apply Z.mod_small; lia).
  assert (Hlf : memchr (buf_ r) f LINE_FEED ((buf_index_ r - 1) mod 2 ^ 32)
                = Some q).
  { rewrite Hn. apply memchr_first; [lia|assumption|].
    intros i Hi. apply (holds_not_in _ f gap); try assumption; lia. }
  assert (Hcr : memchr (buf_ r) (q + 1) CARRIAGE_RETURN (buf_index_ r - (q + 1))
                = Some e).
  { apply memchr_first; [lia|assumption|].
    intros i Hi. apply (holds_not_in _ (q + 1) body); try assumption; lia. }
  unfold parse_round, parse_group. cbv zeta. rewrite Hlf.
  cbn [buf_index_ buf_ emit].
  assert (Hguard : (q <? buf_index_ r) = true) by (apply Z.ltb_lt; lia).
  rewrite Hguard. cbn [negb]. rewrite Hcr.
  match goal with
  | |- context [check_crc_ ?a (q + 1) e] => set (r2 := a)
  end.
  assert (G2 : grows r r2 []).
  { change (@nil (str * str)) with ([] ++ @nil (str * str)).
    eapply grows_trans; apply grows_emit; reflexivity. }
  destruct (check_crc_grows r2 (q + 1) e) as (G3 & Ht3 & Hv3).
  pose proof (check_crc_record r2 (q + 1) body Hk Hmbody) as Hok.
  replace (q + 1 - 1) with q in Hok by lia. specialize (Hok Hq).
  fold e in Hok.
  destruct (check_crc_ r2 (q + 1) e) as [ok r3]. cbn [fst snd] in *.
  assert (G3' : grows r r3 []).
  { change (@nil (str * str)) with ([] ++ @nil (str * str)).
    eapply grows_trans; eassumption. }
  assert (Hbuf3 : buf_ r3 = buf_ r) by apply G3'.
  assert (Hk3 : checksum_area_end_ r2 = checksum_area_end_ r) by reflexivity.
  rewrite Hk3 in Hok.
  destruct ok; cbn [negb].
  2:{ exists r3. unfold record_advance. rewrite <- Hok.
      change (Z.of_nat 0) with 0. rewrite Z.add_0_r.
      rewrite decode_record_bad_crc by (symmetry; assumption).
      round_done; [exact G3'|rewrite Ht3|rewrite Hv3]; reflexivity. }
  (* the tag *)
  destruct (get_field_holds (buf_ r) (tag_ r3) (q + 1) body MAX_TAG_SIZE
              Hmbody ltac:(rewrite Ht3; exact Htag)) as (t & Hget1 & Hlt & Hct).
  fold e in Hget1. rewrite Hbuf3, Hget1.
  assert (G4 : grows r (set_tag t r3) []).
  { change (@nil (str * str)) with ([] ++ @nil (str * str)).
    eapply grows_trans; [exact G3'|]. apply grows_set_tag. }
  unfold decode_record, record_advance. rewrite <- Hok.
  destruct (index_of TAB body) as [tl|] eqn:Etl.
  2:{ cbn [Z.eqb orb]. exists (emit (EvLogE INVALID_TAG) (set_tag t r3)).
      change (Z.of_nat 0) with 0. rewrite Z.add_0_r. round_done.
      - change (@nil (str * str)) with ([] ++ @nil (str * str)).
        eapply grows_trans; [exact G4|]. apply grows_emit; reflexivity.
      - cbn [tag_ emit set_tag]. rewrite Hlt, Ht3. reflexivity.
      - cbn [val_ emit set_tag]. rewrite Hv3. reflexivity. }
  assert (Hsame1 : (Z.of_nat tl =? 0) || (Z.of_nat tl >=? MAX_TAG_SIZE)
                   = negb (field_len_ok tl MAX_TAG_SIZE)).
  { apply field_len_test. }
  rewrite Hsame1.
  destruct (field_len_ok tl MAX_TAG_SIZE) eqn:Eok1; cbn [negb].
  2:{ exists (emit (EvLogE INVALID_TAG) (set_tag t r3)).
      change (Z.of_nat 0) with 0. rewrite Z.add_0_r. round_done.
      - change (@nil (str * str)) with ([] ++ @nil (str * str)).
        eapply grows_trans; [exact G4|]. apply grows_emit; reflexivity.
      - cbn [tag_ emit set_tag]. rewrite Hlt, Ht3. reflexivity.
      - cbn [val_ emit set_tag]. rewrite Hv3. reflexivity. }
  (* the value *)
  pose proof (index_of_Some _ _ _ Etl) as (Htl & Htab1 & _).
  set (rest := skipn (S tl) body).
  assert (Hmrest : holds (buf_ r) (q + 1 + (Z.of_nat tl + 1)) rest).
  { replace (q + 1 + (Z.of_nat tl + 1)) with (q + 1 + Z.of_nat (S tl)) by lia.
    apply holds_skipn; [assumption|lia]. }
  assert (Hrestlen : length rest = (length body - S tl)%nat)
    by (unfold rest; apply length_skipn).
  cbn [buf_ val_ set_tag tag_].
  destruct (get_field_holds (buf_ r) (val_ r3) (q + 1 + (Z.of_nat tl + 1)) rest
              MAX_VAL_SIZE Hmrest ltac:(rewrite Hv3; exact Hval))
    as (v & Hget2 & Hlv & Hcv).
  replace (q + 1 + (Z.of_nat tl + 1) + Z.of_nat (length rest)) with e in Hget2
    by (unfold e; lia).
  rewrite Hbuf3, Hget2.
  assert (G5 : grows r (set_val v (set_tag t r3)) []).
  { change (@nil (str * str)) with ([] ++ @nil (str * str)).
    eapply grows_trans; [exact G4|]. apply grows_set_val. }
  destruct (index_of TAB rest) as [vl|] eqn:Evl.
  2:{ cbn [Z.eqb orb].
      eexists (emit _ (set_val v (set_tag t r3))).
      replace (q + 1 + Z.of_nat (S tl)) with (q + 1 + (Z.of_nat tl + 1)) by lia.
      round_done.
      - change (@nil (str * str)) with ([] ++ @nil (str * str)).
        eapply grows_trans; [exact G5|]. apply grows_emit; reflexivity.
      - cbn [tag_ emit set_tag set_val]. rewrite Hlt, Ht3. reflexivity.
      - cbn [val_ emit set_tag set_val]. rewrite Hlv, Hv3. reflexivity. }
  assert (Hsame2 : (Z.of_nat vl =? 0) || (Z.of_nat vl >=? MAX_VAL_SIZE)
                   = negb (field_len_ok vl MAX_VAL_SIZE)).
  { apply field_len_test. }
  rewrite Hsame2.
  destruct (field_len_ok vl MAX_VAL_SIZE) eqn:Eok2; cbn [negb].
  2:{ eexists (emit _ (set_val v (set_tag t r3))).
      replace (q + 1 + Z.of_nat (S tl)) with (q + 1 + (Z.of_nat tl + 1)) by lia.
      round_done.
      - change (@nil (str * str)) with ([] ++ @nil (str * str)).
        eapply grows_trans; [exact G5|]. apply grows_emit; reflexivity.
      - cbn [tag_ emit set_tag set_val]. rewrite Hlt, Ht3. reflexivity.
      - cbn [val_ emit set_tag set_val]. rewrite Hlv, Hv3. reflexivity. }
  (* both fields are fine: the record is published *)
  pose proof (index_of_Some _ _ _ Evl) as (Hvl & Htab2 & _).
  assert (Hroom : (tl + vl + 3 <= length body)%nat).
  { destruct (record_crc_ok_last _ _ (eq_sym Hok)) as [_ Hlast].
    destruct (Nat.eq_dec (S tl + vl) (length body - 1)) as [Heq|Hne]; [|lia].
    exfalso. unfold rest in Htab2. rewrite nth_skipn in Htab2.
    rewrite Heq in Htab2. rewrite Htab2 in Hlast. unfold TAB in Hlast. lia. }
  cbn [tag_ val_ set_val set_tag].
  eexists (publish_value_ (c_str t) (c_str v) (set_val v (set_tag t r3))).
  replace (q + 1 + Z.of_nat (S tl + vl + 3))
    with (q + 1 + (Z.of_nat tl + 1) + (Z.of_nat vl + 1 + 1 + 1)) by lia.
  assert (Ect : c_str t = c_str (firstn tl body)).
  { apply Hct; [reflexivity|].
    unfold field_len_ok in Eok1. apply andb_true_iff in Eok1.
    destruct Eok1 as [_ Eok1]. apply Z.ltb_lt in Eok1. exact Eok1. }
  assert (Ecv : c_str v = c_str (firstn vl rest)).
  { apply Hcv; [reflexivity|].
    unfold field_len_ok in Eok2. apply andb_true_iff in Eok2.
    destruct Eok2 as [_ Eok2]. apply Z.ltb_lt in Eok2. exact Eok2. }
  destruct (publish_loop_frame (c_str t) (c_str v)
              (mk2pvrouter_listeners_ (set_val v (set_tag t r3))) 0
              (emit (EvPublish (c_str t) (c_str v)) (set_val v (set_tag t r3))))
    as (_ & Htp & Hvp & _).
  round_done.
  - rewrite <- Ect, <- Ecv.
    change [(c_str t, c_str v)] with ([] ++ [(c_str t, c_str v)]).
    eapply grows_trans; [exact G5|]. apply grows_publish.
  - unfold publish_value_.
    rewrite Htp. cbn [tag_ emit set_tag set_val]. rewrite Hlt, Ht3. reflexivity.
  - unfold publish_value_.
    rewrite Hvp. cbn [val_ emit set_tag set_val]. rewrite Hlv, Hv3. reflexivity.
Qed.

Lemma index_of_split c l : forall i,
  index_of c l = Some i ->
  l = firstn i l ++ c :: skipn (S i) l /\ ~ In c (firstn i l).
Proof.
  induction l as [|x l IH]; intros i H; [discriminate|].
  cbn [index_of] in H. destruct (x =? c) eqn:E.
  - inversion H; subst i. apply Z.eqb_eq in E. subst x.
    split; [reflexivity|intros []].
  - destruct (index_of c l) as [i'|]; [|discriminate].
    inversion H; subst i. destruct (IH i' eq_refl) as [E1 E2].
    cbn [firstn skipn app]. split.
    + f_equal. exact E1.
    + apply Z.eqb_neq in E. intros [Hx|Hx]; [congruence|exact (E2 Hx)].
Qed.

(** The record scan of the source and the scan of the list of buffer bytes
    go round by round. *)
Lemma parse_frame_decodes frame fuel : forall r f,
  holds (buf_ r) 0 frame ->
  buf_index_ r = Z.of_nat (length frame) ->
  buf_index_ r < 2 ^ 32 ->
  0 <= checksum_area_end_ r ->
  MAX_TAG_SIZE <= Z.of_nat (length (tag_ r)) ->
  MAX_VAL_SIZE <= Z.of_nat (length (val_ r)) ->
  (f <= length frame)%nat ->
  (length frame - f < fuel)%nat ->
  exists r',
    parse_frame fuel r (Z.of_nat f) = Some r'
    /\ grows r r' (decode_frame fuel (checksum_area_end_ r) frame f).
Proof.
  induction fuel as [|fuel IH]; intros r f Hmem Hidx Hfill Hk Htag Hval Hf Hfuel;
    [lia|].
  cbn [parse_frame decode_frame].
  assert (Hrest : holds (buf_ r) (Z.of_nat f) (skipn f frame)).
  { pose proof (holds_skipn _ _ _ f Hmem Hf) as H. exact H. }
  assert (Hlrest : length (skipn f frame) = (length frame - f)%nat)
    by apply length_skipn.
  destruct (index_of LINE_FEED (skipn f frame)) as [g|] eqn:Elf.
  2:{ (* no line feed is left *)
      destruct (parse_round_tail r (Z.of_nat f) (skipn f frame) [])
        as (r' & Hr & G).
      - rewrite app_nil_r. exact Hrest.
      - rewrite app_nil_r, Hlrest. lia.
      - exact (index_of_None _ _ Elf).
      - left. reflexivity.
      - rewrite Hr. exists r'. split; [reflexivity|exact G]. }
  destruct (index_of_split _ _ _ Elf) as [Esplit Hgap].
  pose proof (index_of_Some _ _ _ Elf) as (Hg & _ & _).
  assert (Hs : skipn (S g) (skipn f frame) = skipn (f + g + 1) frame).
  { rewrite skipn_skipn. f_equal. lia. }
  rewrite Hs in Esplit.
  set (gap := firstn g (skipn f frame)) in *.
  assert (Hlgap : length gap = g) by (unfold gap; apply firstn_length_le; lia).
  set (after := skipn (f + g + 1) frame) in *.
  assert (Hlafter : length after = (length frame - (f + g + 1))%nat)
    by apply length_skipn.
  destruct (index_of CARRIAGE_RETURN after) as [n|] eqn:Ecr.
  2:{ (* a line feed that no carriage return follows *)
      destruct (parse_round_tail r (Z.of_nat f) gap (LINE_FEED :: after))
        as (r' & Hr & G).
      - rewrite <- Esplit. exact Hrest.
      - rewrite <- Esplit, Hlrest. lia.
      - exact Hgap.
      - right. exists after. split; [reflexivity|].
        exact (index_of_None _ _ Ecr).
      - rewrite Hr. exists r'. split; [reflexivity|exact G]. }
  destruct (index_of_split _ _ _ Ecr) as [Esplit2 Hbody].
  pose proof (index_of_Some _ _ _ Ecr) as (Hn & _ & _).
  set (body := firstn n after) in *.
  assert (Hlbody : length body = n) by (unfold body; apply firstn_length_le; lia).
  assert (Hwhole : skipn f frame
                   = (gap ++ record_bytes body) ++ skipn (S n) after).
  { rewrite Esplit at 1. rewrite Esplit2 at 1. unfold record_bytes.
    rewrite <- !app_assoc. cbn [app]. rewrite <- app_assoc. reflexivity. }
  assert (Hlen : (length (gap ++ record_bytes body) <= length frame - f)%nat).
  { pose proof (f_equal (@length Z) Hwhole) as HL.
    rewrite length_app in HL. lia. }
  destruct (parse_round_step r (Z.of_nat f) gap body)
    as (r1 & Hr & Hd & G & Ht1 & Hv1); try assumption; try lia.
  { rewrite Hwhole in Hrest. apply holds_app in Hrest. exact (proj1 Hrest). }
  rewrite Hr. rewrite Hlgap.
  set (d := record_advance (checksum_area_end_ r) body) in *.
  replace (Z.of_nat f + Z.of_nat g + 1 + Z.of_nat d)
    with (Z.of_nat (f + g + 1 + d)) by lia.
  rewrite length_app, record_bytes_length, Hlgap, Hlbody in Hlen.
  destruct G as [Hsame Hevs].
  pose proof Hsame as (_ & _ & S3 & S4 & S5 & _).
  destruct (IH r1 (f + g + 1 + d)%nat) as (r' & Hp & G').
  - rewrite S4. exact Hmem.
  - rewrite S5. exact Hidx.
  - rewrite S5. exact Hfill.
  - rewrite S3. exact Hk.
  - rewrite Ht1. exact Htag.
  - rewrite Hv1. exact Hval.
  - lia.
  - lia.
  - exists r'. split; [exact Hp|].
    rewrite S3 in G'.
    exact (grows_trans _ _ _ _ _ (conj Hsame Hevs) G').
Qed.

(** X15.  What [loop] publishes from a received frame, for every content of
    the buffer: exactly what the scan of the list of the buffer's bytes
    yields.  That scan looks for the next line feed from the cursor, takes
    the bytes up to the next carriage return as a record, publishes it when
    its checksum and both fields are accepted, and goes on from where the
    cursor was left: at the start of the record when the checksum or the tag
    was refused, behind the tag when the value was refused, behind the
    terminator otherwise. *)
Theorem loop_decodes_every_frame r frame :
  frame_received r frame ->
  state_ (loop r) = OFF
  /\ published (trace (loop r))
     = published (trace r)
         ++ decode_frame (S (length frame)) (checksum_area_end_ r) frame 0
  /\ delivered (trace (loop r))
     = delivered (trace r)
         ++ flat_map (deliveries (mk2pvrouter_listeners_ r))
              (decode_frame (S (length frame)) (checksum_area_end_ r) frame 0).
Proof.
  intros (Hst & Hmem & Hidx & Hcap & Hk & Htag & Hval).
  destruct (parse_frame_decodes frame (S (length frame)) r 0)
    as (r' & Hp & G); try assumption; try lia.
  - unfold MAX_BUF_SIZE in Hcap. lia.
  - assert (Hfuel : parse_fuel r = S (length frame)).
    { unfold parse_fuel. rewrite Hidx, Nat2Z.id. reflexivity. }
    unfold loop. rewrite Hst, Hfuel. change (Z.of_nat 0) with 0 in Hp.
    rewrite Hp. cbn [state_ trace set_state].
    destruct (grows_published _ _ _ G) as [Gp Gd].
    split; [reflexivity|]. split; assumption.
Qed.

Lemma loop_decodes_every_frame_witness :
  published (trace (loop (router_with_frame demo_listeners ragged_frame [])))
  = [(TAG1, VAL1)].
Proof.
  destruct (loop_decodes_every_frame
              (router_with_frame demo_listeners ragged_frame []) ragged_frame)
    as (_ & H & _).
  - apply router_with_frame_received. vm_compute. reflexivity.
  - rewrite H. vm_compute. reflexivity.
Defined.

(** ** How far the record scan reads *)

Lemma holds_self mem s n : holds mem s (bytes mem s n).
Proof.
  unfold holds, bytes. intros i Hi. rewrite length_map, length_seq in Hi.
  rewrite (nth_indep _ 0 (mem (s + Z.of_nat 0)))
    by (rewrite length_map, length_seq; lia).
  rewrite (map_nth (fun j => mem (s + Z.of_nat j)) (seq 0 n) 0%nat i).
  rewrite seq_nth by lia. reflexivity.
Qed.

Lemma reads_within_refl fill r : reads_within fill r r.
Proof. exists []. rewrite app_nil_r. split; [reflexivity|constructor]. Qed.

Lemma reads_within_app fill r0 r r' evs :
  trace r' = trace r ++ evs -> Forall (read_in fill) evs ->
  reads_within fill r0 r -> reads_within fill r0 r'.
Proof.
  intros Htr Hev (evs0 & Htr0 & Hev0). exists (evs0 ++ evs).
  rewrite Htr, Htr0, app_assoc. split; [reflexivity|].
  apply Forall_app. split; assumption.
Qed.

Lemma reads_within_emit fill r0 r e :
  read_in fill e -> reads_within fill r0 r -> reads_within fill r0 (emit e r).
Proof.
  intros He. apply (reads_within_app fill r0 r (emit e r) [e]); [reflexivity|].
  constructor; [exact He|constructor].
Qed.

Lemma reads_within_same fill r0 r r' :
  trace r' = trace r -> reads_within fill r0 r -> reads_within fill r0 r'.
Proof.
  intros Htr. apply (reads_within_app fill r0 r r' []); [|constructor].
  rewrite app_nil_r. exact Htr.
Qed.

Lemma reads_within_publish fill r0 r tag val :
  reads_within fill r0 r -> reads_within fill r0 (publish_value_ tag val r).
Proof.
  apply (reads_within_app fill r0 r _ _ (publish_value_trace tag val r)).
  constructor; [exact I|].
  apply Forall_forall. intros e Hin. apply in_map_iff in Hin.
  destruct Hin as (j & <- & _). exact I.
Qed.

(** The verifier reads the last byte of the record and the bytes in front
    of it. *)
Lemma check_crc_reads fill r0 r grp grp_end :
  1 <= grp <= grp_end -> grp_end <= fill -> 0 <= checksum_area_end_ r ->
  reads_within fill r0 r ->
  reads_within fill r0 (snd (check_crc_ r grp grp_end)).
Proof.
  intros Hg He Hk W. unfold check_crc_. cbv zeta.
  match goal with
  | |- context [if ?c then _ else _] => destruct c
  end; cbn [snd];
    repeat (apply reads_within_emit; [|]); try exact W; try exact I;
    unfold read_in, crc_read_in; cbn [fst snd checksum_area_end_ emit]; lia.
Qed.

Lemma parse_group_reads r0 r s :
  1 <= s <= buf_index_ r -> 0 <= checksum_area_end_ r ->
  reads_within (buf_index_ r) r0 r ->
  match parse_group r s with
  | Leave r' => reads_within (buf_index_ r) r0 r'
  | Again r' _ => reads_within (buf_index_ r) r0 r'
  end.
Proof.
  intros Hs Hk W. unfold parse_group.
  destruct (memchr (buf_ r) s CARRIAGE_RETURN (buf_index_ r - s))
    as [grp_end|] eqn:Ecr.
  2:{ apply reads_within_emit; [exact I|]. apply reads_within_emit; [|exact W].
      unfold read_in, scan_in, memchr_examined_end. cbn [fst snd]. lia. }
  pose proof (memchr_Some _ _ _ _ _ Ecr) as (Hge & _ & _).
  set (r2 := emit _ r).
  assert (W2 : reads_within (buf_index_ r) r0 r2).
  { apply reads_within_emit; [|exact W].
    unfold read_in, scan_in, memchr_examined_end. cbn [fst snd]. lia. }
  pose proof (check_crc_reads (buf_index_ r) r0 r2 s grp_end ltac:(lia)
                ltac:(lia) Hk W2) as W3.
  destruct (check_crc_ r2 s grp_end) as [ok r3]. cbn [snd] in W3.
  destruct ok; cbn [negb]; [|exact W3].
  destruct (get_field (buf_ r3) (tag_ r3) s grp_end MAX_TAG_SIZE) as [len1 t].
  assert (W4 : reads_within (buf_index_ r) r0 (set_tag t r3))
    by (apply (reads_within_same _ _ r3); [reflexivity|exact W3]).
  destruct ((len1 =? 0) || (len1 >=? MAX_TAG_SIZE)).
  { apply reads_within_emit; [exact I|exact W4]. }
  set (r4 := set_tag t r3) in *.
  destruct (get_field (buf_ r4) (val_ r4) (s + (len1 + 1)) grp_end MAX_VAL_SIZE)
    as [len2 v].
  assert (W5 : reads_within (buf_index_ r) r0 (set_val v r4))
    by (apply (reads_within_same _ _ r4); [reflexivity|exact W4]).
  destruct ((len2 =? 0) || (len2 >=? MAX_VAL_SIZE)).
  { apply reads_within_emit; [exact I|exact W5]. }
  apply reads_within_publish. exact W5.
Qed.

Lemma parse_round_reads r0 r f :
  0 <= f <= buf_index_ r -> 1 <= buf_index_ r < 2 ^ 32 ->
  0 <= checksum_area_end_ r ->
  reads_within (buf_index_ r) r0 r ->
  match parse_round r f with
  | Leave r' => reads_within (buf_index_ r) r0 r'
  | Again r' _ => reads_within (buf_index_ r) r0 r'
  end.
Proof.
  intros Hf Hfill Hk W. unfold parse_round.
  assert (Hn : (buf_index_ r - 1) mod 2 ^ 32 = buf_index_ r - 1)
    by (apply Z.mod_small; lia).
  rewrite Hn.
  destruct (memchr (buf_ r) f LINE_FEED (buf_index_ r - 1)) as [lf|] eqn:Elf.
  2:{ apply reads_within_emit; [|exact W].
      unfold read_in, scan_in, memchr_examined_end. cbn [fst snd]. lia. }
  pose proof (memchr_Some _ _ _ _ _ Elf) as (Hlf & _ & _).
  set (r1 := emit _ r).
  assert (W1 : reads_within (buf_index_ r) r0 r1).
  { apply reads_within_emit; [|exact W].
    unfold read_in, scan_in, memchr_examined_end. cbn [fst snd]. lia. }
  change (buf_index_ r1) with (buf_index_ r).
  destruct (lf <? buf_index_ r) eqn:Eguard; cbn [negb]; [|exact W1].
  apply Z.ltb_lt in Eguard.
  apply (parse_group_reads r0 r1 (lf + 1)); [|exact Hk|exact W1].
  change (buf_index_ r1) with (buf_index_ r). lia.
Qed.

(** A round that continues leaves the cursor at most at the fill length. *)
Lemma parse_round_cursor r f :
  0 <= f -> 0 <= checksum_area_end_ r -> buf_index_ r < 2 ^ 32 ->
  MAX_TAG_SIZE <= Z.of_nat (length (tag_ r)) ->
  MAX_VAL_SIZE <= Z.of_nat (length (val_ r)) ->
  match parse_round r f with
  | Leave _ => True
  | Again r' f' =>
      f' <= buf_index_ r
      /\ length (tag_ r') = length (tag_ r)
      /\ length (val_ r') = length (val_ r)
  end.
Proof.
  intros Hf Hk Hfill Htag Hval.
  destruct (memchr (buf_ r) f LINE_FEED ((buf_index_ r - 1) mod 2 ^ 32))
    as [lf|] eqn:Elf.
  2:{ unfold parse_round. cbv zeta. rewrite Elf. exact I. }
  destruct (lf <? buf_index_ r) eqn:Eguard.
  2:{ unfold parse_round. cbv zeta. rewrite Elf.
      cbn [buf_index_ emit]. rewrite Eguard. exact I. }
  destruct (memchr (buf_ r) (lf + 1) CARRIAGE_RETURN (buf_index_ r - (lf + 1)))
    as [e|] eqn:Ecr.
  2:{ unfold parse_round, parse_group. cbv zeta. rewrite Elf.
      cbn [buf_index_ buf_ emit]. rewrite Eguard. cbn [negb].
      rewrite Ecr. exact I. }
  apply Z.ltb_lt in Eguard.
  pose proof (memchr_Some _ _ _ _ _ Elf) as (Hlf & Hqlf & Hnolf).
  pose proof (memchr_Some _ _ _ _ _ Ecr) as (He & Hqcr & Hnocr).
  set (gap := bytes (buf_ r) f (Z.to_nat (lf - f))).
  set (body := bytes (buf_ r) (lf + 1) (Z.to_nat (e - (lf + 1)))).
  assert (Hlgap : Z.of_nat (length gap) = lf - f)
    by (unfold gap; rewrite bytes_length; lia).
  assert (Hlbody : Z.of_nat (length body) = e - (lf + 1))
    by (unfold body; rewrite bytes_length; lia).
  destruct (parse_round_step r f gap body)
    as (r1 & Hr & Hd & _ & Ht1 & Hv1); try assumption.
  - apply holds_app. split; [apply holds_self|].
    unfold record_bytes. apply holds_cons. rewrite Hlgap.
    replace (f + (lf - f)) with lf by lia. split; [exact Hqlf|].
    apply holds_app. split; [apply holds_self|].
    apply holds_cons. rewrite Hlbody.
    replace (lf + 1 + (e - (lf + 1))) with e by lia.
    split; [exact Hqcr|]. intros i Hi. simpl in Hi. lia.
  - rewrite length_app, record_bytes_length. lia.
  - intros Hin. apply bytes_In in Hin. destruct Hin as (i & Hi & Hx).
    apply (Hnolf i); [lia|exact Hx].
  - intros Hin. apply bytes_In in Hin. destruct Hin as (i & Hi & Hx).
    apply (Hnocr i); [lia|exact Hx].
  - rewrite Hr. split; [lia|]. split; assumption.
Qed.

Lemma parse_frame_reads fuel : forall r0 r f r',
  0 <= f <= buf_index_ r -> 1 <= buf_index_ r < 2 ^ 32 ->
  0 <= checksum_area_end_ r ->
  MAX_TAG_SIZE <= Z.of_nat (length (tag_ r)) ->
  MAX_VAL_SIZE <= Z.of_nat (length (val_ r)) ->
  reads_within (buf_index_ r) r0 r ->
  parse_frame fuel r f = Some r' ->
  reads_within (buf_index_ r) r0 r'.
Proof.
  induction fuel as [|fuel IH]; intros r0 r f r' Hf Hfill Hk Htag Hval W Hp;
    [discriminate|].
  cbn [parse_frame] in Hp.
  pose proof (parse_round_reads r0 r f Hf Hfill Hk W) as Hreads.
  pose proof (parse_round_cursor r f ltac:(lia) Hk ltac:(lia) Htag Hval) as Hcur.
  pose proof (parse_round_grows r f) as Hgrow.
  destruct (parse_round r f) as [r1|r1 f1].
  - inversion Hp; subst r1. exact Hreads.
  - destruct Hgrow as ((pubs & (_ & _ & S3 & _ & S5 & _) & _) & Hlt & _).
    destruct Hcur as (Hle & Ht1 & Hv1).
    rewrite <- S5. apply (IH r0 r1 f1 r'); try assumption.
    + rewrite S5. lia.
    + rewrite S5. exact Hfill.
    + rewrite S3. exact Hk.
    + rewrite Ht1. exact Htag.
    + rewrite Hv1. exact Hval.
    + rewrite S5. exact Hreads.
Qed.

(** X16.  How far the searches of the record scan and the reads of the
    verifier go, for every content of a non-empty frame buffer: every search
    starts at a cursor between 0 and the fill length and examines fewer
    bytes than the fill length, so it ends below twice the fill length; the
    verifier reads inside the frame, never in front of the buffer.  With a
    frame of at most half the array the scan reads inside the array. *)
Theorem record_scan_read_bounds r :
  state_ r = END_FRAME_RECEIVED ->
  1 <= buf_index_ r < MAX_BUF_SIZE ->
  0 <= checksum_area_end_ r ->
  MAX_TAG_SIZE <= Z.of_nat (length (tag_ r)) ->
  MAX_VAL_SIZE <= Z.of_nat (length (val_ r)) ->
  exists evs,
    trace (loop r) = trace r ++ evs
    /\ Forall (scan_in (buf_index_ r)) (scans evs)
    /\ Forall (fun s => snd s <= 2 * buf_index_ r - 1) (scans evs)
    /\ Forall (crc_read_in (buf_index_ r)) (crc_reads evs)
    /\ (2 * buf_index_ r - 1 <= MAX_BUF_SIZE ->
        Forall (fun s => 0 <= fst s /\ snd s <= MAX_BUF_SIZE) (scans evs)).
Proof.
  intros Hst Hfill Hk Htag Hval.
  destruct (parse_frame_total r) as (r' & pubs & Hp & _).
  destruct (parse_frame_reads (parse_fuel r) r r 0 r') as (evs & Htr & Hev);
    try assumption; try lia.
  - unfold MAX_BUF_SIZE in Hfill. lia.
  - apply reads_within_refl.
  - exists evs. unfold loop. rewrite Hst, Hp. cbn [trace set_state].
    split; [exact Htr|].
    assert (Hscans : Forall (scan_in (buf_index_ r)) (scans evs)).
    { clear Htr. induction Hev as [|e evs He Hev IH]; [constructor|].
      destruct e; cbn [scans flat_map app]; try exact IH.
      constructor; [exact He|exact IH]. }
    assert (Hcrc : Forall (crc_read_in (buf_index_ r)) (crc_reads evs)).
    { clear Htr Hscans. induction Hev as [|e evs He Hev IH]; [constructor|].
      destruct e; cbn [crc_reads flat_map app]; try exact IH.
      constructor; [exact He|exact IH]. }
    split; [exact Hscans|]. split.
    { apply (Forall_impl _ (P := scan_in (buf_index_ r))); [|exact Hscans].
      intros s (H1 & H2 & H3). lia. }
    split; [exact Hcrc|].
    intros Hhalf.
    apply (Forall_impl _ (P := scan_in (buf_index_ r))); [|exact Hscans].
    intros s (H1 & H2 & H3). lia.
Qed.

Lemma record_scan_read_bounds_witness :
  exists evs,
    trace (loop two_records_received) = trace two_records_received ++ evs
    /\ Forall (fun s => snd s <= 51) (scans evs).
Proof.
  destruct (record_scan_read_bounds two_records_received)
    as (evs & Htr & _ & H & _).
  - reflexivity.
  - vm_compute. split; [discriminate|reflexivity].
  - vm_compute. discriminate.
  - vm_compute. discriminate.
  - vm_compute. discriminate.
  - exists evs. split; [exact Htr|exact H].
Defined.

(** ** The configuration *)

Lemma read_chars_loop_config drop c : forall rx j r,
  checksum_area_end_ (snd (read_chars_loop drop c rx j r))
  = checksum_area_end_ r
  /\ baud_rate_ (snd (read_chars_loop drop c rx j r)) = baud_rate_ r.
Proof.
  induction rx as [|received rx IH]; intros j r.
  - split; reflexivity.
  - rewrite read_chars_loop_cons.
    destruct (j <? 128); [|split; reflexivity].
    destruct (received =? c); [split; reflexivity|].
    destruct drop.
    + apply (IH ((j + 1) mod 256) (set_uart_rx rx r)).
    + destruct (buf_index_ r >=? MAX_BUF_SIZE - 1); [split; reflexivity|].
      match goal with
      | |- context [read_chars_loop false c rx ?jj ?rr] =>
          destruct (IH jj rr) as (A1 & A2)
      end.
      split; assumption.
Qed.

Lemma loop_config r :
  checksum_area_end_ (loop r) = checksum_area_end_ r
  /\ baud_rate_ (loop r) = baud_rate_ r
  /\ mk2pvrouter_listeners_ (loop r) = mk2pvrouter_listeners_ r.
Proof.
  unfold loop. destruct (state_ r) eqn:Hst.
  - repeat split.
  - unfold read_chars_until_.
    destruct (read_chars_loop_config true START_FRAME (uart_rx r) 0 r) as [A B].
    destruct (read_chars_loop_keeps true START_FRAME (uart_rx r) 0 r) as (C & _).
    destruct (read_chars_loop true START_FRAME (uart_rx r) 0 r) as [found r1].
    cbn [snd] in *. destruct found; repeat split; assumption.
  - unfold read_chars_until_.
    destruct (read_chars_loop_config false END_FRAME (uart_rx r) 0 r) as [A B].
    destruct (read_chars_loop_keeps false END_FRAME (uart_rx r) 0 r) as (C & _).
    destruct (read_chars_loop false END_FRAME (uart_rx r) 0 r) as [found r1].
    cbn [snd] in *. destruct found; repeat split; assumption.
  - destruct (parse_frame_total r) as (r' & pubs & Hp & (A1 & A2 & A3 & _) & _).
    rewrite Hp. repeat split; assumption.
Qed.

(** X17.  Nothing the host can call and nothing that arrives changes the
    configuration: the number of trailing bytes the checksum leaves out and
    the baud rate stay what they were, from the constructor on 1 and 9600;
    the registry only grows, at its end. *)
Theorem configuration_constant r r' :
  steps r r' ->
  checksum_area_end_ r' = checksum_area_end_ r
  /\ baud_rate_ r' = baud_rate_ r
  /\ exists added,
       mk2pvrouter_listeners_ r' = mk2pvrouter_listeners_ r ++ added.
Proof.
  intros Hs. induction Hs as [r|r r1 r2 Hs IH Hstep].
  - repeat split. exists []. rewrite app_nil_r. reflexivity.
  - destruct IH as (I1 & I2 & added & I3).
    destruct Hstep as [r1|r1|r1|t r1|received r1].
    + repeat split; try assumption. exists added. exact I3.
    + unfold update. destruct (state_ r1);
        (repeat split; try assumption; exists added; exact I3).
    + destruct (loop_config r1) as (L1 & L2 & L3).
      rewrite L1, L2, L3. repeat split; try assumption.
      exists added. exact I3.
    + repeat split; try assumption. exists (added ++ [t]).
      cbn [mk2pvrouter_listeners_ register_mk2pvrouter_listener set_listeners].
      rewrite I3, app_assoc. reflexivity.
    + repeat split; try assumption. exists added. exact I3.
Qed.

Lemma configuration_constant_witness :
  checksum_area_end_
    (loop (loop (update (setup
       (register_mk2pvrouter_listener TAG1
          (Mk2PVRouter_new (fun _ => 0) (repeat 0 16) (repeat 0 16)
             two_records_stream))))))
  = 1.
Proof.
  destruct (configuration_constant
              (Mk2PVRouter_new (fun _ => 0) (repeat 0 16) (repeat 0 16)
                 two_records_stream)
              (loop (loop (update (setup
                 (register_mk2pvrouter_listener TAG1
                    (Mk2PVRouter_new (fun _ => 0) (repeat 0 16) (repeat 0 16)
                       two_records_stream)))))))
    as (H & _).
  - repeat (eapply steps_step; [|apply step_loop]).
    eapply steps_step; [|apply step_update].
    eapply steps_step; [|apply step_setup].
    eapply steps_step; [|apply step_register].
    apply steps_refl.
  - rewrite H. reflexivity.
Defined.
